(** * The replenishment runner: a batch of environment workers stepped together

    Shallow embedding of [env_runners/replenishment_runner.py]: the worker
    loop [env_worker], the runner state built by [_init_env], the two stepping
    algorithms [sync_step] and [async_step], [reset_all_env], [alive_env] and
    the episode bookkeeping of [get_terminated_env_info].

    Conventions of the embedding.
    - Python numbers (ints, bools read as 0/1, float rewards) are exact
      integers [Z]; no property below depends on rounding.  The [np.int32]
      array [envs_step] keeps its 32-bit wrap-around.
    - A dict with string keys is a [gmap string _]; a NumPy vector is a list.
    - A pipe end is the worker it talks to: the worker's simulation, the
      queue of replies it has posted and not yet been read, and the trace of
      the commands it has received.  [send] runs one turn of the worker loop,
      [recv] takes the oldest posted reply.  Workers share nothing, so running
      a worker's turn at [send] time yields the replies the parent reads.
    - [None] is a raised Python exception (or a [recv] that would block).

    The second part embeds [configs/config_utils.py], which builds the
    [args] the runner is given, and [SMAC.get_scheme] of [envs/smac.py];
    its conventions are stated where it starts. *)

From Stdlib Require Import ZArith Lia.
From stdpp Require Import base tactics option list gmap strings fin_maps fin_sets.

Local Open Scope Z_scope.

(** ** Values inside an [info] dict *)

Inductive pyval :=
  | VNum (z : Z)
  | VArr (a : list Z).

(** Arrays appended to the batch under ["individual_rewards"]. *)
Inductive ndarray :=
  | A1 (v : list Z)
  | A2 (m : list (list Z)).

(** [x + v] for a scalar [x]: NumPy broadcasts the scalar over a vector. *)
Definition radd (x : Z) (v : pyval) : pyval :=
  match v with
  | VNum z => VNum (x + z)
  | VArr a => VArr (map (Z.add x) a)
  end.

(** Truth value of [v] as [not v] / [if v] computes it; a NumPy vector has
    one only when it holds a single element. *)
Definition truthy (v : pyval) : option bool :=
  match v with
  | VNum z => Some (negb (z =? 0))
  | VArr [x] => Some (negb (x =? 0))
  | VArr _ => None
  end.

(** [np.expand_dims(v, axis=-1)]. *)
Definition expand_dims_last (v : pyval) : ndarray :=
  match v with
  | VNum z => A1 [z]
  | VArr a => A2 (map (λ x, [x]) a)
  end.

(** [np.zeros(n)], [np.zeros((n, m))] and [np.ones((n, m))]. *)
Definition np_zeros1 (n : nat) : list Z := replicate n 0.
Definition np_zeros2 (n m : nat) : list (list Z) := replicate n (replicate m 0).
Definition np_ones2 (n m : nat) : list (list Z) := replicate n (replicate m 1).

(** [d.get(k, default)]. *)
Definition dict_get {A} (d : gmap string A) (k : string) (dflt : A) : A :=
  default dflt (d !! k).

(** ** Terminal episode records *)

(** The dict comprehension of [get_terminated_env_info]: one entry per key
    of either dict, holding the sum of the two looked-up values. *)
Definition summed (tracker : gmap string Z) (env_info : gmap string pyval)
  : gmap string pyval :=
  set_to_map (λ k, (k, radd (dict_get tracker k 0) (dict_get env_info k (VNum 0))))
             (dom tracker ∪ dom env_info).

(** [d.update(u)]: entries of [u] replace those of [d]. *)
Definition dict_update {A} (d u : gmap string A) : gmap string A := u ∪ d.

Definition test_prefix (k : string) : string := "test_" +:+ k.

(** The record built from the two counters and the environment's [info];
    in evaluation mode every key is renamed. *)
Definition terminal_record (evaluate : bool) (len ret : Z)
    (env_info : gmap string pyval) : gmap string pyval :=
  let tracker : gmap string Z :=
    <["episode_return" := ret]> (<["episode_length" := len]> ∅) in
  let terminated_env_info :=
    dict_update (VNum <$> tracker) (summed tracker env_info) in
  if evaluate then kmap test_prefix terminated_env_info
  else terminated_env_info.

(** ** The simulation, as the worker uses it *)

(** The calls [env_worker] makes on its environment.  [env_fn seed] builds
    the environment of a worker from its seed. *)
Class Environment (Env Action : Type) := {
  env_fn : Z → Env;
  env_step : Env → Action → Env * (Z * bool * gmap string pyval);
  env_reset : Env → Env;
  get_state : Env → list Z;
  get_avail_actions : Env → list (list Z);
  get_obs : Env → list (list Z);
}.

(** Commands the runner puts on a pipe while stepping.  The other commands
    [env_worker] understands ([close], [get_env_info], [get_stats], ...) are
    never sent by [sync_step] or [async_step]. *)
Inductive Cmd (Action : Type) :=
  | CStep (a : Action)
  | CReset.
Arguments CStep {Action} a.
Arguments CReset {Action}.

(** The dict a worker sends back.  A reply to ["reset"] has only the first
    three keys; a reply to ["step"] has all six. *)
Record Reply := {
  rp_state : list Z;
  rp_avail_actions : list (list Z);
  rp_obs : list (list Z);
  rp_reward : option Z;
  rp_terminated : option bool;
  rp_info : option (gmap string pyval);
}.

Record Worker (Env Action : Type) := {
  w_env : Env;
  w_out : list Reply;
  w_cmds : list (Cmd Action);
}.
Arguments w_env {Env Action} w.
Arguments w_out {Env Action} w.
Arguments w_cmds {Env Action} w.

(** Fields of [args] the runner reads. *)
Record Args := {
  a_env_batch_size : nat;
  a_evaluate_batch_size : nat;
  a_asynchronous_env : bool;
  a_seed : Z;
  n_agents : nat;
  n_actions : nat;
  state_shape : nat;
  obs_shape : nat;
}.

(** The lists of [step_data], one entry per worker.  A one-element tuple
    such as [(reward,)] is a one-element list; the closing [np.array(v)] of
    each list keeps its entries and their order. *)
Record StepData := {
  sd_state : list (list Z);
  sd_avail_actions : list (list (list Z));
  sd_obs : list (list (list Z));
  sd_reward : list (list Z);
  sd_individual_rewards : list ndarray;
  sd_terminated : list (list bool);
}.

Definition empty_step_data : StepData :=
  {| sd_state := []; sd_avail_actions := []; sd_obs := []; sd_reward := [];
     sd_individual_rewards := []; sd_terminated := [] |}.

(** Appends one worker's entry to each of the six lists. *)
Definition sd_append (sd : StepData) (st : list Z) (av ob : list (list Z))
    (rw : Z) (ir : ndarray) (tm : bool) : StepData :=
  {| sd_state := sd_state sd ++ [st];
     sd_avail_actions := sd_avail_actions sd ++ [av];
     sd_obs := sd_obs sd ++ [ob];
     sd_reward := sd_reward sd ++ [[rw]];
     sd_individual_rewards := sd_individual_rewards sd ++ [ir];
     sd_terminated := sd_terminated sd ++ [[tm]] |}.

(** 32-bit wrap-around of the [np.int32] step counters. *)
Definition wrap32 (z : Z) : Z := (z + 2 ^ 31) mod 2 ^ 32 - 2 ^ 31.

(** [for idx in idxs: body], stopping at the first exception. *)
Fixpoint for_each {St : Type} (body : nat → St → option St) (idxs : list nat)
    (s : St) : option St :=
  match idxs with
  | [] => Some s
  | i :: rest => s' ← body i s; for_each body rest s'
  end.

Section Runner.
Context {Env Action : Type} `{!Environment Env Action}.

(** *** The worker process *)

(** One turn of the loop of [env_worker] on a received command. *)
Definition env_worker (cmd : Cmd Action) (w : Worker Env Action) : Worker Env Action :=
  match cmd with
  | CStep actions =>
      let '(env, (reward, terminated, env_info)) := env_step (w_env w) actions in
      {| w_env := env;
         w_out := w_out w ++
           [{| rp_state := get_state env;
               rp_avail_actions := get_avail_actions env;
               rp_obs := get_obs env;
               rp_reward := Some reward;
               rp_terminated := Some terminated;
               rp_info := Some env_info |}];
         w_cmds := w_cmds w ++ [cmd] |}
  | CReset =>
      let env := env_reset (w_env w) in
      {| w_env := env;
         w_out := w_out w ++
           [{| rp_state := get_state env;
               rp_avail_actions := get_avail_actions env;
               rp_obs := get_obs env;
               rp_reward := None;
               rp_terminated := None;
               rp_info := None |}];
         w_cmds := w_cmds w ++ [cmd] |}
  end.

(** [parent_conn.send(cmd)] and [parent_conn.recv()]. *)
Definition send (cmd : Cmd Action) (w : Worker Env Action) : Worker Env Action :=
  env_worker cmd w.

Definition recv (w : Worker Env Action) : option (Reply * Worker Env Action) :=
  match w_out w with
  | [] => None
  | data :: rest =>
      Some (data, {| w_env := w_env w; w_out := rest; w_cmds := w_cmds w |})
  end.

(** *** The runner *)

Record Runner := {
  args : Args;
  evaluate : bool;
  env_batch_size : nat;
  parent_conns : list (Worker Env Action);
  env_total_step : Z;
  terminated : list bool;
  envs_step : list Z;
  episode_returns : list Z;
  episode_lengths : list Z;
  live_env : option nat;
}.

Definition set_parent_conns (v : list (Worker Env Action)) (r : Runner) : Runner :=
  {| args := args r; evaluate := evaluate r; env_batch_size := env_batch_size r;
     parent_conns := v; env_total_step := env_total_step r;
     terminated := terminated r; envs_step := envs_step r;
     episode_returns := episode_returns r; episode_lengths := episode_lengths r;
     live_env := live_env r |}.

Definition set_env_total_step (v : Z) (r : Runner) : Runner :=
  {| args := args r; evaluate := evaluate r; env_batch_size := env_batch_size r;
     parent_conns := parent_conns r; env_total_step := v;
     terminated := terminated r; envs_step := envs_step r;
     episode_returns := episode_returns r; episode_lengths := episode_lengths r;
     live_env := live_env r |}.

Definition set_terminated (v : list bool) (r : Runner) : Runner :=
  {| args := args r; evaluate := evaluate r; env_batch_size := env_batch_size r;
     parent_conns := parent_conns r; env_total_step := env_total_step r;
     terminated := v; envs_step := envs_step r;
     episode_returns := episode_returns r; episode_lengths := episode_lengths r;
     live_env := live_env r |}.

Definition set_envs_step (v : list Z) (r : Runner) : Runner :=
  {| args := args r; evaluate := evaluate r; env_batch_size := env_batch_size r;
     parent_conns := parent_conns r; env_total_step := env_total_step r;
     terminated := terminated r; envs_step := v;
     episode_returns := episode_returns r; episode_lengths := episode_lengths r;
     live_env := live_env r |}.

Definition set_episode_returns (v : list Z) (r : Runner) : Runner :=
  {| args := args r; evaluate := evaluate r; env_batch_size := env_batch_size r;
     parent_conns := parent_conns r; env_total_step := env_total_step r;
     terminated := terminated r; envs_step := envs_step r;
     episode_returns := v; episode_lengths := episode_lengths r;
     live_env := live_env r |}.

Definition set_episode_lengths (v : list Z) (r : Runner) : Runner :=
  {| args := args r; evaluate := evaluate r; env_batch_size := env_batch_size r;
     parent_conns := parent_conns r; env_total_step := env_total_step r;
     terminated := terminated r; envs_step := envs_step r;
     episode_returns := episode_returns r; episode_lengths := v;
     live_env := live_env r |}.

Definition set_live_env (v : option nat) (r : Runner) : Runner :=
  {| args := args r; evaluate := evaluate r; env_batch_size := env_batch_size r;
     parent_conns := parent_conns r; env_total_step := env_total_step r;
     terminated := terminated r; envs_step := envs_step r;
     episode_returns := episode_returns r; episode_lengths := episode_lengths r;
     live_env := v |}.

(** [__init__] followed by [_init_env]: one worker per slot, its seed
    offset by its index; every worker starts out marked terminated.
    [live_env] is not assigned here.  With a batch size of 0 the constructor
    raises, at the unpacking of an empty [zip]: [init] is the runner built
    for a positive batch size. *)
Definition init (a : Args) (eval : bool) : Runner :=
  let n := if eval then a_evaluate_batch_size a else a_env_batch_size a in
  {| args := a; evaluate := eval; env_batch_size := n;
     parent_conns :=
       map (λ i : nat, {| w_env := env_fn (a_seed a + Z.of_nat i);
                          w_out := []; w_cmds := [] |}) (seq 0 n);
     env_total_step := 0;
     terminated := replicate n true;
     envs_step := replicate n 0;
     episode_returns := replicate n 0;
     episode_lengths := replicate n 0;
     live_env := None |}.

Definition reset_all_env (r : Runner) : Runner :=
  set_live_env (Some (env_batch_size r))
    (set_terminated (replicate (env_batch_size r) true)
       (set_envs_step (replicate (env_batch_size r) 0) r)).

(** [int(np.sum(self.terminated == False))]. *)
Definition alive_env (r : Runner) : nat :=
  length (filter (λ t, t = false) (terminated r)).

Definition get_terminated_env_info (env_idx : nat) (env_info : gmap string pyval)
    (r : Runner) : option (gmap string pyval * Runner) :=
  len ← episode_lengths r !! env_idx;
  ret ← episode_returns r !! env_idx;
  let r := set_episode_lengths (<[env_idx := 0]> (episode_lengths r)) r in
  let r := set_episode_returns (<[env_idx := 0]> (episode_returns r)) r in
  Some (terminal_record (evaluate r) len ret env_info, r).

(** *** Stepping *)

(** The runner together with the two locals of a step call; also what the
    call returns. *)
Record Frame := {
  self : Runner;
  step_data : StepData;
  terminated_env_info : list (gmap string pyval);
}.

Definition with_self (r : Runner) (f : Frame) : Frame :=
  {| self := r; step_data := step_data f;
     terminated_env_info := terminated_env_info f |}.

(** The frame on entry of a step call: both locals empty. *)
Definition enter (r : Runner) : Frame :=
  {| self := r; step_data := empty_step_data; terminated_env_info := [] |}.

Definition entry_zero_rewards (a : Args) : ndarray := A2 (np_zeros2 (n_agents a) 1).

(** First branch of [sync_step], second loop: read one reset reply. *)
Definition sync_reset_recv (idx : nat) (f : Frame) : option Frame :=
  let r := self f in
  parent_conn ← parent_conns r !! idx;
  '(data, parent_conn) ← recv parent_conn;
  let r := set_parent_conns (<[idx := parent_conn]> (parent_conns r)) r in
  Some {| self := r;
          step_data := sd_append (step_data f) (rp_state data)
            (rp_avail_actions data) (rp_obs data) 0
            (entry_zero_rewards (args r)) false;
          terminated_env_info := terminated_env_info f |}.

(** Second branch of [sync_step], first loop: step the live workers. *)
Definition sync_send (actions : list Action) (idx : nat) (f : Frame) : option Frame :=
  let r := self f in
  t ← terminated r !! idx;
  if negb t then
    parent_conn ← parent_conns r !! idx;
    action ← actions !! idx;
    let r := set_parent_conns
               (<[idx := send (CStep action) parent_conn]> (parent_conns r)) r in
    n ← envs_step r !! idx;
    let r := set_envs_step (<[idx := wrap32 (n + 1)]> (envs_step r)) r in
    Some (with_self (set_env_total_step (env_total_step r + 1) r) f)
  else Some f.

(** [env_terminated]: the reply says terminated and its [info] does not
    flag an episode limit. *)
Definition env_terminated_of (data_terminated : bool) (info : gmap string pyval)
  : option bool :=
  if data_terminated then
    limit ← truthy (dict_get info "episode_limit" (VNum 0));
    Some (negb limit)
  else Some false.

(** Second branch of [sync_step], second loop: read the replies of the live
    workers and fill the slots of the others with fake data. *)
Definition sync_recv (idx : nat) (f : Frame) : option Frame :=
  let r := self f in
  t ← terminated r !! idx;
  if negb t then
    parent_conn ← parent_conns r !! idx;
    '(data, parent_conn) ← recv parent_conn;
    let r := set_parent_conns (<[idx := parent_conn]> (parent_conns r)) r in
    reward ← rp_reward data;
    info ← rp_info data;
    individual_rewards ← info !! "individual_rewards";
    let info := delete "individual_rewards" info in
    len ← episode_lengths r !! idx;
    let r := set_episode_lengths (<[idx := len + 1]> (episode_lengths r)) r in
    ret ← episode_returns r !! idx;
    let r := set_episode_returns (<[idx := ret + reward]> (episode_returns r)) r in
    data_terminated ← rp_terminated data;
    '(infos, r) ←
      (if data_terminated then
         '(record, r) ← get_terminated_env_info idx info r;
         Some (terminated_env_info f ++ [record], r)
       else Some (terminated_env_info f, r));
    env_terminated ← env_terminated_of data_terminated info;
    let r := set_terminated (<[idx := env_terminated]> (terminated r)) r in
    Some {| self := r;
            step_data := sd_append (step_data f) (rp_state data)
              (rp_avail_actions data) (rp_obs data) reward
              (expand_dims_last individual_rewards) env_terminated;
            terminated_env_info := infos |}
  else
    let a := args r in
    Some {| self := set_envs_step (<[idx := 0]> (envs_step r)) r;
            step_data := sd_append (step_data f) (np_zeros1 (state_shape a))
              (np_ones2 (n_agents a) (n_actions a))
              (np_zeros2 (n_agents a) (obs_shape a)) 0
              (entry_zero_rewards a) false;
            terminated_env_info := terminated_env_info f |}.

(** [np.all(self.terminated)]. *)
Definition np_all (l : list bool) : bool := forallb id l.

Definition indices (r : Runner) : list nat := seq 0 (length (parent_conns r)).

Definition sync_step (actions : list Action) (r : Runner) : option Frame :=
  if np_all (terminated r) then
    let r := set_envs_step (map (λ _, 0) (envs_step r)) r in
    let r := set_parent_conns (map (send CReset) (parent_conns r)) r in
    f ← for_each sync_reset_recv (indices r) (enter r);
    Some (with_self
            (set_terminated (map (λ _, false) (terminated (self f))) (self f)) f)
  else
    f ← for_each (sync_send actions) (indices r) (enter r);
    for_each sync_recv (indices r) f.

(** First loop of [async_step]: every worker gets a command. *)
Definition async_send (actions : list Action) (idx : nat) (f : Frame) : option Frame :=
  let r := self f in
  t ← terminated r !! idx;
  parent_conn ← parent_conns r !! idx;
  if negb t then
    action ← actions !! idx;
    let r := set_parent_conns
               (<[idx := send (CStep action) parent_conn]> (parent_conns r)) r in
    n ← envs_step r !! idx;
    Some (with_self (set_envs_step (<[idx := wrap32 (n + 1)]> (envs_step r)) r) f)
  else
    let r := set_parent_conns
               (<[idx := send CReset parent_conn]> (parent_conns r)) r in
    Some (with_self (set_envs_step (<[idx := 0]> (envs_step r)) r) f).

(** Second loop of [async_step]: every worker answers. *)
Definition async_recv (idx : nat) (f : Frame) : option Frame :=
  let r := self f in
  parent_conn ← parent_conns r !! idx;
  '(data, parent_conn) ← recv parent_conn;
  let r := set_parent_conns (<[idx := parent_conn]> (parent_conns r)) r in
  let r := set_env_total_step (env_total_step r + 1) r in
  t ← terminated r !! idx;
  if negb t then
    reward ← rp_reward data;
    info ← rp_info data;
    individual_rewards ← info !! "individual_rewards";
    len ← episode_lengths r !! idx;
    let r := set_episode_lengths (<[idx := len + 1]> (episode_lengths r)) r in
    ret ← episode_returns r !! idx;
    let r := set_episode_returns (<[idx := ret + reward]> (episode_returns r)) r in
    data_terminated ← rp_terminated data;
    '(infos, r) ←
      (if data_terminated then
         '(record, r) ← get_terminated_env_info idx info r;
         Some (terminated_env_info f ++ [record], r)
       else Some (terminated_env_info f, r));
    env_terminated ← env_terminated_of data_terminated info;
    let r := set_terminated (<[idx := env_terminated]> (terminated r)) r in
    Some {| self := r;
            step_data := sd_append (step_data f) (rp_state data)
              (rp_avail_actions data) (rp_obs data) reward
              (expand_dims_last individual_rewards) env_terminated;
            terminated_env_info := infos |}
  else
    Some {| self := set_terminated (<[idx := false]> (terminated r)) r;
            step_data := sd_append (step_data f) (rp_state data)
              (rp_avail_actions data) (rp_obs data) 0
              (entry_zero_rewards (args r)) false;
            terminated_env_info := terminated_env_info f |}.

Definition async_step (actions : list Action) (r : Runner) : option Frame :=
  f ← for_each (async_send actions) (indices r) (enter r);
  for_each async_recv (indices r) f.

(** [self.step], bound once by [_init_env]. *)
Definition step (actions : list Action) (r : Runner) : option Frame :=
  if a_asynchronous_env (args r) then async_step actions r
  else sync_step actions r.

(** *** One worker's share of a step call

    The stepping loops touch, at index [idx], only position [idx] of the five
    per-worker arrays.  [Slot] gathers these five values, [Entry] the six
    values a worker contributes to [step_data], and the [*_slot] functions
    below restate each loop body on a single slot.  They are proof devices:
    [sync_send_on_slot] and its siblings show that the loop bodies above
    compute exactly them. *)

Record Slot := {
  sl_conn : Worker Env Action;
  sl_terminated : bool;
  sl_envs_step : Z;
  sl_return : Z;
  sl_length : Z;
}.

Record Entry := {
  en_state : list Z;
  en_avail_actions : list (list Z);
  en_obs : list (list Z);
  en_reward : Z;
  en_individual_rewards : ndarray;
  en_terminated : bool;
}.

(** What one loop iteration does: the new slot, the entry appended to
    [step_data] (if any), the terminal records appended, and the increment
    of [env_total_step]. *)
Record Effect := {
  ef_slot : Slot;
  ef_entry : option Entry;
  ef_records : list (gmap string pyval);
  ef_steps : Z;
}.

Definition slot (r : Runner) (i : nat) : option Slot :=
  c ← parent_conns r !! i;
  t ← terminated r !! i;
  n ← envs_step r !! i;
  ret ← episode_returns r !! i;
  len ← episode_lengths r !! i;
  Some {| sl_conn := c; sl_terminated := t; sl_envs_step := n;
          sl_return := ret; sl_length := len |}.

Definition put_slot (i : nat) (sl : Slot) (r : Runner) : Runner :=
  {| args := args r; evaluate := evaluate r; env_batch_size := env_batch_size r;
     parent_conns := <[i := sl_conn sl]> (parent_conns r);
     env_total_step := env_total_step r;
     terminated := <[i := sl_terminated sl]> (terminated r);
     envs_step := <[i := sl_envs_step sl]> (envs_step r);
     episode_returns := <[i := sl_return sl]> (episode_returns r);
     episode_lengths := <[i := sl_length sl]> (episode_lengths r);
     live_env := live_env r |}.

Definition sd_push (sd : StepData) (e : Entry) : StepData :=
  sd_append sd (en_state e) (en_avail_actions e) (en_obs e) (en_reward e)
    (en_individual_rewards e) (en_terminated e).

(** The entry of worker [i] in a batch, when all six lists have one. *)
Definition entry (sd : StepData) (i : nat) : option Entry :=
  st ← sd_state sd !! i;
  av ← sd_avail_actions sd !! i;
  ob ← sd_obs sd !! i;
  rw ← sd_reward sd !! i;
  ir ← sd_individual_rewards sd !! i;
  tm ← sd_terminated sd !! i;
  match rw, tm with
  | [rw], [tm] =>
      Some {| en_state := st; en_avail_actions := av; en_obs := ob;
              en_reward := rw; en_individual_rewards := ir; en_terminated := tm |}
  | _, _ => None
  end.

Definition commit (i : nat) (eff : Effect) (f : Frame) : Frame :=
  {| self := set_env_total_step (env_total_step (self f) + ef_steps eff)
               (put_slot i (ef_slot eff) (self f));
     step_data := match ef_entry eff with
                  | Some e => sd_push (step_data f) e
                  | None => step_data f
                  end;
     terminated_env_info := terminated_env_info f ++ ef_records eff |}.

Definition on_slot (g : nat → Slot → option Effect) (i : nat) (f : Frame)
  : option Frame :=
  sl ← slot (self f) i;
  eff ← g i sl;
  Some (commit i eff f).

(** The entry built from a reset reply. *)
Definition reset_entry (a : Args) (data : Reply) : Entry :=
  {| en_state := rp_state data; en_avail_actions := rp_avail_actions data;
     en_obs := rp_obs data; en_reward := 0;
     en_individual_rewards := entry_zero_rewards a; en_terminated := false |}.

(** The fake entry of a worker that is skipped. *)
Definition placeholder (a : Args) : Entry :=
  {| en_state := np_zeros1 (state_shape a);
     en_avail_actions := np_ones2 (n_agents a) (n_actions a);
     en_obs := np_zeros2 (n_agents a) (obs_shape a);
     en_reward := 0;
     en_individual_rewards := entry_zero_rewards a;
     en_terminated := false |}.

Definition sync_reset_recv_slot (a : Args) (sl : Slot) : option Effect :=
  '(data, conn) ← recv (sl_conn sl);
  Some {| ef_slot := {| sl_conn := conn; sl_terminated := sl_terminated sl;
                        sl_envs_step := sl_envs_step sl;
                        sl_return := sl_return sl; sl_length := sl_length sl |};
          ef_entry := Some (reset_entry a data);
          ef_records := []; ef_steps := 0 |}.

Definition sync_send_slot (action : option Action) (sl : Slot) : option Effect :=
  if negb (sl_terminated sl) then
    a ← action;
    Some {| ef_slot := {| sl_conn := send (CStep a) (sl_conn sl);
                          sl_terminated := sl_terminated sl;
                          sl_envs_step := wrap32 (sl_envs_step sl + 1);
                          sl_return := sl_return sl; sl_length := sl_length sl |};
            ef_entry := None; ef_records := []; ef_steps := 1 |}
  else Some {| ef_slot := sl; ef_entry := None; ef_records := []; ef_steps := 0 |}.

(** Reading the reply of a worker that was stepped; [pop] tells whether
    ["individual_rewards"] is popped from [info] (synchronous mode) or only
    read (asynchronous mode); [steps] is the increment of [env_total_step]. *)
Definition live_recv_slot (pop : bool) (eval : bool) (steps : Z) (sl : Slot)
  : option Effect :=
  '(data, conn) ← recv (sl_conn sl);
  reward ← rp_reward data;
  info ← rp_info data;
  individual_rewards ← info !! "individual_rewards";
  let info := if pop then delete "individual_rewards" info else info in
  data_terminated ← rp_terminated data;
  env_terminated ← env_terminated_of data_terminated info;
  let len := sl_length sl + 1 in
  let ret := sl_return sl + reward in
  Some {| ef_slot := {| sl_conn := conn; sl_terminated := env_terminated;
                        sl_envs_step := sl_envs_step sl;
                        sl_return := if data_terminated : bool then 0 else ret;
                        sl_length := if data_terminated then 0 else len |};
          ef_entry := Some {| en_state := rp_state data;
                              en_avail_actions := rp_avail_actions data;
                              en_obs := rp_obs data; en_reward := reward;
                              en_individual_rewards :=
                                expand_dims_last individual_rewards;
                              en_terminated := env_terminated |};
          ef_records := if data_terminated
                        then [terminal_record eval len ret info] else [];
          ef_steps := steps |}.

Definition sync_recv_slot (a : Args) (eval : bool) (sl : Slot) : option Effect :=
  if negb (sl_terminated sl) then live_recv_slot true eval 0 sl
  else Some {| ef_slot := {| sl_conn := sl_conn sl; sl_terminated := sl_terminated sl;
                             sl_envs_step := 0;
                             sl_return := sl_return sl; sl_length := sl_length sl |};
               ef_entry := Some (placeholder a); ef_records := []; ef_steps := 0 |}.

Definition async_send_slot (action : option Action) (sl : Slot) : option Effect :=
  if negb (sl_terminated sl) then
    a ← action;
    Some {| ef_slot := {| sl_conn := send (CStep a) (sl_conn sl);
                          sl_terminated := sl_terminated sl;
                          sl_envs_step := wrap32 (sl_envs_step sl + 1);
                          sl_return := sl_return sl; sl_length := sl_length sl |};
            ef_entry := None; ef_records := []; ef_steps := 0 |}
  else
    Some {| ef_slot := {| sl_conn := send CReset (sl_conn sl);
                          sl_terminated := sl_terminated sl;
                          sl_envs_step := 0;
                          sl_return := sl_return sl; sl_length := sl_length sl |};
            ef_entry := None; ef_records := []; ef_steps := 0 |}.

Definition async_recv_slot (a : Args) (eval : bool) (sl : Slot) : option Effect :=
  if negb (sl_terminated sl) then live_recv_slot false eval 1 sl
  else
    '(data, conn) ← recv (sl_conn sl);
    Some {| ef_slot := {| sl_conn := conn; sl_terminated := false;
                          sl_envs_step := sl_envs_step sl;
                          sl_return := sl_return sl; sl_length := sl_length sl |};
            ef_entry := Some (reset_entry a data);
            ef_records := []; ef_steps := 1 |}.

(** *** Well-formed runners

    What [_init_env] establishes and every call keeps: the five arrays have
    one position per worker and no reply is left unread on any pipe. *)
Definition sized (n : nat) (r : Runner) : Prop :=
  length (parent_conns r) = n ∧ length (terminated r) = n ∧
  length (envs_step r) = n ∧ length (episode_returns r) = n ∧
  length (episode_lengths r) = n.

Definition wf (r : Runner) : Prop :=
  sized (env_batch_size r) r ∧ Forall (λ w : Worker Env Action, w_out w = []) (parent_conns r).

(** *** Loop invariant of a slot-wise loop *)

Definition sd_extend (sd : StepData) (es : list Entry) : StepData :=
  foldl sd_push sd es.

Definition total_steps (effs : list Effect) : Z :=
  foldr (λ eff acc, ef_steps eff + acc) 0 effs.

(** All six lists of a batch have [n] entries. *)
Definition sd_sized (n : nat) (sd : StepData) : Prop :=
  length (sd_state sd) = n ∧ length (sd_avail_actions sd) = n ∧
  length (sd_obs sd) = n ∧ length (sd_reward sd) = n ∧
  length (sd_individual_rewards sd) = n ∧ length (sd_terminated sd) = n.

(** The attributes no step call assigns. *)
Definition same_config (r r' : Runner) : Prop :=
  args r' = args r ∧ evaluate r' = evaluate r ∧
  env_batch_size r' = env_batch_size r ∧ live_env r' = live_env r.

(** After the iterations [0 .. k-1] of a loop whose body is [on_slot g],
    started in frame [f0]: [effs] lists what each iteration did. *)
Definition loop_inv (g : nat → Slot → option Effect) (n : nat) (f0 : Frame)
    (effs : list Effect) (k : nat) (f : Frame) : Prop :=
  sized n (self f) ∧ same_config (self f0) (self f) ∧
  length effs = k ∧
  (∀ i eff, effs !! i = Some eff →
     ∃ sl, slot (self f0) i = Some sl ∧ g i sl = Some eff ∧
           slot (self f) i = Some (ef_slot eff)) ∧
  (∀ i, (k ≤ i)%nat → slot (self f) i = slot (self f0) i) ∧
  step_data f = sd_extend (step_data f0) (omap ef_entry effs) ∧
  terminated_env_info f = terminated_env_info f0 ++ concat (ef_records <$> effs) ∧
  env_total_step (self f) = env_total_step (self f0) + total_steps effs.

(** *** What a whole step call does, worker by worker *)

(** The effect of a second loop iteration after a first one on the same
    slot. *)
Definition then_effect (eff1 eff2 : Effect) : Effect :=
  {| ef_slot := ef_slot eff2; ef_entry := ef_entry eff2;
     ef_records := ef_records eff2; ef_steps := ef_steps eff1 + ef_steps eff2 |}.

Definition seq_slot (g1 g2 : nat → Slot → option Effect) (i : nat) (sl : Slot)
  : option Effect :=
  eff1 ← g1 i sl;
  eff2 ← g2 i (ef_slot eff1);
  Some (then_effect eff1 eff2).

(** Frame [f] is what a call on runner [r] returns when the call does [W i]
    to worker [i]: the batch has [n] entries, entry [i] and slot [i] come
    from worker [i], the records come out in worker order. *)
Definition batch_post (n : nat) (W : nat → Slot → option Effect) (r : Runner)
    (f : Frame) : Prop :=
  sized n (self f) ∧ same_config r (self f) ∧ sd_sized n (step_data f) ∧
  ∃ effs, length effs = n ∧
    (∀ i sl, slot r i = Some sl →
       ∃ eff, W i sl = Some eff ∧ effs !! i = Some eff ∧
              slot (self f) i = Some (ef_slot eff) ∧
              entry (step_data f) i = ef_entry eff) ∧
    terminated_env_info f = concat (ef_records <$> effs) ∧
    env_total_step (self f) = env_total_step r + total_steps effs.

(** One worker under a synchronous call that steps, under an asynchronous
    call, and under the synchronous full reset. *)
Definition sync_worker (a : Args) (eval : bool) (actions : list Action)
  : nat → Slot → option Effect :=
  seq_slot (λ i, sync_send_slot (actions !! i)) (λ _, sync_recv_slot a eval).

Definition async_worker (a : Args) (eval : bool) (actions : list Action)
  : nat → Slot → option Effect :=
  seq_slot (λ i, async_send_slot (actions !! i)) (λ _, async_recv_slot a eval).

Definition reset_sent (sl : Slot) : Slot :=
  {| sl_conn := send CReset (sl_conn sl); sl_terminated := sl_terminated sl;
     sl_envs_step := 0; sl_return := sl_return sl; sl_length := sl_length sl |}.

Definition unmark (eff : Effect) : Effect :=
  {| ef_slot := {| sl_conn := sl_conn (ef_slot eff); sl_terminated := false;
                   sl_envs_step := sl_envs_step (ef_slot eff);
                   sl_return := sl_return (ef_slot eff);
                   sl_length := sl_length (ef_slot eff) |};
     ef_entry := ef_entry eff; ef_records := ef_records eff;
     ef_steps := ef_steps eff |}.

Definition reset_worker (a : Args) (i : nat) (sl : Slot) : option Effect :=
  unmark <$> sync_reset_recv_slot a (reset_sent sl).

(** The worker after it has served one command and its reply was read. *)
Definition served (w : Worker Env Action) (env : Env) (cmd : Cmd Action)
  : Worker Env Action :=
  {| w_env := env; w_out := []; w_cmds := w_cmds w ++ [cmd] |}.

(** The reply to a reset, read from the environment after the reset. *)
Definition reset_reply (env : Env) : Reply :=
  {| rp_state := get_state env; rp_avail_actions := get_avail_actions env;
     rp_obs := get_obs env; rp_reward := None; rp_terminated := None;
     rp_info := None |}.

(** Closed form of the effect on a worker that was reset. *)
Definition reset_effect (a : Args) (sl : Slot) (steps : Z) : Effect :=
  let env := env_reset (w_env (sl_conn sl)) in
  {| ef_slot := {| sl_conn := served (sl_conn sl) env CReset;
                   sl_terminated := false; sl_envs_step := 0;
                   sl_return := sl_return sl; sl_length := sl_length sl |};
     ef_entry := Some (reset_entry a (reset_reply env));
     ef_records := []; ef_steps := steps |}.

(** Closed form of the effect on a worker that was skipped. *)
Definition skip_effect (a : Args) (sl : Slot) : Effect :=
  {| ef_slot := {| sl_conn := sl_conn sl; sl_terminated := sl_terminated sl;
                   sl_envs_step := 0;
                   sl_return := sl_return sl; sl_length := sl_length sl |};
     ef_entry := Some (placeholder a); ef_records := []; ef_steps := 0 |}.

(** Closed form of the effect on a worker that was stepped with [action]
    and answered [(reward, data_terminated, info)] from environment [env];
    [info'] is the [info] handed to [get_terminated_env_info]. *)
Definition step_effect (eval : bool) (sl : Slot) (action : Action) (env : Env)
    (reward : Z) (data_terminated : bool) (info' : gmap string pyval)
    (individual_rewards : pyval) (env_terminated : bool) : Effect :=
  let len := sl_length sl + 1 in
  let ret := sl_return sl + reward in
  {| ef_slot := {| sl_conn := served (sl_conn sl) env (CStep action);
                   sl_terminated := env_terminated;
                   sl_envs_step := wrap32 (sl_envs_step sl + 1);
                   sl_return := if data_terminated then 0 else ret;
                   sl_length := if data_terminated then 0 else len |};
     ef_entry := Some {| en_state := get_state env;
                         en_avail_actions := get_avail_actions env;
                         en_obs := get_obs env; en_reward := reward;
                         en_individual_rewards :=
                           expand_dims_last individual_rewards;
                         en_terminated := env_terminated |};
     ef_records := if data_terminated
                   then [terminal_record eval len ret info'] else [];
     ef_steps := 1 |}.

(** What a step call on runner [r] does to the worker of slot [sl] at index
    [i], by the worker's flag.  A marked worker is reset (asynchronous mode,
    or synchronous mode when every worker is marked) or skipped; a live
    worker is stepped with its own action, and [info] reaches
    [get_terminated_env_info] with ["individual_rewards"] popped in
    synchronous mode only. *)
Definition worker_share (r : Runner) (actions : list Action) (i : nat)
    (sl : Slot) (eff : Effect) : Prop :=
  if sl_terminated sl : bool then
    eff = (if a_asynchronous_env (args r) then reset_effect (args r) sl 1
           else if np_all (terminated r) then reset_effect (args r) sl 0
           else skip_effect (args r) sl)
  else
    ∃ action env reward dt info ir et,
      actions !! i = Some action ∧
      env_step (w_env (sl_conn sl)) action = (env, (reward, dt, info)) ∧
      info !! "individual_rewards" = Some ir ∧
      env_terminated_of dt info = Some et ∧
      eff = step_effect (evaluate r) sl action env reward dt
              (if a_asynchronous_env (args r) then info
               else delete "individual_rewards" info) ir et.

(** *** Shapes

    The closing [np.array(v)] of each list of the batch builds an array of
    N equal-shaped entries when every entry has the shapes [args] gives:
    that is the case of the fake entry by construction, and of a worker's
    entry when its environment reports the shapes [update_args] copied from
    it. *)
Definition matrix_ok (n m : nat) (x : list (list Z)) : Prop :=
  length x = n ∧ Forall (λ row, length row = m) x.

Definition shaped (a : Args) (e : Entry) : Prop :=
  length (en_state e) = state_shape a ∧
  matrix_ok (n_agents a) (n_actions a) (en_avail_actions e) ∧
  matrix_ok (n_agents a) (obs_shape a) (en_obs e) ∧
  ∃ m, en_individual_rewards e = A2 m ∧ matrix_ok (n_agents a) 1 m.

Definition env_shaped (a : Args) (env : Env) : Prop :=
  length (get_state env) = state_shape a ∧
  matrix_ok (n_agents a) (n_actions a) (get_avail_actions env) ∧
  matrix_ok (n_agents a) (obs_shape a) (get_obs env).

(** Every environment the call reads from has the shapes of [args]: a
    marked worker's after a reset, a live worker's after its step, whose
    [info] then holds one individual reward per agent. *)
Definition shapes_ok (actions : list Action) (r : Runner) : Prop :=
  ∀ i w (t : bool), parent_conns r !! i = Some w → terminated r !! i = Some t →
    if t then env_shaped (args r) (env_reset (w_env w))
    else ∀ action, actions !! i = Some action →
      env_shaped (args r) (env_step (w_env w) action).1 ∧
      ∀ ir, (env_step (w_env w) action).2.2 !! "individual_rewards" = Some ir →
        ∃ v, ir = VArr v ∧ length v = n_agents (args r).

End Runner.

Arguments Runner : clear implicits.
Arguments Frame : clear implicits.
Arguments Slot : clear implicits.
Arguments Effect : clear implicits.

(** * A scripted environment

    A simulation that replays prepared step results, to run the model on
    concrete batches.  Once its script is exhausted it pays the action as
    reward and never terminates. *)

Definition Script := list (Z * bool * gmap string pyval).

Definition plain_info (x : Z) : gmap string pyval :=
  {[ "individual_rewards" := VArr [x; x] ]}.

Definition limit_info (x : Z) : gmap string pyval :=
  <["episode_limit" := VNum 1]> (plain_info x).

#[global] Instance scripted : Environment Script Z := {|
  env_fn seed := [(seed, false, plain_info seed)];
  env_step e a :=
    match e with
    | [] => ([], (a, false, plain_info a))
    | x :: e' => (e', x)
    end;
  env_reset e := [];
  get_state e := [Z.of_nat (length e)];
  get_avail_actions e := [[1]];
  get_obs e := [[Z.of_nat (length e)]];
|}.

Definition demo_args (async : bool) : Args :=
  {| a_env_batch_size := 2; a_evaluate_batch_size := 1;
     a_asynchronous_env := async; a_seed := 7;
     n_agents := 2; n_actions := 3; state_shape := 4; obs_shape := 2 |}.

Definition idle (e : Script) : Worker Script Z :=
  {| w_env := e; w_out := []; w_cmds := [] |}.

(** Two workers in mid-batch: worker 0 is live and its next step ends the
    episode with reply [last]; worker 1 is marked terminated. *)
Definition demo_runner (async : bool) (last : Z * bool * gmap string pyval)
  : Runner Script Z :=
  {| args := demo_args async; evaluate := false; env_batch_size := 2;
     parent_conns := [idle [last]; idle []];
     env_total_step := 40;
     terminated := [false; true];
     envs_step := [3; 0];
     episode_returns := [10; 8];
     episode_lengths := [3; 2];
     live_env := Some 2%nat |}.

Definition limit_reply : Z * bool * gmap string pyval := (5, true, limit_info 5).

(** The batch above, bound to the synchronous and to the asynchronous
    algorithm, with worker 0 about to hit its episode limit. *)
Definition demo_sync : Runner Script Z := demo_runner false limit_reply.
Definition demo_async : Runner Script Z := demo_runner true limit_reply.

(** The same batch with worker 0 in mid-episode: its next step pays 4 and
    the episode goes on. *)
Definition demo_going : Runner Script Z := demo_runner false (4, false, plain_info 4).


(** A batch whose environments report the shapes of [args]: one agent, one
    action, states and observations of one number, and one individual
    reward. *)
Definition demo_shaped_args : Args :=
  {| a_env_batch_size := 2; a_evaluate_batch_size := 1;
     a_asynchronous_env := false; a_seed := 7;
     n_agents := 1; n_actions := 1; state_shape := 1; obs_shape := 1 |}.

Definition solo_info (x : Z) : gmap string pyval :=
  {[ "individual_rewards" := VArr [x] ]}.

Definition demo_shaped : Runner Script Z :=
  {| args := demo_shaped_args; evaluate := false; env_batch_size := 2;
     parent_conns := [idle [(5, false, solo_info 5)]; idle []];
     env_total_step := 40;
     terminated := [false; true];
     envs_step := [3; 0];
     episode_returns := [10; 8];
     episode_lengths := [3; 2];
     live_env := Some 2%nat |}.

(** An [info] that reuses a key of the counters. *)
Definition demo_env_info : gmap string pyval := {[ "episode_length" := VNum 5 ]}.

(** * The statements the code does not satisfy, as they are worded *)

(** "any response with terminated=true sets that worker's terminated flag to
    true, regardless of info.episodeLimit" (asynchronous mode). *)
Definition async_ignores_episode_limit : Prop :=
  ∀ (actions : list Z) (r : Runner Script Z) (f : Frame Script Z) (i : nat)
    (w : Worker Script Z) (action : Z) (env : Script) (reward : Z)
    (info : gmap string pyval),
    wf r → async_step actions r = Some f →
    terminated r !! i = Some false → parent_conns r !! i = Some w →
    actions !! i = Some action →
    env_step (w_env w) action = (env, (reward, true, info)) →
    terminated (self f) !! i = Some true.

(** "on any key present in both, the env-supplied value wins". *)
Definition env_info_wins : Prop :=
  ∀ (env_idx : nat) (env_info : gmap string pyval) (r : Runner Script Z)
    (record : gmap string pyval) (r' : Runner Script Z) (k : string) (v : pyval),
    evaluate r = false →
    get_terminated_env_info env_idx env_info r = Some (record, r') →
    k = "episode_length" ∨ k = "episode_return" →
    env_info !! k = Some v →
    record !! k = Some v.

(** "After any call to resetAll, terminated[i]==true for every worker i,
    every per-worker step counter is zero, and the live-worker counter
    equals zero." *)
Definition reset_all_zeroes_live_counter : Prop :=
  ∀ r : Runner Script Z,
    wf r →
    (∀ i, (i < env_batch_size r)%nat →
       terminated (reset_all_env r) !! i = Some true ∧
       envs_step (reset_all_env r) !! i = Some 0) ∧
    live_env (reset_all_env r) = Some 0%nat.


(** The conditions under which no access of a step call raises: every live
    worker has an action, and its reply carries ["individual_rewards"] and,
    when it says terminated, an ["episode_limit"] with a truth value (or
    none). *)
Definition reply_ok (reply : Z * bool * gmap string pyval) : Prop :=
  is_Some (reply.2 !! "individual_rewards") ∧
  (reply.1.2 = true →
   is_Some (truthy (dict_get reply.2 "episode_limit" (VNum 0)))).

Definition inputs_ok {Env Action : Type} `{!Environment Env Action}
    (actions : list Action) (r : Runner Env Action) : Prop :=
  ∀ i w, parent_conns r !! i = Some w → terminated r !! i = Some false →
    ∃ action, actions !! i = Some action ∧
              reply_ok (env_step (w_env w) action).2.

(** The two counters as the record's first entries, and the value a key gets
    from the counters' entry and the environment's entry. *)
Definition tracker_get (len ret : Z) (k : string) : option Z :=
  if decide (k = "episode_return") then Some ret
  else if decide (k = "episode_length") then Some len
  else None.

Definition merged_value (t : option Z) (e : option pyval) : option pyval :=
  match t, e with
  | None, None => None
  | Some x, None => Some (VNum x)
  | None, Some v => Some v
  | Some x, Some v => Some (radd x v)
  end.

(** * Sequences of calls *)

Section Calls.
Context {Env Action : Type} `{!Environment Env Action}.

(** A caller that makes one [step] call per batch of actions, in order, and
    stops at the first call that raises. *)
Fixpoint run (batches : list (list Action)) (r : Runner Env Action)
  : option (Runner Env Action) :=
  match batches with
  | [] => Some r
  | actions :: rest => f ← step actions r; run rest (self f)
  end.

(** Runner [r'] is reached from [r] by synchronous calls that all step, none
    of them being a full reset. *)
Inductive sync_stepping : Runner Env Action → Runner Env Action → Prop :=
  | sync_stepping_refl r : sync_stepping r r
  | sync_stepping_call r actions f r' :
      np_all (terminated r) = false →
      sync_step actions r = Some f →
      sync_stepping (self f) r' →
      sync_stepping r r'.

(** An environment stepped through a sequence of actions: where it ends,
    the rewards it pays, and whether none of its answers says terminated. *)
Fixpoint env_after (e : Env) (acts : list Action) : Env :=
  match acts with
  | [] => e
  | a :: rest => env_after (env_step e a).1 rest
  end.

Fixpoint env_rewards (e : Env) (acts : list Action) : list Z :=
  match acts with
  | [] => []
  | a :: rest => (env_step e a).2.1.1 :: env_rewards (env_step e a).1 rest
  end.

Fixpoint env_goes_on (e : Env) (acts : list Action) : bool :=
  match acts with
  | [] => true
  | a :: rest => negb (env_step e a).2.1.2 && env_goes_on (env_step e a).1 rest
  end.

(** The worker built by [_init_env] for a seed. *)
Definition fresh_worker (seed : Z) : Worker Env Action :=
  {| w_env := env_fn seed; w_out := []; w_cmds := [] |}.

End Calls.

(** [ret += reward] for each reward, in the order the rewards are paid. *)
Definition accumulate (ret : Z) (rewards : list Z) : Z := foldl Z.add ret rewards.

(** * The configuration: [configs/config_utils.py]

    Conventions of the embedding.
    - A value read from YAML or written by the command line is a [cfg]: a
      scalar, a list, or a dict.  A dict is the list of its items in
      insertion order, as Python keeps them; keys are strings.  A Python dict
      holds a key once: [unique_keys] says so of a [cfg], and is assumed of
      what the YAML loader returns.
    - [isinstance(v, collections.Mapping)] is read as "[v] is a dict", as it
      evaluates on the Python versions that still have the alias (up to
      3.9).
    - The functions update their first argument in place and return it; the
      model returns the updated value.  The update [u] shares no dict with
      [d], as is the case for two files loaded separately.
    - [None] is a raised exception. *)

Inductive atom := ANone | ABool (b : bool) | ANum (z : Z) | AStr (s : string).

#[warnings="-register-all"] Inductive cfg :=
  | CVal (a : atom)
  | CList (l : list cfg)
  | CDict (items : list (string * cfg)).

(** [d.get(k)] and [d[k] = v] on the items of a dict: an assignment to a
    key the dict holds keeps the key's place, a new key goes last. *)
Fixpoint items_get {A} (items : list (string * A)) (k : string) : option A :=
  match items with
  | [] => None
  | (k', v) :: rest => if decide (k' = k) then Some v else items_get rest k
  end.

Fixpoint items_set {A} (items : list (string * A)) (k : string) (v : A)
  : list (string * A) :=
  match items with
  | [] => [(k, v)]
  | (k', v') :: rest =>
      if decide (k' = k) then (k', v) :: rest else (k', v') :: items_set rest k v
  end.

(** [recursive_dict_update(d, u)].  [u.items()] raises unless [u] is a dict;
    the loop body reads or assigns [d] by key, which raises unless [d] is a
    dict; with no item to loop over [d] is returned as it is, dict or not. *)
Fixpoint recursive_dict_update (d u : cfg) {struct u} : option cfg :=
  match u with
  | CDict us =>
      (fix loop (d : cfg) (us : list (string * cfg)) {struct us} : option cfg :=
         match us with
         | [] => Some d
         | (k, v) :: rest =>
             match d with
             | CDict ds =>
                 new ← match v with
                       | CDict _ =>
                           recursive_dict_update
                             (default (CDict []) (items_get ds k)) v
                       | _ => Some v
                       end;
                 loop (CDict (items_set ds k new)) rest
             | _ => None
             end
         end) d us
  | _ => None
  end.

(** What one item [(k, v)] of the update leaves under [k], given what [d]
    held there. *)
Definition merge_value (old : option cfg) (v : cfg) : option cfg :=
  match v with
  | CDict _ => recursive_dict_update (default (CDict []) old) v
  | _ => Some v
  end.

Definition is_dict (c : cfg) : bool :=
  match c with CDict _ => true | _ => false end.

(** The updates [recursive_dict_update] accepts for [d], decided without
    building the result. *)
Fixpoint mergeable (d u : cfg) {struct u} : bool :=
  match u with
  | CDict us =>
      match us with
      | [] => true
      | _ :: _ =>
          match d with
          | CDict ds =>
              forallb (λ kv, match kv.2 with
                             | CDict _ =>
                                 mergeable (default (CDict []) (items_get ds kv.1))
                                   kv.2
                             | _ => true
                             end) us
          | _ => false
          end
      end
  | _ => false
  end.

(** No dict inside [c], at any depth under dicts, holds a key twice. *)
Fixpoint unique_keys (c : cfg) : bool :=
  match c with
  | CDict items =>
      bool_decide (NoDup items.*1) && forallb (λ kv, unique_keys kv.2) items
  | _ => true
  end.

(** [c[k1][k2]...] for a path of keys. *)
Fixpoint path_get (c : cfg) (path : list string) : option cfg :=
  match path with
  | [] => Some c
  | k :: rest =>
      match c with
      | CDict items => v ← items_get items k; path_get v rest
      | _ => None
      end
  end.

(** [config_copy]: a dict and a list are rebuilt from copies of what they
    hold, anything else goes through [copy.deepcopy]. *)
Fixpoint config_copy (config : cfg) : cfg :=
  match config with
  | CDict items =>
      CDict (map (λ kv, let '(k, v) := kv in (k, config_copy v)) items)
  | CList l => CList (map config_copy l)
  | CVal a => CVal a
  end.

(** The namespace [parser.parse_args()] returns. *)
Record CliArgs := {
  cli_seed : Z;
  cli_alg : string;
  cli_env_type : string;
  cli_map_name : string;
  cli_train_device : string;
  cli_env_batch_size : Z;
  cli_async_train : bool;
  cli_num_sample_worker : Z;
  cli_local : bool;
  cli_role : string;
  cli_sampler_id : Z;
}.

(** [c[k] = v] and [c[k]]: both raise unless [c] is a dict, and the second
    raises on a missing key. *)
Definition set_item (c : cfg) (k : string) (v : cfg) : option cfg :=
  match c with
  | CDict items => Some (CDict (items_set items k v))
  | _ => None
  end.

Definition get_item (c : cfg) (k : string) : option cfg :=
  match c with
  | CDict items => items_get items k
  | _ => None
  end.

(** Scalars as configuration values. *)
Definition cfg_int (z : Z) : cfg := CVal (ANum z).
Definition cfg_str (s : string) : cfg := CVal (AStr s).
Definition cfg_bool (b : bool) : cfg := CVal (ABool b).

(** [get_input_args], from the namespace [parser.parse_args()] returned. *)
Definition get_input_args (configs : cfg) (args : CliArgs) : option cfg :=
  configs ← set_item configs "seed" (cfg_int (cli_seed args));
  configs ← set_item configs "algorithm" (cfg_str (cli_alg args));
  configs ← set_item configs "env_type" (cfg_str (cli_env_type args));
  configs ← set_item configs "map_name" (cfg_str (cli_map_name args));
  configs ← set_item configs "train_device" (cfg_str (cli_train_device args));
  configs ← set_item configs "env_batch_size" (cfg_int (cli_env_batch_size args));
  configs ← set_item configs "role" (cfg_str (cli_role args));
  configs ← set_item configs "async_train" (cfg_bool (cli_async_train args));
  configs ← set_item configs "num_sample_worker"
              (cfg_int (cli_num_sample_worker args));
  configs ← set_item configs "local" (cfg_bool (cli_local args));
  set_item configs "sampler_id" (cfg_int (cli_sampler_id args)).

(** The value [get_input_args] writes under a key, if it writes one. *)
Definition cli_value (args : CliArgs) (k : string) : option cfg :=
  items_get
    [("seed", cfg_int (cli_seed args));
     ("algorithm", cfg_str (cli_alg args));
     ("env_type", cfg_str (cli_env_type args));
     ("map_name", cfg_str (cli_map_name args));
     ("train_device", cfg_str (cli_train_device args));
     ("env_batch_size", cfg_int (cli_env_batch_size args));
     ("role", cfg_str (cli_role args));
     ("async_train", cfg_bool (cli_async_train args));
     ("num_sample_worker", cfg_int (cli_num_sample_worker args));
     ("local", cfg_bool (cli_local args));
     ("sampler_id", cfg_int (cli_sampler_id args))] k.

(** [env_config["env_args"][k] = v]. *)
Definition patch_env_args (env_config : cfg) (k : string) (v : cfg) : option cfg :=
  env_args ← get_item env_config "env_args";
  env_args ← set_item env_args k v;
  set_item env_config "env_args" env_args.

(** [x == s] for a string [s]. *)
Definition eq_str (x : cfg) (s : string) : bool :=
  match x with
  | CVal (AStr s') => bool_decide (s' = s)
  | _ => false
  end.

(** [get_all_config] up to the merged dict it turns into a namespace
    (lines 100 to 118).  [yaml_default] is what [get_config_yaml] returns for
    [default.yaml]; [alg_yaml x] and [env_yaml x] are what it returns for the
    file named after [x] under [alg_configs] and [env_configs]; [None] is a
    file that cannot be opened or parsed. *)
Definition merged_configs (yaml_default : option cfg)
    (alg_yaml env_yaml : cfg → option cfg) (args : CliArgs) : option cfg :=
  configs ← yaml_default;
  configs ← get_input_args configs args;
  alg ← get_item configs "algorithm";
  alg_config ← alg_yaml alg;
  configs ← recursive_dict_update configs alg_config;
  env_type ← get_item configs "env_type";
  env_config ← env_yaml env_type;
  env_config ←
    (if eq_str env_type "replenishment" then
       map_name ← get_item configs "map_name";
       patch_env_args env_config "task_type" map_name
     else Some env_config);
  map_name ← get_item configs "map_name";
  env_config ← patch_env_args env_config "map_name" map_name;
  seed ← get_item configs "seed";
  env_config ← patch_env_args env_config "seed" seed;
  recursive_dict_update configs env_config.

(** One layer of configuration put over another: the upper value replaces
    the lower one, or is merged into it when the upper value is a dict. *)
Definition layered (lower upper : option cfg) : option cfg :=
  match upper with
  | Some v => merge_value lower v
  | None => lower
  end.

(** The [env_args] the environment file ends up with: the map name (also as
    task type for a replenishment environment) and the seed written over
    what the file says. *)
Definition patched_env_args (ea : list (string * cfg)) (env_type map_name seed : cfg)
  : list (string * cfg) :=
  let ea := if eq_str env_type "replenishment"
            then items_set ea "task_type" map_name else ea in
  items_set (items_set ea "map_name" map_name) "seed" seed.

(** What the configuration holds under a key once the command line is
    written over [default.yaml]. *)
Definition cli_or_default (args : CliArgs) (dflt : list (string * cfg))
    (k : string) : option cfg :=
  match cli_value args k with
  | Some v => Some v
  | None => items_get dflt k
  end.

(** ** [update_args] and the scheme of an environment

    The namespace [SimpleNamespace] is built from the dict's items and is
    modelled as the list of its
    attributes, in the order of the dict's items; reading an attribute that
    is not there raises.  A tuple is a list of its entries and a NumPy dtype
    is its name. *)

(** [SN] applied to the items of [configs] as keywords. *)
Definition SN (configs : cfg) : option (list (string * cfg)) :=
  match configs with
  | CDict items => Some items
  | _ => None
  end.

(** Truth value of a value, as [if args.local] computes it. *)
Definition cfg_truthy (c : cfg) : bool :=
  match c with
  | CVal ANone => false
  | CVal (ABool b) => b
  | CVal (ANum z) => negb (z =? 0)
  | CVal (AStr s) => negb (bool_decide (s = ""))
  | CList l => negb (bool_decide (l = []))
  | CDict items => negb (bool_decide (items.*1 = []))
  end.

(** [x + 1]: a number, a boolean read as 0 or 1, and an exception on
    anything else. *)
Definition cfg_succ (c : cfg) : option cfg :=
  match c with
  | CVal (ANum z) => Some (CVal (ANum (z + 1)))
  | CVal (ABool b) => Some (CVal (ANum (Z.b2z b + 1)))
  | _ => None
  end.

(** [SMAC.get_scheme], from what [StarCraft2Env.get_env_info] returns. *)
Definition get_scheme (env_info : cfg) : option (cfg * cfg) :=
  state_shape ← get_item env_info "state_shape";
  obs_shape ← get_item env_info "obs_shape";
  n_actions ← get_item env_info "n_actions";
  n_agents ← get_item env_info "n_agents";
  Some
    (CDict
       [("state", CDict [("vshape", state_shape); ("dtype", cfg_str "float32")]);
        ("obs", CDict [("vshape", obs_shape); ("dtype", cfg_str "float32");
                       ("group", cfg_str "agents")]);
        ("actions", CDict [("vshape", CList [cfg_int 1]);
                           ("dtype", cfg_str "int64");
                           ("group", cfg_str "agents")]);
        ("avail_actions", CDict [("vshape", CList [n_actions]);
                                 ("dtype", cfg_str "int32");
                                 ("group", cfg_str "agents")]);
        ("reward", CDict [("vshape", CList [cfg_int 1]);
                          ("dtype", cfg_str "float64")]);
        ("terminated", CDict [("vshape", CList [cfg_int 1]);
                              ("dtype", cfg_str "int32")])],
     CDict [("agents", n_agents)]).

(** What [update_args] asks of the environment it builds: the results of
    [get_env_info()] and of [get_scheme()]. *)
Record EnvObject := {
  eo_env_info : option cfg;
  eo_scheme : option (cfg * cfg);
}.

(** An [SMAC] environment whose [get_env_info()] returns [env_info]. *)
Definition SMAC (env_info : cfg) : EnvObject :=
  {| eo_env_info := Some env_info; eo_scheme := get_scheme env_info |}.

(** A run of attribute assignments [args.k = v], in order. *)
Definition set_all (ns : list (string * cfg)) (assignments : list (string * cfg))
  : list (string * cfg) :=
  foldl (λ acc kv, items_set acc kv.1 kv.2) ns assignments.

Definition localhost : cfg := cfg_str "127.0.0.1".

Section UpdateArgs.
(** [env_REGISTRY[args.env]] called with [args.env_args] as keywords, the
    text of
    [datetime.datetime.now()], and the text an f-string puts for a value. *)
Variable env_REGISTRY : cfg → cfg → option EnvObject.
Variable now : string.
Variable format : cfg → string.

Definition update_args (args : list (string * cfg))
  : option (list (string * cfg)) :=
  env_name ← items_get args "env";
  env_args ← items_get args "env_args";
  env ← env_REGISTRY env_name env_args;
  env_info ← eo_env_info env;
  v ← get_item env_info "n_agents";
  let args := items_set args "n_agents" v in
  v ← get_item env_info "n_actions";
  let args := items_set args "n_actions" v in
  v ← get_item env_info "state_shape";
  let args := items_set args "state_shape" v in
  v ← get_item env_info "obs_shape";
  let args := items_set args "obs_shape" v in
  v ← get_item env_info "episode_limit";
  let args := items_set args "episode_limit" v in
  v ← get_item env_info "episode_limit";
  v ← cfg_succ v;
  let args := items_set args "episode_length" v in
  sg ← eo_scheme env;
  let args := items_set args "scheme" sg.1 in
  let args := items_set args "groups" sg.2 in
  local ← items_get args "local";
  args ←
    (if cfg_truthy local then Some (items_set args "address" localhost)
     else
       role ← items_get args "role";
       let args := if eq_str role "train"
                   then items_set args "address" localhost else args in
       role ← items_get args "role";
       Some (if eq_str role "sample"
             then items_set args "address" localhost else args));
  seed ← items_get args "seed";
  Some (items_set args "unique_token"
          (cfg_str ("seed" +:+ format seed +:+ "_" +:+ now))).

(** [get_all_config], with the files and the command line as in
    [merged_configs]. *)
Definition get_all_config (yaml_default : option cfg)
    (alg_yaml env_yaml : cfg → option cfg) (cli : CliArgs)
  : option (list (string * cfg)) :=
  configs ← merged_configs yaml_default alg_yaml env_yaml cli;
  args ← SN configs;
  update_args args.

End UpdateArgs.

(** The attributes [update_args] may assign. *)
Definition assigned_by_update_args : list string :=
  ["n_agents"; "n_actions"; "state_shape"; "obs_shape"; "episode_limit";
   "episode_length"; "scheme"; "groups"; "address"; "unique_token"].

(** The attributes it copies from [env_info]. *)
Definition copied_from_env_info : list string :=
  ["n_agents"; "n_actions"; "state_shape"; "obs_shape"; "episode_limit"].

(** ** From the namespace to the runner

    The fields the runner reads off [args]: the two batch sizes, the mode,
    the seed inside [env_args] and the four shapes.  [runner_args] gives
    them for a namespace that holds numbers there.  A batch size or a shape
    is a count: NumPy refuses a negative one. *)

Definition cfg_num (c : cfg) : option Z :=
  match c with
  | CVal (ANum z) => Some z
  | _ => None
  end.

Definition cfg_count (c : cfg) : option nat :=
  z ← cfg_num c; if decide (0 ≤ z) then Some (Z.to_nat z) else None.

Definition runner_args (ns : list (string * cfg)) : option Args :=
  env_batch_size ← items_get ns "env_batch_size" ≫= cfg_count;
  evaluate_batch_size ← items_get ns "evaluate_batch_size" ≫= cfg_count;
  asynchronous_env ← items_get ns "asynchronous_env";
  env_args ← items_get ns "env_args";
  seed ← get_item env_args "seed" ≫= cfg_num;
  agents ← items_get ns "n_agents" ≫= cfg_count;
  actions ← items_get ns "n_actions" ≫= cfg_count;
  state ← items_get ns "state_shape" ≫= cfg_count;
  obs ← items_get ns "obs_shape" ≫= cfg_count;
  Some {| a_env_batch_size := env_batch_size;
          a_evaluate_batch_size := evaluate_batch_size;
          a_asynchronous_env := cfg_truthy asynchronous_env;
          a_seed := seed;
          n_agents := agents; n_actions := actions;
          state_shape := state; obs_shape := obs |}.

(** ** Configuration files to run the model on *)

Definition demo_default_items : list (string * cfg) :=
  [("seed", cfg_int 0); ("lr", cfg_int 5); ("gamma", cfg_int 99);
   ("model", CDict [("hidden", cfg_int 32); ("layers", cfg_int 2)])].

Definition demo_alg_items : list (string * cfg) :=
  [("lr", cfg_int 3); ("map_name", cfg_str "sku200");
   ("model", CDict [("hidden", cfg_int 64)]); ("clip", cfg_int 1)].

Definition demo_env_items : list (string * cfg) :=
  [("env", cfg_str "replenishment"); ("gamma", cfg_int 95);
   ("env_args", CDict [("seed", cfg_int 42); ("n_agents", cfg_int 2)])].

(** The command line with every option at its default. *)
Definition demo_cli : CliArgs :=
  {| cli_seed := 1; cli_alg := "ippo"; cli_env_type := "replenishment";
     cli_map_name := "sku1000.single_store.standard";
     cli_train_device := "cuda:6"; cli_env_batch_size := 8;
     cli_async_train := true; cli_num_sample_worker := 1; cli_local := true;
     cli_role := "train"; cli_sampler_id := 0 |}.

(** A configuration directory holding [alg_configs/ippo.yaml] and
    [env_configs/replenishment.yaml] only. *)
Definition demo_alg_yaml (x : cfg) : option cfg :=
  if eq_str x "ippo" then Some (CDict demo_alg_items) else None.

Definition demo_env_yaml (x : cfg) : option cfg :=
  if eq_str x "replenishment" then Some (CDict demo_env_items) else None.

Definition demo_merged : option cfg :=
  merged_configs (Some (CDict demo_default_items)) demo_alg_yaml demo_env_yaml
    demo_cli.


(** A [default.yaml] with the keys the runner needs, and a registry whose
    one environment reports the shapes below and builds its scheme as
    [SMAC] does. *)
Definition demo_runner_default : list (string * cfg) :=
  [("evaluate_batch_size", cfg_int 1); ("asynchronous_env", cfg_bool false);
   ("n_agents", cfg_int 50); ("gamma", cfg_int 99)].

Definition demo_smac_info : cfg :=
  CDict [("n_agents", cfg_int 2); ("n_actions", cfg_int 3);
         ("state_shape", cfg_int 4); ("obs_shape", cfg_int 2);
         ("episode_limit", cfg_int 10)].

Definition demo_registry (env_name env_args : cfg) : option EnvObject :=
  if eq_str env_name "replenishment" then Some (SMAC demo_smac_info) else None.

Definition demo_format (c : cfg) : string :=
  match c with
  | CVal (ANum 1) => "1"
  | _ => "?"
  end.

Definition demo_namespace : option (list (string * cfg)) :=
  get_all_config demo_registry "2024-01-01" demo_format
    (Some (CDict demo_runner_default)) demo_alg_yaml demo_env_yaml demo_cli.

(** The namespace [update_args] is run on in the examples, and the same
    for a remote evaluator. *)
Definition demo_merged_items : list (string * cfg) :=
  default [] (demo_merged ≫= SN).

Definition demo_remote_items : list (string * cfg) :=
  items_set (items_set demo_merged_items "local" (cfg_bool false))
    "role" (cfg_str "evaluate").

(** Closes [wf] goals on the concrete runners above. *)
Ltac solve_wf := repeat split; repeat constructor.

(** A key is none of a list of given keys. *)
Ltac not_a_key := apply (bool_decide_unpack _); vm_compute; exact I.

(** The keys of the address assignments. *)
Ltac addr_keys :=
  intros ? Hin; simpl in Hin; first [exact Hin | by apply elem_of_nil in Hin].

(** * Proofs *)

Section ForEach.
Context {St : Type}.
Implicit Types (body : nat → St → option St) (s : St).

Lemma for_each_app body l1 l2 s :
  for_each body (l1 ++ l2) s = for_each body l1 s ≫= for_each body l2.
Proof.
  revert s. induction l1 as [|i l1 IH]; intros s; simpl; [done|].
  destruct (body i s); simpl; auto.
Qed.

Lemma for_each_seq_S body n s :
  for_each body (seq 0 (S n)) s = for_each body (seq 0 n) s ≫= body n.
Proof.
  rewrite seq_S, for_each_app. simpl.
  destruct (for_each body (seq 0 n) s) as [s1|]; simpl; [|done].
  by destruct (body n s1).
Qed.

(** A loop over [0 .. n-1] establishes what each iteration preserves. *)
Lemma for_each_seq_inv (I : nat → St → Prop) body n s0 s :
  I 0%nat s0 →
  (∀ k s1 s2, (k < n)%nat → I k s1 → body k s1 = Some s2 → I (S k) s2) →
  for_each body (seq 0 n) s0 = Some s → I n s.
Proof.
  intros H0. revert s. induction n as [|n IH]; intros s Hstep Hrun.
  - simpl in Hrun. by simplify_eq.
  - rewrite for_each_seq_S in Hrun.
    destruct (for_each body (seq 0 n) s0) as [s1|] eqn:E; simpl in Hrun; [|done].
    apply (Hstep n s1 s); [lia| |done].
    apply IH; [|done]. intros k ? ? ? ? ?. apply (Hstep k s2); [lia|done..].
Qed.

(** ... and returns when no iteration raises. *)
Lemma for_each_seq_total (I : nat → St → Prop) body n s0 :
  I 0%nat s0 →
  (∀ k s1 s2, (k < n)%nat → I k s1 → body k s1 = Some s2 → I (S k) s2) →
  (∀ k s1, (k < n)%nat → I k s1 → is_Some (body k s1)) →
  is_Some (for_each body (seq 0 n) s0).
Proof.
  intros H0. induction n as [|n IH]; intros Hstep Hsome; [by eexists|].
  rewrite for_each_seq_S.
  destruct IH as [s1 E].
  - intros k ? ? ? ? ?. apply (Hstep k s1); [lia|done..].
  - intros k ? ? ?. apply Hsome; [lia|done].
  - rewrite E. simpl. apply Hsome; [lia|].
    eapply (for_each_seq_inv I body n s0 s1); [done| |done].
    intros k ? ? ? ? ?. apply (Hstep k s2); [lia|done..].
Qed.

(** Two bodies that agree wherever an invariant holds run the same loop. *)
Lemma for_each_ext (I : St → Prop) body1 body2 l s :
  I s →
  (∀ k s1, k ∈ l → I s1 → body1 k s1 = body2 k s1) →
  (∀ k s1 s2, k ∈ l → I s1 → body2 k s1 = Some s2 → I s2) →
  for_each body1 l s = for_each body2 l s.
Proof.
  revert s. induction l as [|i l IH]; intros s Hs Heq Hpres; [done|].
  simpl. rewrite Heq; [|left|done].
  destruct (body2 i s) as [s1|] eqn:E; simpl; [|done].
  apply IH.
  - eapply Hpres; [left|done..].
  - intros. apply Heq; [by right|done].
  - intros k ? ? ?. apply Hpres. by right.
Qed.

End ForEach.

Section SlotLemmas.
Context {Env Action : Type} `{!Environment Env Action}.
Implicit Types (r : Runner Env Action) (f : Frame Env Action).
Implicit Types (sl : Slot Env Action) (eff : Effect Env Action).

Lemma slot_Some r i sl :
  slot r i = Some sl ↔
  parent_conns r !! i = Some (sl_conn sl) ∧
  terminated r !! i = Some (sl_terminated sl) ∧
  envs_step r !! i = Some (sl_envs_step sl) ∧
  episode_returns r !! i = Some (sl_return sl) ∧
  episode_lengths r !! i = Some (sl_length sl).
Proof.
  unfold slot.
  destruct (parent_conns r !! i), (terminated r !! i), (envs_step r !! i),
    (episode_returns r !! i), (episode_lengths r !! i); simpl;
    (split; [intros ?; simplify_eq; done | intros (?&?&?&?&?); simplify_eq]).
  by destruct sl.
Qed.

Lemma slot_is_Some n r i : sized n r → (i < n)%nat → is_Some (slot r i).
Proof.
  intros (H1&H2&H3&H4&H5) Hi. unfold slot.
  destruct (lookup_lt_is_Some_2 (parent_conns r) i) as [? ->]; [lia|].
  destruct (lookup_lt_is_Some_2 (terminated r) i) as [? ->]; [lia|].
  destruct (lookup_lt_is_Some_2 (envs_step r) i) as [? ->]; [lia|].
  destruct (lookup_lt_is_Some_2 (episode_returns r) i) as [? ->]; [lia|].
  destruct (lookup_lt_is_Some_2 (episode_lengths r) i) as [? ->]; [lia|].
  by eexists.
Qed.

Lemma slot_lt n r i sl : sized n r → slot r i = Some sl → (i < n)%nat.
Proof.
  intros (H1&_) [Hc _]%slot_Some. apply lookup_lt_Some in Hc. lia.
Qed.

Lemma sized_put n i sl r : sized n r → sized n (put_slot i sl r).
Proof.
  intros (?&?&?&?&?). unfold sized, put_slot; simpl.
  by rewrite !length_insert.
Qed.

Lemma slot_put_eq n i sl r :
  sized n r → (i < n)%nat → slot (put_slot i sl r) i = Some sl.
Proof.
  intros (?&?&?&?&?) Hi. apply slot_Some. unfold put_slot; simpl.
  repeat split; apply list_lookup_insert_eq; lia.
Qed.

Lemma slot_put_ne i j sl r : i ≠ j → slot (put_slot i sl r) j = slot r j.
Proof.
  intros Hne. unfold slot, put_slot; simpl.
  by rewrite !list_lookup_insert_ne.
Qed.

Lemma slot_set_env_total_step v r i : slot (set_env_total_step v r) i = slot r i.
Proof. done. Qed.

Lemma total_steps_snoc effs eff :
  total_steps (effs ++ [eff]) = total_steps effs + ef_steps eff.
Proof.
  unfold total_steps.
  induction effs as [|e effs IH]; simpl; [lia|]. rewrite IH. lia.
Qed.

Lemma sd_extend_snoc sd es e : sd_extend sd (es ++ [e]) = sd_push (sd_extend sd es) e.
Proof. unfold sd_extend. by rewrite foldl_app. Qed.

(** One iteration of a slot-wise loop extends the invariant. *)
Lemma on_slot_step g n f0 effs k f f' :
  (k < n)%nat → loop_inv g n f0 effs k f → on_slot g k f = Some f' →
  ∃ eff, loop_inv g n f0 (effs ++ [eff]) (S k) f'.
Proof.
  intros Hk (Hsz & Hcfg & Hlen & Hdone & Hrest & Hsd & Hinfo & Htot) Hrun.
  unfold on_slot in Hrun.
  destruct (slot (self f) k) as [sl|] eqn:Esl; simpl in Hrun; [|done].
  destruct (g k sl) as [eff|] eqn:Eg; simpl in Hrun; [|done].
  simplify_eq. exists eff.
  split_and!.
  - simpl. apply sized_put, Hsz.
  - apply Hcfg.
  - rewrite length_app; simpl; lia.
  - intros i eff' Hi.
    destruct (decide (i = length effs)) as [->|Hne].
    + rewrite lookup_app_r, Nat.sub_diag in Hi by lia. simpl in Hi. simplify_eq.
      exists sl. split; [by rewrite <- Hrest by lia|]. split; [done|].
      simpl. eapply slot_put_eq; done.
    + assert (i < length effs)%nat as Hlt.
      { apply lookup_lt_Some in Hi. rewrite length_app in Hi; simpl in Hi. lia. }
      rewrite lookup_app_l in Hi by done.
      destruct (Hdone i eff' Hi) as (sl0 & ? & ? & ?).
      exists sl0. split; [done|]. split; [done|].
      simpl. rewrite slot_set_env_total_step, slot_put_ne by lia. done.
  - intros i Hi. simpl.
    rewrite slot_set_env_total_step, slot_put_ne by lia. apply Hrest. lia.
  - simpl. rewrite omap_app, Hsd. simpl.
    destruct (ef_entry eff); simpl; [by rewrite sd_extend_snoc | by rewrite app_nil_r].
  - simpl. rewrite Hinfo, fmap_app, concat_app. simpl.
    by rewrite app_nil_r, app_assoc.
  - simpl. rewrite Htot, total_steps_snoc. lia.
Qed.

Lemma loop_inv_start g n f0 : sized n (self f0) → loop_inv g n f0 [] 0 f0.
Proof.
  intros Hsz. split_and!; try done; simpl.
  - by rewrite app_nil_r.
  - lia.
Qed.

(** A slot-wise loop over all workers: every slot has had its effect. *)
Lemma on_slot_loop g n f0 f :
  sized n (self f0) →
  for_each (on_slot g) (seq 0 n) f0 = Some f →
  ∃ effs, loop_inv g n f0 effs n f.
Proof.
  intros Hsz Hrun.
  apply (for_each_seq_inv (λ k f, ∃ effs, loop_inv g n f0 effs k f)
           (on_slot g) n f0 f); [| |done].
  - exists []. by apply loop_inv_start.
  - intros k f1 f2 Hk [effs Hinv] Hstep.
    destruct (on_slot_step g n f0 effs k f1 f2) as [eff ?]; eauto.
Qed.

Lemma on_slot_loop_total g n f0 :
  sized n (self f0) →
  (∀ i sl, slot (self f0) i = Some sl → is_Some (g i sl)) →
  is_Some (for_each (on_slot g) (seq 0 n) f0).
Proof.
  intros Hsz Hg.
  apply (for_each_seq_total (λ k f, ∃ effs, loop_inv g n f0 effs k f)).
  - exists []. by apply loop_inv_start.
  - intros k f1 f2 Hk [effs Hinv] Hstep.
    destruct (on_slot_step g n f0 effs k f1 f2) as [eff ?]; eauto.
  - intros k f1 Hk [effs (Hsz1 & _ & Hlen & _ & Hrest & _)].
    unfold on_slot.
    destruct (slot_is_Some n (self f0) k Hsz Hk) as [sl Hsl].
    rewrite Hrest, Hsl by lia. simpl.
    destruct (Hg k sl Hsl) as [eff ->]. by eexists.
Qed.

End SlotLemmas.

(** ** The loop bodies, slot by slot *)

Section Bodies.
Context {Env Action : Type} `{!Environment Env Action}.
Implicit Types (r : Runner Env Action) (f : Frame Env Action).
Implicit Types (sl : Slot Env Action) (eff : Effect Env Action).

Ltac open_slot H :=
  let Hc := fresh "Hc" in let Ht := fresh "Ht" in let Hn := fresh "Hn" in
  let Hr := fresh "Hr" in let Hl := fresh "Hl" in
  apply slot_Some in H as (Hc & Ht & Hn & Hr & Hl);
  pose proof (lookup_lt_Some _ _ _ Hr);
  pose proof (lookup_lt_Some _ _ _ Hl).

Ltac unfold_setters :=
  unfold commit, put_slot, with_self, sd_push, set_parent_conns,
    set_env_total_step, set_terminated, set_envs_step, set_episode_returns,
    set_episode_lengths in *; simpl in *.

Ltac same_frame :=
  unfold_setters; rewrite ?list_insert_insert_eq, ?app_nil_r, ?Z.add_0_r;
  repeat f_equal;
  try done; try (symmetry; by apply list_insert_id); try lia.

Lemma sync_send_on_slot actions k f sl :
  slot (self f) k = Some sl →
  sync_send actions k f = on_slot (λ i, sync_send_slot (actions !! i)) k f.
Proof.
  intros H. unfold on_slot. rewrite H. simpl. open_slot H.
  destruct f as [r sd infos], r, sl as [c t n ret len]; simpl in *.
  unfold sync_send, sync_send_slot; simpl. rewrite Ht; simpl.
  destruct t; simpl; [same_frame|].
  rewrite Hc; simpl. destruct (actions !! k); simpl; [|done].
  unfold set_parent_conns; simpl. rewrite Hn; simpl. same_frame.
Qed.

Lemma sync_reset_recv_on_slot k f sl :
  slot (self f) k = Some sl →
  sync_reset_recv k f = on_slot (λ _, sync_reset_recv_slot (args (self f))) k f.
Proof.
  intros H. unfold on_slot. rewrite H. simpl. open_slot H.
  destruct f as [r sd infos], r, sl as [c t n ret len]; simpl in *.
  unfold sync_reset_recv, sync_reset_recv_slot; simpl. rewrite Hc; simpl.
  destruct (recv c) as [[data conn]|]; simpl; [|done]. same_frame.
Qed.

Lemma sync_recv_on_slot k f sl :
  slot (self f) k = Some sl →
  sync_recv k f =
  on_slot (λ _, sync_recv_slot (args (self f)) (evaluate (self f))) k f.
Proof.
  intros H. unfold on_slot. rewrite H. simpl. open_slot H.
  destruct f as [r sd infos], r, sl as [c t n ret len]; simpl in *.
  unfold sync_recv, sync_recv_slot, live_recv_slot; simpl. rewrite Ht; simpl.
  destruct t; simpl; [same_frame|].
  rewrite Hc; simpl.
  destruct (recv c) as [[data conn]|]; simpl; [|done].
  destruct (rp_reward data) as [reward|]; simpl; [|done].
  destruct (rp_info data) as [info|]; simpl; [|done].
  destruct (info !! "individual_rewards") as [ir|]; simpl; [|done].
  unfold set_parent_conns; simpl. rewrite Hl; simpl.
  unfold set_episode_lengths; simpl. rewrite Hr; simpl.
  destruct (rp_terminated data) as [[]|]; simpl; [| |done].
  - unfold get_terminated_env_info, set_episode_returns; simpl.
    rewrite !list_lookup_insert_eq by done. simpl.
    destruct (truthy _); simpl; [|done]. same_frame.
  - same_frame.
Qed.

Lemma async_send_on_slot actions k f sl :
  slot (self f) k = Some sl →
  async_send actions k f = on_slot (λ i, async_send_slot (actions !! i)) k f.
Proof.
  intros H. unfold on_slot. rewrite H. simpl. open_slot H.
  destruct f as [r sd infos], r, sl as [c t n ret len]; simpl in *.
  unfold async_send, async_send_slot; simpl. rewrite Ht, Hc; simpl.
  destruct t; simpl; [same_frame|].
  destruct (actions !! k); simpl; [|done].
  unfold set_parent_conns; simpl. rewrite Hn; simpl. same_frame.
Qed.

Lemma async_recv_on_slot k f sl :
  slot (self f) k = Some sl →
  async_recv k f =
  on_slot (λ _, async_recv_slot (args (self f)) (evaluate (self f))) k f.
Proof.
  intros H. unfold on_slot. rewrite H. simpl. open_slot H.
  destruct f as [r sd infos], r, sl as [c t n ret len]; simpl in *.
  unfold async_recv, async_recv_slot, live_recv_slot; simpl. rewrite Hc; simpl.
  destruct (recv c) as [[data conn]|]; simpl; [|by destruct t].
  unfold set_parent_conns, set_env_total_step; simpl. rewrite Ht; simpl.
  destruct t; simpl; [same_frame|].
  destruct (rp_reward data) as [reward|]; simpl; [|done].
  destruct (rp_info data) as [info|]; simpl; [|done].
  destruct (info !! "individual_rewards") as [ir|]; simpl; [|done].
  rewrite Hl; simpl.
  unfold set_episode_lengths; simpl. rewrite Hr; simpl.
  destruct (rp_terminated data) as [[]|]; simpl; [| |done].
  - unfold get_terminated_env_info, set_episode_returns; simpl.
    rewrite !list_lookup_insert_eq by done. simpl.
    destruct (truthy _); simpl; [|done]. same_frame.
  - same_frame.
Qed.

End Bodies.

(** ** Whole loops *)

Section Loops.
Context {Env Action : Type} `{!Environment Env Action}.
Implicit Types (r : Runner Env Action) (f : Frame Env Action).
Implicit Types (sl : Slot Env Action) (eff : Effect Env Action).

Lemma sized_commit n i eff f : sized n (self f) → sized n (self (commit i eff f)).
Proof. intros. simpl. by apply sized_put. Qed.

(** A loop whose body acts slot-wise is a slot-wise loop. *)
Lemma loop_as_slots (body : nat → Frame Env Action → option (Frame Env Action))
    (G : Args → bool → nat → Slot Env Action → option (Effect Env Action)) n f0 :
  sized n (self f0) →
  (∀ k f sl, slot (self f) k = Some sl →
     body k f = on_slot (G (args (self f)) (evaluate (self f))) k f) →
  for_each body (seq 0 n) f0 =
  for_each (on_slot (G (args (self f0)) (evaluate (self f0)))) (seq 0 n) f0.
Proof.
  intros Hsz Hbody.
  apply (for_each_ext
           (λ f, sized n (self f) ∧ args (self f) = args (self f0) ∧
                 evaluate (self f) = evaluate (self f0))); [done| |].
  - intros k f Hk (Hs & Ha & He).
    apply elem_of_seq in Hk.
    destruct (slot_is_Some n (self f) k Hs) as [sl Hsl]; [lia|].
    rewrite (Hbody k f sl Hsl). by rewrite Ha, He.
  - intros k f f' _ (Hs & Ha & He) Hrun. unfold on_slot in Hrun.
    destruct (slot (self f) k) as [sl|]; simpl in Hrun; [|done].
    destruct (G _ _ k sl) as [eff|]; simpl in Hrun; [|done].
    simplify_eq. split; [by apply sized_commit|done].
Qed.

Lemma sd_extend_fields sd es :
  sd_state (sd_extend sd es) = sd_state sd ++ map en_state es ∧
  sd_avail_actions (sd_extend sd es) =
    sd_avail_actions sd ++ map en_avail_actions es ∧
  sd_obs (sd_extend sd es) = sd_obs sd ++ map en_obs es ∧
  sd_reward (sd_extend sd es) = sd_reward sd ++ map (λ e, [en_reward e]) es ∧
  sd_individual_rewards (sd_extend sd es) =
    sd_individual_rewards sd ++ map en_individual_rewards es ∧
  sd_terminated (sd_extend sd es) =
    sd_terminated sd ++ map (λ e, [en_terminated e]) es.
Proof.
  revert sd. induction es as [|e es IH]; intros sd; simpl.
  - by rewrite !app_nil_r.
  - destruct (IH (sd_push sd e)) as (->&->&->&->&->&->). simpl.
    by rewrite <- !app_assoc.
Qed.

Lemma sd_extend_sized es : sd_sized (length es) (sd_extend empty_step_data es).
Proof.
  unfold sd_sized.
  destruct (sd_extend_fields empty_step_data es) as (->&->&->&->&->&->).
  simpl. by rewrite !length_map.
Qed.

Lemma sd_extend_entry es i :
  entry (sd_extend empty_step_data es) i = es !! i.
Proof.
  unfold entry.
  destruct (sd_extend_fields empty_step_data es) as (->&->&->&->&->&->).
  simpl. rewrite !list_lookup_fmap.
  destruct (es !! i) as [[]|]; by simpl.
Qed.

Lemma omap_all_Some {A B} (h : A → option B) (l : list A) :
  (∀ x, x ∈ l → is_Some (h x)) →
  length (omap h l) = length l ∧ ∀ i, omap h l !! i = l !! i ≫= h.
Proof.
  induction l as [|x l IH]; intros Hall; [done|].
  destruct (Hall x) as [y Hy]; [left|].
  destruct IH as [IH1 IH2]; [intros; apply Hall; by right|].
  simpl. rewrite Hy. simpl. split; [by f_equal|].
  intros [|i]; simpl; [by rewrite Hy|apply IH2].
Qed.

Lemma omap_all_None {A B} (h : A → option B) (l : list A) :
  (∀ x, x ∈ l → h x = None) → omap h l = [].
Proof.
  induction l as [|x l IH]; intros Hall; [done|].
  simpl. rewrite (Hall x) by left. apply IH. intros; apply Hall; by right.
Qed.

Lemma concat_all_nil {A B} (h : A → list B) (l : list A) :
  (∀ x, x ∈ l → h x = []) → concat (h <$> l) = [].
Proof.
  induction l as [|x l IH]; intros Hall; [done|].
  simpl. rewrite (Hall x) by left. apply IH. intros; apply Hall; by right.
Qed.

Lemma elem_of_concat_2 {A} (x : A) (l : list A) (ls : list (list A)) :
  x ∈ l → l ∈ ls → x ∈ concat ls.
Proof.
  intros Hx Hl. induction Hl; simpl; rewrite elem_of_app; auto.
Qed.

(** What a finished loop says about effects already in the list. *)
Lemma loop_inv_elem g n f0 effs k f eff :
  loop_inv g n f0 effs k f → eff ∈ effs → ∃ i sl, g i sl = Some eff.
Proof.
  intros (_&_&_&Hdone&_) [i Hi]%list_elem_of_lookup.
  destruct (Hdone i eff Hi) as (sl&_&?&_). eauto.
Qed.

(** A loop that appends an entry at every iteration fills the batch. *)
Lemma loop_inv_entries g n f0 effs f :
  loop_inv g n f0 effs n f → step_data f0 = empty_step_data →
  (∀ i sl eff, g i sl = Some eff → is_Some (ef_entry eff)) →
  sd_sized n (step_data f) ∧
  ∀ i eff, effs !! i = Some eff → entry (step_data f) i = ef_entry eff.
Proof.
  intros Hinv Hsd Hg.
  pose proof Hinv as (_&_&Hlen&_&_&->&_&_). rewrite Hsd.
  destruct (omap_all_Some ef_entry effs) as [Hl Hlk].
  { intros eff Hin. destruct (loop_inv_elem _ _ _ _ _ _ _ Hinv Hin) as (i&sl&?).
    eauto. }
  split.
  - rewrite <- Hlen, <- Hl. apply sd_extend_sized.
  - intros i eff Hi. rewrite sd_extend_entry, Hlk, Hi. done.
Qed.

(** A loop that appends nothing leaves both locals alone. *)
Lemma loop_inv_silent g n f0 effs f :
  loop_inv g n f0 effs n f →
  (∀ i sl eff, g i sl = Some eff → ef_entry eff = None ∧ ef_records eff = []) →
  step_data f = step_data f0 ∧ terminated_env_info f = terminated_env_info f0.
Proof.
  intros Hinv Hg.
  pose proof Hinv as (_&_&_&_&_&->&->&_).
  rewrite omap_all_None, concat_all_nil; [by rewrite app_nil_r| |].
  - intros eff Hin. destruct (loop_inv_elem _ _ _ _ _ _ _ Hinv Hin) as (i&sl&?).
    by eapply Hg.
  - intros eff Hin. destruct (loop_inv_elem _ _ _ _ _ _ _ Hinv Hin) as (i&sl&?).
    by eapply Hg.
Qed.

End Loops.

Section TwoLoops.
Context {Env Action : Type} `{!Environment Env Action}.
Implicit Types (r : Runner Env Action) (f : Frame Env Action).
Implicit Types (sl : Slot Env Action) (eff : Effect Env Action).

Lemma total_steps_zip (l1 l2 : list (Effect Env Action)) :
  length l1 = length l2 →
  total_steps (zip_with then_effect l1 l2) = total_steps l1 + total_steps l2.
Proof.
  unfold total_steps. revert l2.
  induction l1 as [|e1 l1 IH]; intros [|e2 l2] Hlen; simpl in *; try done.
  rewrite IH by lia. lia.
Qed.

Lemma records_zip (l1 l2 : list (Effect Env Action)) :
  length l1 = length l2 →
  ef_records <$> zip_with then_effect l1 l2 = ef_records <$> l2.
Proof.
  revert l2. induction l1 as [|e1 l1 IH]; intros [|e2 l2] Hlen; simpl in *;
    try done.
  f_equal. apply IH. lia.
Qed.

Lemma same_config_trans r1 r2 r3 :
  same_config r1 r2 → same_config r2 r3 → same_config r1 r3.
Proof.
  intros (?&?&?&?) (?&?&?&?). unfold same_config. split_and!; congruence.
Qed.

(** A silent loop followed by a loop that fills the batch. *)
Lemma two_loops g1 g2 n r f1 f :
  sized n r →
  (∀ i sl eff, g1 i sl = Some eff → ef_entry eff = None ∧ ef_records eff = []) →
  (∀ i sl eff, g2 i sl = Some eff → is_Some (ef_entry eff)) →
  for_each (on_slot g1) (seq 0 n) (enter r) = Some f1 →
  for_each (on_slot g2) (seq 0 n) f1 = Some f →
  batch_post n (seq_slot g1 g2) r f.
Proof.
  intros Hsz Hg1 Hg2 Hrun1 Hrun2.
  destruct (on_slot_loop g1 n (enter r) f1) as [effs1 Hinv1]; [done..|].
  destruct (loop_inv_silent _ _ _ _ _ Hinv1 Hg1) as [Hsd1 Hinfo1].
  pose proof Hinv1 as (Hsz1 & Hcfg1 & Hlen1 & Hdone1 & _ & _ & _ & Htot1).
  destruct (on_slot_loop g2 n f1 f) as [effs2 Hinv2]; [done..|].
  destruct (loop_inv_entries _ _ _ _ _ Hinv2 Hsd1 Hg2) as [Hsized Hentry].
  pose proof Hinv2 as (Hsz2 & Hcfg2 & Hlen2 & Hdone2 & _ & _ & Hinfo2 & Htot2).
  simpl in *.
  split_and!; [done|by eapply same_config_trans|done|].
  exists (zip_with then_effect effs1 effs2). split_and!.
  - rewrite length_zip_with. lia.
  - intros i sl Hsl.
    pose proof (slot_lt _ _ _ _ Hsz Hsl) as Hi.
    destruct (lookup_lt_is_Some_2 effs1 i) as [eff1 He1]; [lia|].
    destruct (lookup_lt_is_Some_2 effs2 i) as [eff2 He2]; [lia|].
    destruct (Hdone1 i eff1 He1) as (sl' & Hsl' & Hr1 & Hs1).
    destruct (Hdone2 i eff2 He2) as (sl1 & Hsl1 & Hr2 & Hs2).
    simplify_eq. exists (then_effect eff1 eff2).
    unfold seq_slot. rewrite Hr1; simpl. rewrite Hr2; simpl.
    rewrite lookup_zip_with, He1; simpl. rewrite He2; simpl.
    split_and!; try done. by apply Hentry.
  - rewrite Hinfo2, Hinfo1, records_zip by lia. done.
  - rewrite Htot2, Htot1, total_steps_zip by lia. lia.
Qed.

Lemma two_loops_total g1 g2 n r :
  sized n r →
  (∀ i sl, slot r i = Some sl → is_Some (seq_slot g1 g2 i sl)) →
  ∃ f1 f, for_each (on_slot g1) (seq 0 n) (enter r) = Some f1 ∧
          for_each (on_slot g2) (seq 0 n) f1 = Some f.
Proof.
  intros Hsz Hall.
  destruct (on_slot_loop_total g1 n (enter r)) as [f1 Hrun1]; [done| |].
  { intros i sl Hsl. destruct (Hall i sl Hsl) as [eff Heff].
    unfold seq_slot in Heff. destruct (g1 i sl); [by eexists|done]. }
  destruct (on_slot_loop g1 n (enter r) f1) as [effs1 Hinv1]; [done..|].
  pose proof Hinv1 as (Hsz1 & _ & Hlen1 & Hdone1 & _).
  destruct (on_slot_loop_total g2 n f1) as [f Hrun2]; [done| |by eauto].
  intros i sl1 Hsl1.
  pose proof (slot_lt _ _ _ _ Hsz1 Hsl1) as Hi.
  destruct (lookup_lt_is_Some_2 effs1 i) as [eff1 He1]; [lia|].
  destruct (Hdone1 i eff1 He1) as (sl & Hsl & Hr1 & Hs1). simpl in *.
  destruct (Hall i sl Hsl) as [eff Heff].
  unfold seq_slot in Heff. rewrite Hr1 in Heff; simpl in Heff.
  simplify_eq. destruct (g2 i (ef_slot eff1)); [by eexists|done].
Qed.

End TwoLoops.

(** ** One worker under a call, in closed form *)

Section Workers.
Context {Env Action : Type} `{!Environment Env Action}.
Implicit Types (r : Runner Env Action) (f : Frame Env Action).
Implicit Types (sl : Slot Env Action) (eff : Effect Env Action).

Ltac unfold_worker :=
  unfold sync_worker, async_worker, reset_worker, seq_slot, sync_send_slot,
    sync_recv_slot, async_send_slot, async_recv_slot, sync_reset_recv_slot,
    live_recv_slot, reset_sent, send, env_worker, recv, then_effect, unmark,
    skip_effect, reset_effect, step_effect, served, reset_reply.

Lemma reset_worker_eq a i sl :
  w_out (sl_conn sl) = [] → reset_worker a i sl = Some (reset_effect a sl 0).
Proof.
  intros Hout. destruct sl as [[e out cmds] t n ret len]; simpl in *; subst.
  by unfold_worker.
Qed.

Lemma sync_worker_skip a eval actions i sl :
  sl_terminated sl = true →
  sync_worker a eval actions i sl = Some (skip_effect a sl).
Proof.
  intros Ht. destruct sl as [c t n ret len]; simpl in *; subst.
  by unfold_worker.
Qed.

Lemma sync_worker_live a eval actions i sl action env reward dt info :
  sl_terminated sl = false → w_out (sl_conn sl) = [] →
  actions !! i = Some action →
  env_step (w_env (sl_conn sl)) action = (env, (reward, dt, info)) →
  sync_worker a eval actions i sl =
    ir ← info !! "individual_rewards";
    et ← env_terminated_of dt (delete "individual_rewards" info);
    Some (step_effect eval sl action env reward dt
            (delete "individual_rewards" info) ir et).
Proof.
  intros Ht Hout Hact Hstep.
  destruct sl as [[e out cmds] t n ret len]; simpl in *; subst.
  unfold_worker; simpl. rewrite Hact; simpl. rewrite Hstep; simpl.
  destruct (info !! "individual_rewards"); simpl; [|done].
  destruct (env_terminated_of _ _); simpl; [|done].
  done.
Qed.

Lemma async_worker_reset a eval actions i sl :
  sl_terminated sl = true → w_out (sl_conn sl) = [] →
  async_worker a eval actions i sl = Some (reset_effect a sl 1).
Proof.
  intros Ht Hout. destruct sl as [[e out cmds] t n ret len]; simpl in *; subst.
  by unfold_worker.
Qed.

Lemma async_worker_live a eval actions i sl action env reward dt info :
  sl_terminated sl = false → w_out (sl_conn sl) = [] →
  actions !! i = Some action →
  env_step (w_env (sl_conn sl)) action = (env, (reward, dt, info)) →
  async_worker a eval actions i sl =
    ir ← info !! "individual_rewards";
    et ← env_terminated_of dt info;
    Some (step_effect eval sl action env reward dt info ir et).
Proof.
  intros Ht Hout Hact Hstep.
  destruct sl as [[e out cmds] t n ret len]; simpl in *; subst.
  unfold_worker; simpl. rewrite Hact; simpl. rewrite Hstep; simpl.
  destruct (info !! "individual_rewards"); simpl; [|done].
  destruct (env_terminated_of _ _); simpl; [|done].
  done.
Qed.

End Workers.

(** ** The step functions, worker by worker *)

Section Steps.
Context {Env Action : Type} `{!Environment Env Action}.
Implicit Types (r : Runner Env Action) (f : Frame Env Action).
Implicit Types (sl : Slot Env Action) (eff : Effect Env Action).
Implicit Types (actions : list Action).

Lemma sync_send_silent actions i sl eff :
  sync_send_slot (actions !! i) sl = Some eff →
  ef_entry eff = None ∧ ef_records eff = [].
Proof.
  unfold sync_send_slot. destruct (negb _), (actions !! i); simpl;
    intros; by simplify_eq.
Qed.

Lemma async_send_silent actions i sl eff :
  async_send_slot (actions !! i) sl = Some eff →
  ef_entry eff = None ∧ ef_records eff = [].
Proof.
  unfold async_send_slot. destruct (negb _), (actions !! i); simpl;
    intros; by simplify_eq.
Qed.

Lemma live_recv_entry pop eval steps sl eff :
  live_recv_slot pop eval steps sl = Some eff → is_Some (ef_entry eff).
Proof.
  unfold live_recv_slot. intros Hrun.
  destruct (recv _) as [[data conn]|]; simpl in Hrun; [|done].
  destruct (rp_reward data); simpl in Hrun; [|done].
  destruct (rp_info data) as [info|]; simpl in Hrun; [|done].
  destruct (info !! "individual_rewards"); simpl in Hrun; [|done].
  destruct (rp_terminated data); simpl in Hrun; [|done].
  destruct (env_terminated_of _ _); simpl in Hrun; [|done].
  simplify_eq. by eexists.
Qed.

Lemma sync_recv_entry a eval sl eff :
  sync_recv_slot a eval sl = Some eff → is_Some (ef_entry eff).
Proof.
  unfold sync_recv_slot. destruct (negb _); [apply live_recv_entry|].
  intros; simplify_eq. by eexists.
Qed.

Lemma async_recv_entry a eval sl eff :
  async_recv_slot a eval sl = Some eff → is_Some (ef_entry eff).
Proof.
  unfold async_recv_slot. destruct (negb _); [apply live_recv_entry|].
  destruct (recv _) as [[data conn]|]; simpl; intros; simplify_eq. by eexists.
Qed.

Lemma wf_indices r : wf r → indices r = seq 0 (env_batch_size r).
Proof. intros [(H&_) _]. unfold indices. by rewrite H. Qed.

Lemma wf_slot_out r i sl : wf r → slot r i = Some sl → w_out (sl_conn sl) = [].
Proof.
  intros [_ Hout] [Hc _]%slot_Some.
  eapply (Forall_lookup_1 _ _ _ _ Hout Hc).
Qed.

(** The synchronous call that steps. *)
Lemma sync_step_live_post actions r f :
  wf r → np_all (terminated r) = false → sync_step actions r = Some f →
  batch_post (env_batch_size r) (sync_worker (args r) (evaluate r) actions) r f.
Proof.
  intros Hwf Hall Hrun. pose proof Hwf as [Hsz _].
  unfold sync_step in Hrun. rewrite Hall, wf_indices in Hrun by done.
  destruct (for_each (sync_send actions) _ _) as [f1|] eqn:E1;
    simpl in Hrun; [|done].
  rewrite (loop_as_slots _ (λ _ _ i, sync_send_slot (actions !! i))) in E1;
    [|done|intros; by eapply sync_send_on_slot].
  destruct (on_slot_loop _ _ (enter r) _ Hsz E1) as [effs1 (Hsz1 & Hcfg1 & _)].
  rewrite (loop_as_slots _ (λ a ev _, sync_recv_slot a ev)) in Hrun;
    [|done|intros; by eapply sync_recv_on_slot].
  destruct Hcfg1 as (Ha & He & _). simpl in Ha, He. rewrite Ha, He in Hrun.
  eapply two_loops; [done| | |done..].
  - intros i sl eff. apply sync_send_silent.
  - intros i sl eff. apply sync_recv_entry.
Qed.

Lemma sync_step_live_total actions r :
  wf r → np_all (terminated r) = false →
  (∀ i sl, slot r i = Some sl →
     is_Some (sync_worker (args r) (evaluate r) actions i sl)) →
  is_Some (sync_step actions r).
Proof.
  intros Hwf Hall Hok. pose proof Hwf as [Hsz _].
  destruct (two_loops_total _ _ _ r Hsz Hok) as (f1 & f & E1 & E2).
  destruct (on_slot_loop _ _ (enter r) _ Hsz E1) as [effs1 (Hsz1 & Hcfg1 & _)].
  destruct Hcfg1 as (Ha & He & _). simpl in Ha, He.
  exists f. unfold sync_step. rewrite Hall, wf_indices by done.
  rewrite (loop_as_slots _ (λ _ _ i, sync_send_slot (actions !! i)));
    [|done|intros; by eapply sync_send_on_slot].
  rewrite E1. simpl.
  rewrite (loop_as_slots _ (λ a ev _, sync_recv_slot a ev));
    [|done|intros; by eapply sync_recv_on_slot].
  by rewrite Ha, He.
Qed.

(** The asynchronous call. *)
Lemma async_step_post actions r f :
  wf r → async_step actions r = Some f →
  batch_post (env_batch_size r) (async_worker (args r) (evaluate r) actions) r f.
Proof.
  intros Hwf Hrun. pose proof Hwf as [Hsz _].
  unfold async_step in Hrun. rewrite wf_indices in Hrun by done.
  destruct (for_each (async_send actions) _ _) as [f1|] eqn:E1;
    simpl in Hrun; [|done].
  rewrite (loop_as_slots _ (λ _ _ i, async_send_slot (actions !! i))) in E1;
    [|done|intros; by eapply async_send_on_slot].
  destruct (on_slot_loop _ _ (enter r) _ Hsz E1) as [effs1 (Hsz1 & Hcfg1 & _)].
  rewrite (loop_as_slots _ (λ a ev _, async_recv_slot a ev)) in Hrun;
    [|done|intros; by eapply async_recv_on_slot].
  destruct Hcfg1 as (Ha & He & _). simpl in Ha, He. rewrite Ha, He in Hrun.
  eapply two_loops; [done| | |done..].
  - intros i sl eff. apply async_send_silent.
  - intros i sl eff. apply async_recv_entry.
Qed.

Lemma async_step_total actions r :
  wf r →
  (∀ i sl, slot r i = Some sl →
     is_Some (async_worker (args r) (evaluate r) actions i sl)) →
  is_Some (async_step actions r).
Proof.
  intros Hwf Hok. pose proof Hwf as [Hsz _].
  destruct (two_loops_total _ _ _ r Hsz Hok) as (f1 & f & E1 & E2).
  destruct (on_slot_loop _ _ (enter r) _ Hsz E1) as [effs1 (Hsz1 & Hcfg1 & _)].
  destruct Hcfg1 as (Ha & He & _). simpl in Ha, He.
  exists f. unfold async_step. rewrite wf_indices by done.
  rewrite (loop_as_slots _ (λ _ _ i, async_send_slot (actions !! i)));
    [|done|intros; by eapply async_send_on_slot].
  rewrite E1. simpl.
  rewrite (loop_as_slots _ (λ a ev _, async_recv_slot a ev));
    [|done|intros; by eapply async_recv_on_slot].
  by rewrite Ha, He.
Qed.

End Steps.

Section ResetBranch.
Context {Env Action : Type} `{!Environment Env Action}.
Implicit Types (r : Runner Env Action) (f : Frame Env Action).
Implicit Types (sl : Slot Env Action) (eff : Effect Env Action).
Implicit Types (actions : list Action).

(** The runner after the first loop of the reset branch. *)
Lemma slot_reset_sent r i :
  slot (set_parent_conns (map (send CReset) (parent_conns r))
          (set_envs_step (map (λ _, 0) (envs_step r)) r)) i
  = reset_sent <$> slot r i.
Proof.
  unfold slot, set_parent_conns, set_envs_step; simpl.
  rewrite !list_lookup_fmap.
  destruct (parent_conns r !! i), (terminated r !! i), (envs_step r !! i),
    (episode_returns r !! i), (episode_lengths r !! i); done.
Qed.

Lemma slot_unmarked r i :
  slot (set_terminated (map (λ _, false) (terminated r)) r) i
  = (λ sl, {| sl_conn := sl_conn sl; sl_terminated := false;
              sl_envs_step := sl_envs_step sl; sl_return := sl_return sl;
              sl_length := sl_length sl |}) <$> slot r i.
Proof.
  unfold slot, set_terminated; simpl.
  rewrite !list_lookup_fmap.
  destruct (parent_conns r !! i), (terminated r !! i), (envs_step r !! i),
    (episode_returns r !! i), (episode_lengths r !! i); done.
Qed.

Lemma total_steps_unmark (effs : list (Effect Env Action)) :
  total_steps (unmark <$> effs) = total_steps effs.
Proof.
  induction effs as [|e effs IH]; [done|].
  rewrite fmap_cons.
  change (ef_steps (unmark e) + total_steps (unmark <$> effs)
          = ef_steps e + total_steps effs).
  by rewrite IH.
Qed.

Lemma records_unmark (effs : list (Effect Env Action)) :
  ef_records <$> (unmark <$> effs) = ef_records <$> effs.
Proof.
  induction effs as [|e effs IH]; [done|].
  rewrite !fmap_cons. by f_equal.
Qed.

Lemma reset_recv_total a sl : is_Some (sync_reset_recv_slot a (reset_sent sl)).
Proof.
  unfold sync_reset_recv_slot, reset_sent, send, env_worker, recv; simpl.
  destruct (w_out (sl_conn sl)); simpl; by eexists.
Qed.

(** The synchronous call that finds every worker terminated. *)
Lemma sync_step_reset_post actions r :
  wf r → np_all (terminated r) = true →
  ∃ f, sync_step actions r = Some f ∧
       batch_post (env_batch_size r) (reset_worker (args r)) r f.
Proof.
  intros Hwf Hall. pose proof Hwf as [Hsz _].
  unfold sync_step. rewrite Hall.
  set (r1 := set_parent_conns _ _).
  assert (sized (env_batch_size r) r1) as Hsz1.
  { destruct Hsz as (?&?&?&?&?). unfold sized, r1; simpl.
    by rewrite !length_map. }
  assert (indices r1 = seq 0 (env_batch_size r)) as ->.
  { unfold indices. by destruct Hsz1 as (->&_). }
  rewrite (loop_as_slots _ (λ a _ _, sync_reset_recv_slot a));
    [|done|intros; by eapply sync_reset_recv_on_slot].
  change (args (self (enter r1))) with (args r).
  destruct (on_slot_loop_total (λ _, sync_reset_recv_slot (args r))
              (env_batch_size r) (enter r1)) as [f Hrun]; [done| |].
  { intros i sl1 Hsl1. unfold r1 in Hsl1. simpl in Hsl1.
    rewrite slot_reset_sent in Hsl1.
    destruct (slot r i) as [sl|]; simpl in Hsl1; [|done]. simplify_eq.
    apply reset_recv_total. }
  rewrite Hrun. simpl. eexists; split; [done|].
  destruct (on_slot_loop _ _ (enter r1) _ Hsz1 Hrun) as [effs Hinv].
  destruct (loop_inv_entries _ _ _ _ _ Hinv eq_refl) as [Hsd Hentry].
  { intros i sl eff Heff. unfold sync_reset_recv_slot in Heff.
    destruct (recv _) as [[]|]; simpl in Heff; simplify_eq. by eexists. }
  destruct Hinv as (Hszf & Hcfg & Hlen & Hdone & _ & _ & Hinfo & Htot).
  simpl in *. split_and!.
  - destruct Hszf as (?&?&?&?&?). unfold sized; simpl.
    by rewrite length_map.
  - done.
  - done.
  - exists (unmark <$> effs). split_and!.
    + by rewrite length_fmap.
    + intros i sl Hsl.
      pose proof (slot_lt _ _ _ _ Hsz Hsl) as Hi.
      destruct (lookup_lt_is_Some_2 effs i) as [eff He]; [lia|].
      destruct (Hdone i eff He) as (sl1 & Hsl1 & Hg & Hs).
      unfold r1 in Hsl1. rewrite slot_reset_sent, Hsl in Hsl1.
      simpl in Hsl1. simplify_eq.
      exists (unmark eff). unfold reset_worker. rewrite Hg. simpl.
      rewrite list_lookup_fmap, He. simpl.
      rewrite slot_unmarked, Hs. simpl. split_and!; try done.
      by apply Hentry.
    + simpl. by rewrite Hinfo, records_unmark.
    + simpl. by rewrite Htot, total_steps_unmark.
Qed.

(** A frame that satisfies [batch_post] holds a well-formed runner when the
    per-worker function leaves no reply unread. *)
Lemma batch_post_wf W r f :
  wf r → batch_post (env_batch_size r) W r f →
  (∀ i sl eff, W i sl = Some eff → w_out (sl_conn sl) = [] →
     w_out (sl_conn (ef_slot eff)) = []) →
  wf (self f).
Proof.
  intros Hwf (Hsz & Hcfg & _ & effs & _ & Hall & _) HW.
  pose proof Hwf as [Hsz0 _]. destruct Hcfg as (_&_&Hn&_).
  split; [by rewrite Hn|].
  apply Forall_lookup_2. intros i w Hw.
  assert (i < env_batch_size r)%nat as Hi.
  { apply lookup_lt_Some in Hw. destruct Hsz as (<-&_). done. }
  destruct (slot_is_Some _ _ _ Hsz0 Hi) as [sl Hsl].
  destruct (Hall i sl Hsl) as (eff & HWi & _ & Hs & _).
  apply slot_Some in Hs as (Hc&_). rewrite Hw in Hc. simplify_eq.
  eapply HW; [done|]. by eapply wf_slot_out.
Qed.

(** What [batch_post] says about one worker. *)
Lemma batch_post_at n W r f i sl :
  batch_post n W r f → slot r i = Some sl →
  ∃ eff, W i sl = Some eff ∧ slot (self f) i = Some (ef_slot eff) ∧
         entry (step_data f) i = ef_entry eff ∧
         ∀ rec, rec ∈ ef_records eff → rec ∈ terminated_env_info f.
Proof.
  intros (_ & _ & _ & effs & _ & Hall & Hinfo & _) Hsl.
  destruct (Hall i sl Hsl) as (eff & HW & He & Hs & Hen).
  exists eff. split_and!; try done.
  intros rec Hrec. rewrite Hinfo.
  apply (elem_of_concat_2 _ (ef_records eff)); [done|].
  apply list_elem_of_fmap. exists eff. split; [done|].
  by eapply list_elem_of_lookup_2.
Qed.

End ResetBranch.

(** ** Well-formedness is kept by every operation *)

Section WellFormed.
Context {Env Action : Type} `{!Environment Env Action}.
Implicit Types (r : Runner Env Action) (f : Frame Env Action).
Implicit Types (sl : Slot Env Action) (eff : Effect Env Action).
Implicit Types (actions : list Action).

Lemma wf_init (a : Args) (eval : bool) : wf (init (Env:=Env) (Action:=Action) a eval).
Proof.
  unfold wf, sized, init; simpl.
  rewrite length_map, length_seq, !length_replicate. split_and!; try done.
  apply Forall_forall. intros w Hw. apply list_elem_of_In, in_map_iff in Hw.
  by destruct Hw as (i & <- & _).
Qed.

Lemma wf_reset_all_env r : wf r → wf (reset_all_env r).
Proof.
  intros [(?&?&?&?&?) Hout]. unfold wf, sized, reset_all_env; simpl.
  rewrite !length_replicate. by split_and!.
Qed.

Lemma env_terminated_of_true (info : gmap string pyval) et :
  env_terminated_of true info = Some et ↔
  ∃ limit, truthy (dict_get info "episode_limit" (VNum 0)) = Some limit ∧
           et = negb limit.
Proof.
  unfold env_terminated_of.
  destruct (truthy _) as [limit|]; simpl; split.
  - intros; simplify_eq. by exists limit.
  - intros (l & ? & ->). by simplify_eq.
  - done.
  - by intros (l & ? & _).
Qed.

Lemma dict_get_popped (info : gmap string pyval) :
  dict_get (delete "individual_rewards" info) "episode_limit" (VNum 0)
  = dict_get info "episode_limit" (VNum 0).
Proof. unfold dict_get. by rewrite lookup_delete_ne. Qed.

(** A stepped worker was given an action. *)
Lemma sync_worker_action a eval actions i sl eff :
  sync_worker a eval actions i sl = Some eff → sl_terminated sl = false →
  is_Some (actions !! i).
Proof.
  intros HW Ht. unfold sync_worker, seq_slot, sync_send_slot in HW.
  rewrite Ht in HW. simpl in HW. destruct (actions !! i); [by eexists|done].
Qed.

Lemma async_worker_action a eval actions i sl eff :
  async_worker a eval actions i sl = Some eff → sl_terminated sl = false →
  is_Some (actions !! i).
Proof.
  intros HW Ht. unfold async_worker, seq_slot, async_send_slot in HW.
  rewrite Ht in HW. simpl in HW. destruct (actions !! i); [by eexists|done].
Qed.

Lemma sync_worker_live_inv a eval actions i sl eff action env reward dt info :
  sync_worker a eval actions i sl = Some eff →
  sl_terminated sl = false → w_out (sl_conn sl) = [] →
  actions !! i = Some action →
  env_step (w_env (sl_conn sl)) action = (env, (reward, dt, info)) →
  ∃ ir et, info !! "individual_rewards" = Some ir ∧
    env_terminated_of dt (delete "individual_rewards" info) = Some et ∧
    eff = step_effect eval sl action env reward dt
            (delete "individual_rewards" info) ir et.
Proof.
  intros HW Ht Hout Hact Hstep.
  rewrite (sync_worker_live _ _ _ _ _ _ _ _ _ _ Ht Hout Hact Hstep) in HW.
  destruct (info !! "individual_rewards") as [ir|]; simpl in HW; [|done].
  destruct (env_terminated_of _ _) as [et|]; simpl in HW; [|done].
  simplify_eq. by exists ir, et.
Qed.

Lemma async_worker_live_inv a eval actions i sl eff action env reward dt info :
  async_worker a eval actions i sl = Some eff →
  sl_terminated sl = false → w_out (sl_conn sl) = [] →
  actions !! i = Some action →
  env_step (w_env (sl_conn sl)) action = (env, (reward, dt, info)) →
  ∃ ir et, info !! "individual_rewards" = Some ir ∧
    env_terminated_of dt info = Some et ∧
    eff = step_effect eval sl action env reward dt info ir et.
Proof.
  intros HW Ht Hout Hact Hstep.
  rewrite (async_worker_live _ _ _ _ _ _ _ _ _ _ Ht Hout Hact Hstep) in HW.
  destruct (info !! "individual_rewards") as [ir|]; simpl in HW; [|done].
  destruct (env_terminated_of _ _) as [et|]; simpl in HW; [|done].
  simplify_eq. by exists ir, et.
Qed.

Lemma sync_worker_out a eval actions i sl eff :
  sync_worker a eval actions i sl = Some eff → w_out (sl_conn sl) = [] →
  w_out (sl_conn (ef_slot eff)) = [].
Proof.
  intros HW Hout. destruct (sl_terminated sl) eqn:Ht.
  - rewrite sync_worker_skip in HW by done. by simplify_eq.
  - destruct (sync_worker_action _ _ _ _ _ _ HW Ht) as [action Hact].
    destruct (env_step (w_env (sl_conn sl)) action) as [env [[reward dt] info]]
      eqn:Hstep.
    destruct (sync_worker_live_inv _ _ _ _ _ _ _ _ _ _ _ HW Ht Hout Hact Hstep)
      as (ir & et & _ & _ & ->). done.
Qed.

Lemma async_worker_out a eval actions i sl eff :
  async_worker a eval actions i sl = Some eff → w_out (sl_conn sl) = [] →
  w_out (sl_conn (ef_slot eff)) = [].
Proof.
  intros HW Hout. destruct (sl_terminated sl) eqn:Ht.
  - rewrite async_worker_reset in HW by done. by simplify_eq.
  - destruct (async_worker_action _ _ _ _ _ _ HW Ht) as [action Hact].
    destruct (env_step (w_env (sl_conn sl)) action) as [env [[reward dt] info]]
      eqn:Hstep.
    destruct (async_worker_live_inv _ _ _ _ _ _ _ _ _ _ _ HW Ht Hout Hact Hstep)
      as (ir & et & _ & _ & ->). done.
Qed.

Lemma reset_worker_out a i sl eff :
  reset_worker a i sl = Some eff → w_out (sl_conn sl) = [] →
  w_out (sl_conn (ef_slot eff)) = [].
Proof.
  intros HW Hout. rewrite reset_worker_eq in HW by done. by simplify_eq.
Qed.

(** What a synchronous call returns, whichever branch it takes. *)
Lemma sync_step_post actions r f :
  wf r → sync_step actions r = Some f →
  batch_post (env_batch_size r)
    (if np_all (terminated r) then reset_worker (args r)
     else sync_worker (args r) (evaluate r) actions) r f.
Proof.
  intros Hwf Hrun. destruct (np_all (terminated r)) eqn:Hall.
  - destruct (sync_step_reset_post actions r Hwf Hall) as (f' & Hrun' & Hpost).
    by simplify_eq.
  - by apply sync_step_live_post.
Qed.

Lemma wf_sync_step actions r f : wf r → sync_step actions r = Some f → wf (self f).
Proof.
  intros Hwf Hrun. pose proof (sync_step_post _ _ _ Hwf Hrun) as Hpost.
  eapply batch_post_wf; [done..|].
  destruct (np_all (terminated r)); intros i sl eff.
  - apply reset_worker_out.
  - apply sync_worker_out.
Qed.

Lemma wf_async_step actions r f : wf r → async_step actions r = Some f → wf (self f).
Proof.
  intros Hwf Hrun. pose proof (async_step_post _ _ _ Hwf Hrun) as Hpost.
  eapply batch_post_wf; [done..|].
  intros i sl eff. apply async_worker_out.
Qed.

Lemma np_all_false_at (l : list bool) i : l !! i = Some false → np_all l = false.
Proof.
  intros Hi. unfold np_all. apply not_true_is_false. intros Hall.
  rewrite forallb_forall in Hall.
  specialize (Hall false). apply list_elem_of_lookup_2, list_elem_of_In in Hi.
  by specialize (Hall Hi).
Qed.

Lemma np_all_replicate n : np_all (replicate n true) = true.
Proof. unfold np_all. induction n; simpl; auto. Qed.

End WellFormed.

(** ** Terminal episode records *)

Section Records.

Lemma radd_zero_l v : radd 0 v = v.
Proof.
  destruct v as [z|a]; simpl; [done|]. f_equal.
  induction a as [|x a IH]; simpl; [done|]. by rewrite IH.
Qed.

Lemma summed_lookup (tracker : gmap string Z) (env_info : gmap string pyval) k :
  summed tracker env_info !! k =
  if decide (k ∈ dom tracker ∪ dom env_info)
  then Some (radd (dict_get tracker k 0) (dict_get env_info k (VNum 0)))
  else None.
Proof.
  unfold summed. apply option_eq. intros v.
  rewrite lookup_set_to_map by (simpl; auto).
  case_decide; split.
  - intros (j & _ & ?). by simplify_eq.
  - intros ?; simplify_eq. by exists k.
  - intros (j & ? & ?). by simplify_eq.
  - done.
Qed.

Lemma tracker_lookup (len ret : Z) k :
  (<["episode_return" := ret]> (<["episode_length" := len]> ∅) : gmap string Z) !! k
  = tracker_get len ret k.
Proof.
  unfold tracker_get. repeat case_decide; subst.
  - by rewrite lookup_insert_eq.
  - by rewrite lookup_insert_ne, lookup_insert_eq.
  - by rewrite !lookup_insert_ne, lookup_empty.
Qed.

(** Each key of the record holds the sum of what the counters and the
    environment hold under it, a missing entry counting as 0. *)
Lemma terminal_record_lookup len ret (env_info : gmap string pyval) k :
  terminal_record false len ret env_info !! k
  = merged_value (tracker_get len ret k) (env_info !! k).
Proof.
  unfold terminal_record, dict_update.
  rewrite lookup_union, summed_lookup, lookup_fmap.
  unfold dict_get. rewrite tracker_lookup.
  assert (k ∈ dom (<["episode_return" := ret]>
                     (<["episode_length" := len]> (∅ : gmap string Z)))
          ↔ is_Some (tracker_get len ret k)) as Hdom.
  { by rewrite elem_of_dom, tracker_lookup. }
  destruct (tracker_get len ret k) as [x|] eqn:Et,
    (env_info !! k) as [v|] eqn:Ev; simpl.
  - rewrite decide_True; [done|]. apply elem_of_union. left. by apply Hdom.
  - rewrite decide_True; [simpl; by rewrite Z.add_0_r|].
    apply elem_of_union. left. by apply Hdom.
  - rewrite decide_True; [simpl; by rewrite radd_zero_l|].
    apply elem_of_union. right. by apply elem_of_dom.
  - rewrite decide_False; [done|].
    intros [[? ?]%Hdom|[? ?]%elem_of_dom]%elem_of_union; congruence.
Qed.

#[local] Instance test_prefix_inj : Inj (=) (=) test_prefix.
Proof. intros k1 k2 Heq. unfold test_prefix in Heq. simpl in Heq. by simplify_eq. Qed.

Lemma terminal_record_lookup_eval len ret (env_info : gmap string pyval) k :
  terminal_record true len ret env_info !! test_prefix k
  = merged_value (tracker_get len ret k) (env_info !! k).
Proof.
  rewrite <- terminal_record_lookup. unfold terminal_record.
  apply (lookup_kmap test_prefix).
Qed.

Lemma terminal_record_eval_keys len ret (env_info : gmap string pyval) k' :
  (∀ k, k' ≠ test_prefix k) → terminal_record true len ret env_info !! k' = None.
Proof.
  intros Hk. unfold terminal_record. apply lookup_kmap_None; [apply _|].
  intros k ->. by destruct (Hk k).
Qed.

End Records.

(** ** One worker across a call *)

Section Views.
Context {Env Action : Type} `{!Environment Env Action}.
Implicit Types (r : Runner Env Action) (f : Frame Env Action).
Implicit Types (sl : Slot Env Action) (eff : Effect Env Action).
Implicit Types (actions : list Action) (w : Worker Env Action).

Lemma slot_of_lookups r i w t :
  wf r → parent_conns r !! i = Some w → terminated r !! i = Some t →
  ∃ sl, slot r i = Some sl ∧ sl_conn sl = w ∧ sl_terminated sl = t ∧
        w_out w = [].
Proof.
  intros Hwf Hw Ht. pose proof Hwf as [Hsz Hout].
  assert (i < env_batch_size r)%nat as Hi.
  { apply lookup_lt_Some in Hw. destruct Hsz as (<-&_). done. }
  destruct (slot_is_Some _ _ _ Hsz Hi) as [sl Hsl]. exists sl.
  pose proof (wf_slot_out _ _ _ Hwf Hsl) as Ho.
  apply slot_Some in Hsl as Hsl'. destruct Hsl' as (Hc & Ht' & _).
  rewrite Hw in Hc. rewrite Ht in Ht'. simplify_eq. done.
Qed.

Lemma entry_fields (sd : StepData) i e :
  entry sd i = Some e →
  sd_state sd !! i = Some (en_state e) ∧
  sd_avail_actions sd !! i = Some (en_avail_actions e) ∧
  sd_obs sd !! i = Some (en_obs e) ∧
  sd_reward sd !! i = Some [en_reward e] ∧
  sd_individual_rewards sd !! i = Some (en_individual_rewards e) ∧
  sd_terminated sd !! i = Some [en_terminated e].
Proof.
  unfold entry. intros He.
  destruct (sd_state sd !! i), (sd_avail_actions sd !! i), (sd_obs sd !! i),
    (sd_reward sd !! i) as [[|? [|]]|], (sd_individual_rewards sd !! i),
    (sd_terminated sd !! i) as [[|? [|]]|]; simpl in He; by simplify_eq.
Qed.

(** A live worker under a synchronous call. *)
Lemma sync_live_view actions r f i w action env reward dt info :
  wf r → sync_step actions r = Some f →
  terminated r !! i = Some false → parent_conns r !! i = Some w →
  actions !! i = Some action →
  env_step (w_env w) action = (env, (reward, dt, info)) →
  ∃ sl ir et,
    slot r i = Some sl ∧ sl_conn sl = w ∧ sl_terminated sl = false ∧
    info !! "individual_rewards" = Some ir ∧
    env_terminated_of dt (delete "individual_rewards" info) = Some et ∧
    let eff := step_effect (evaluate r) sl action env reward dt
                 (delete "individual_rewards" info) ir et in
    slot (self f) i = Some (ef_slot eff) ∧
    entry (step_data f) i = ef_entry eff ∧
    ∀ rec, rec ∈ ef_records eff → rec ∈ terminated_env_info f.
Proof.
  intros Hwf Hrun Ht Hw Hact Hstep.
  destruct (slot_of_lookups _ _ _ _ Hwf Hw Ht) as (sl & Hsl & <- & Hts & Hout).
  pose proof (sync_step_live_post _ _ _ Hwf (np_all_false_at _ _ Ht) Hrun) as Hpost.
  destruct (batch_post_at _ _ _ _ _ _ Hpost Hsl) as (eff & HW & Hs & He & Hrec).
  destruct (sync_worker_live_inv _ _ _ _ _ _ _ _ _ _ _ HW Hts Hout Hact Hstep)
    as (ir & et & Hir & Het & ->).
  exists sl, ir, et. by split_and!.
Qed.

(** A terminated worker under a synchronous call that steps. *)
Lemma sync_skip_view actions r f i w :
  wf r → np_all (terminated r) = false → sync_step actions r = Some f →
  terminated r !! i = Some true → parent_conns r !! i = Some w →
  ∃ sl, slot r i = Some sl ∧ sl_conn sl = w ∧
        slot (self f) i = Some (ef_slot (skip_effect (args r) sl)) ∧
        entry (step_data f) i = Some (placeholder (args r)).
Proof.
  intros Hwf Hall Hrun Ht Hw.
  destruct (slot_of_lookups _ _ _ _ Hwf Hw Ht) as (sl & Hsl & <- & Hts & Hout).
  pose proof (sync_step_live_post _ _ _ Hwf Hall Hrun) as Hpost.
  destruct (batch_post_at _ _ _ _ _ _ Hpost Hsl) as (eff & HW & Hs & He & _).
  rewrite sync_worker_skip in HW by done. simplify_eq.
  exists sl. by split_and!.
Qed.

(** Any worker under the synchronous full reset. *)
Lemma sync_reset_view actions r f i w t :
  wf r → np_all (terminated r) = true → sync_step actions r = Some f →
  parent_conns r !! i = Some w → terminated r !! i = Some t →
  ∃ sl, slot r i = Some sl ∧ sl_conn sl = w ∧
        slot (self f) i = Some (ef_slot (reset_effect (args r) sl 0)) ∧
        entry (step_data f) i = ef_entry (reset_effect (args r) sl 0).
Proof.
  intros Hwf Hall Hrun Hw Ht.
  destruct (slot_of_lookups _ _ _ _ Hwf Hw Ht) as (sl & Hsl & <- & Hts & Hout).
  destruct (sync_step_reset_post actions r Hwf Hall) as (f' & Hrun' & Hpost).
  simplify_eq.
  destruct (batch_post_at _ _ _ _ _ _ Hpost Hsl) as (eff & HW & Hs & He & _).
  rewrite reset_worker_eq in HW by done. simplify_eq.
  exists sl. by split_and!.
Qed.

(** A live worker under an asynchronous call. *)
Lemma async_live_view actions r f i w action env reward dt info :
  wf r → async_step actions r = Some f →
  terminated r !! i = Some false → parent_conns r !! i = Some w →
  actions !! i = Some action →
  env_step (w_env w) action = (env, (reward, dt, info)) →
  ∃ sl ir et,
    slot r i = Some sl ∧ sl_conn sl = w ∧ sl_terminated sl = false ∧
    info !! "individual_rewards" = Some ir ∧
    env_terminated_of dt info = Some et ∧
    let eff := step_effect (evaluate r) sl action env reward dt info ir et in
    slot (self f) i = Some (ef_slot eff) ∧
    entry (step_data f) i = ef_entry eff ∧
    ∀ rec, rec ∈ ef_records eff → rec ∈ terminated_env_info f.
Proof.
  intros Hwf Hrun Ht Hw Hact Hstep.
  destruct (slot_of_lookups _ _ _ _ Hwf Hw Ht) as (sl & Hsl & <- & Hts & Hout).
  pose proof (async_step_post _ _ _ Hwf Hrun) as Hpost.
  destruct (batch_post_at _ _ _ _ _ _ Hpost Hsl) as (eff & HW & Hs & He & Hrec).
  destruct (async_worker_live_inv _ _ _ _ _ _ _ _ _ _ _ HW Hts Hout Hact Hstep)
    as (ir & et & Hir & Het & ->).
  exists sl, ir, et. by split_and!.
Qed.

(** A terminated worker under an asynchronous call. *)
Lemma async_reset_view actions r f i w :
  wf r → async_step actions r = Some f →
  terminated r !! i = Some true → parent_conns r !! i = Some w →
  ∃ sl, slot r i = Some sl ∧ sl_conn sl = w ∧
        slot (self f) i = Some (ef_slot (reset_effect (args r) sl 1)) ∧
        entry (step_data f) i = ef_entry (reset_effect (args r) sl 1).
Proof.
  intros Hwf Hrun Ht Hw.
  destruct (slot_of_lookups _ _ _ _ Hwf Hw Ht) as (sl & Hsl & <- & Hts & Hout).
  pose proof (async_step_post _ _ _ Hwf Hrun) as Hpost.
  destruct (batch_post_at _ _ _ _ _ _ Hpost Hsl) as (eff & HW & Hs & He & _).
  rewrite async_worker_reset in HW by done. simplify_eq.
  exists sl. by split_and!.
Qed.

End Views.

(** ** The three things a call can do to a worker *)

Section Cases.
Context {Env Action : Type} `{!Environment Env Action}.
Implicit Types (r : Runner Env Action) (f : Frame Env Action).
Implicit Types (sl : Slot Env Action) (eff : Effect Env Action).
Implicit Types (actions : list Action) (w : Worker Env Action).

Lemma sync_worker_cases a eval actions i sl eff :
  sync_worker a eval actions i sl = Some eff → w_out (sl_conn sl) = [] →
  (sl_terminated sl = true ∧ eff = skip_effect a sl) ∨
  (sl_terminated sl = false ∧
   ∃ action env reward dt info ir et,
     actions !! i = Some action ∧
     env_step (w_env (sl_conn sl)) action = (env, (reward, dt, info)) ∧
     info !! "individual_rewards" = Some ir ∧
     env_terminated_of dt (delete "individual_rewards" info) = Some et ∧
     eff = step_effect eval sl action env reward dt
             (delete "individual_rewards" info) ir et).
Proof.
  intros HW Hout. destruct (sl_terminated sl) eqn:Ht.
  - left. rewrite sync_worker_skip in HW by done. by simplify_eq.
  - right. split; [done|].
    destruct (sync_worker_action _ _ _ _ _ _ HW Ht) as [action Hact].
    destruct (env_step (w_env (sl_conn sl)) action) as [env [[reward dt] info]]
      eqn:Hstep.
    destruct (sync_worker_live_inv _ _ _ _ _ _ _ _ _ _ _ HW Ht Hout Hact Hstep)
      as (ir & et & ? & ? & ->).
    by exists action, env, reward, dt, info, ir, et.
Qed.

Lemma async_worker_cases a eval actions i sl eff :
  async_worker a eval actions i sl = Some eff → w_out (sl_conn sl) = [] →
  (sl_terminated sl = true ∧ eff = reset_effect a sl 1) ∨
  (sl_terminated sl = false ∧
   ∃ action env reward dt info ir et,
     actions !! i = Some action ∧
     env_step (w_env (sl_conn sl)) action = (env, (reward, dt, info)) ∧
     info !! "individual_rewards" = Some ir ∧
     env_terminated_of dt info = Some et ∧
     eff = step_effect eval sl action env reward dt info ir et).
Proof.
  intros HW Hout. destruct (sl_terminated sl) eqn:Ht.
  - left. rewrite async_worker_reset in HW by done. by simplify_eq.
  - right. split; [done|].
    destruct (async_worker_action _ _ _ _ _ _ HW Ht) as [action Hact].
    destruct (env_step (w_env (sl_conn sl)) action) as [env [[reward dt] info]]
      eqn:Hstep.
    destruct (async_worker_live_inv _ _ _ _ _ _ _ _ _ _ _ HW Ht Hout Hact Hstep)
      as (ir & et & ? & ? & ->).
    by exists action, env, reward, dt, info, ir, et.
Qed.

(** No access raises under [inputs_ok]. *)
Lemma sync_worker_total actions r i sl :
  wf r → inputs_ok actions r → slot r i = Some sl →
  is_Some (sync_worker (args r) (evaluate r) actions i sl).
Proof.
  intros Hwf Hok Hsl. pose proof (wf_slot_out _ _ _ Hwf Hsl) as Hout.
  destruct (sl_terminated sl) eqn:Ht.
  - rewrite sync_worker_skip by done. by eexists.
  - apply slot_Some in Hsl as (Hc & Ht' & _). rewrite Ht in Ht'.
    destruct (Hok i _ Hc Ht') as (action & Hact & Hir & Hlim).
    destruct (env_step (w_env (sl_conn sl)) action) as [env [[reward dt] info]]
      eqn:Hstep. simpl in *.
    rewrite (sync_worker_live _ _ _ _ _ _ _ _ _ _ Ht Hout Hact Hstep).
    destruct Hir as [ir ->]. simpl.
    unfold env_terminated_of. rewrite dict_get_popped.
    destruct dt; simpl; [|by eexists].
    destruct (Hlim eq_refl) as [limit ->]. by eexists.
Qed.

Lemma async_worker_total actions r i sl :
  wf r → inputs_ok actions r → slot r i = Some sl →
  is_Some (async_worker (args r) (evaluate r) actions i sl).
Proof.
  intros Hwf Hok Hsl. pose proof (wf_slot_out _ _ _ Hwf Hsl) as Hout.
  destruct (sl_terminated sl) eqn:Ht.
  - rewrite async_worker_reset by done. by eexists.
  - apply slot_Some in Hsl as (Hc & Ht' & _). rewrite Ht in Ht'.
    destruct (Hok i _ Hc Ht') as (action & Hact & Hir & Hlim).
    destruct (env_step (w_env (sl_conn sl)) action) as [env [[reward dt] info]]
      eqn:Hstep. simpl in *.
    rewrite (async_worker_live _ _ _ _ _ _ _ _ _ _ Ht Hout Hact Hstep).
    destruct Hir as [ir ->]. simpl.
    unfold env_terminated_of.
    destruct dt; simpl; [|by eexists].
    destruct (Hlim eq_refl) as [limit ->]. by eexists.
Qed.

(** [step] returns under [inputs_ok]. *)
Lemma step_total actions r : wf r → inputs_ok actions r → is_Some (step actions r).
Proof.
  intros Hwf Hok. unfold step. destruct (a_asynchronous_env (args r)).
  - apply async_step_total; [done|]. intros. by apply async_worker_total.
  - destruct (np_all (terminated r)) eqn:Hall.
    + destruct (sync_step_reset_post actions r Hwf Hall) as (f & -> & _).
      by eexists.
    + apply sync_step_live_total; [done..|]. intros. by apply sync_worker_total.
Qed.

(** What [step] returns, whichever algorithm it is bound to. *)
Lemma step_post actions r f :
  wf r → step actions r = Some f →
  ∃ W, batch_post (env_batch_size r) W r f.
Proof.
  intros Hwf Hrun. unfold step in Hrun.
  destruct (a_asynchronous_env (args r)).
  - eexists. by apply async_step_post.
  - eexists. by apply sync_step_post.
Qed.

Lemma total_steps_pointwise (effs : list (Effect Env Action)) (ts : list bool)
    (c : bool → Z) :
  length effs = length ts →
  (∀ i eff t, effs !! i = Some eff → ts !! i = Some t → ef_steps eff = c t) →
  total_steps effs = foldr (λ t acc, c t + acc) 0 ts.
Proof.
  revert ts. induction effs as [|e effs IH]; intros [|t ts] Hlen Hpt;
    simpl in *; try done.
  change (total_steps (e :: effs)) with (ef_steps e + total_steps effs).
  rewrite (Hpt 0%nat e t eq_refl eq_refl). f_equal.
  apply IH; [lia|]. intros i eff t' ? ?. by apply (Hpt (S i)).
Qed.

(** The increment of [env_total_step] over a call, from the increment each
    worker causes according to its flag. *)
Lemma batch_post_total W r f (c : bool → Z) :
  wf r → batch_post (env_batch_size r) W r f →
  (∀ i sl eff, slot r i = Some sl → W i sl = Some eff →
     ef_steps eff = c (sl_terminated sl)) →
  env_total_step (self f)
  = env_total_step r + foldr (λ t acc, c t + acc) 0 (terminated r).
Proof.
  intros Hwf (_ & _ & _ & effs & Hlen & Hall & _ & ->) Hc.
  pose proof Hwf as [Hsz _]. f_equal.
  apply total_steps_pointwise.
  - destruct Hsz as (_&->&_). done.
  - intros i eff t He Ht.
    assert (i < env_batch_size r)%nat as Hi.
    { apply lookup_lt_Some in He. lia. }
    destruct (slot_is_Some _ _ _ Hsz Hi) as [sl Hsl].
    destruct (Hall i sl Hsl) as (eff' & HW & He' & _).
    apply slot_Some in Hsl as Hsl'. destruct Hsl' as (_ & Ht' & _).
    assert (eff' = eff) as -> by congruence.
    assert (sl_terminated sl = t) as <- by congruence.
    by apply (Hc i sl eff).
Qed.

Lemma count_live (ts : list bool) :
  foldr (λ (t : bool) acc, (if t then 0 else 1) + acc) 0 ts
  = Z.of_nat (length (filter (λ t, t = false) ts)).
Proof.
  induction ts as [|t ts IH]; simpl; [done|].
  rewrite filter_cons. destruct t; case_decide; try done; simpl; lia.
Qed.

Lemma count_all (ts : list bool) :
  foldr (λ (_ : bool) acc, 1 + acc) 0 ts = Z.of_nat (length ts).
Proof. induction ts as [|t ts IH]; simpl; lia. Qed.

Lemma count_none (ts : list bool) : foldr (λ (_ : bool) acc, 0 + acc) 0 ts = 0.
Proof. induction ts as [|t ts IH]; simpl; lia. Qed.

End Cases.

(** ** The share of each worker in a call *)

Section Shares.
Context {Env Action : Type} `{!Environment Env Action}.
Implicit Types (r : Runner Env Action) (f : Frame Env Action).
Implicit Types (sl : Slot Env Action) (eff : Effect Env Action).
Implicit Types (actions : list Action) (w : Worker Env Action).

Lemma env_terminated_of_popped dt (info : gmap string pyval) :
  env_terminated_of dt (delete "individual_rewards" info)
  = env_terminated_of dt info.
Proof. unfold env_terminated_of. by rewrite dict_get_popped. Qed.

Lemma np_all_true_at (l : list bool) i t :
  np_all l = true → l !! i = Some t → t = true.
Proof.
  unfold np_all. rewrite forallb_forall. intros Hall Hi.
  apply (Hall t). by apply list_elem_of_In, (list_elem_of_lookup_2 _ i).
Qed.

Lemma step_exact actions r f :
  wf r → step actions r = Some f →
  sd_sized (env_batch_size r) (step_data f) ∧
  ∃ effs, length effs = env_batch_size r ∧
    terminated_env_info f = concat (ef_records <$> effs) ∧
    env_total_step (self f) = env_total_step r + total_steps effs ∧
    ∀ i sl, slot r i = Some sl →
      ∃ eff, effs !! i = Some eff ∧ slot (self f) i = Some (ef_slot eff) ∧
             entry (step_data f) i = ef_entry eff ∧
             worker_share r actions i sl eff.
Proof.
  intros Hwf Hrun.
  assert (∃ W, batch_post (env_batch_size r) W r f ∧
            ∀ i sl eff, slot r i = Some sl → W i sl = Some eff →
                        worker_share r actions i sl eff) as (W & Hpost & HW).
  { unfold step in Hrun.
    destruct (a_asynchronous_env (args r)) eqn:Hmode.
    - eexists. split; [by apply async_step_post|].
      intros i sl eff Hsl HWi.
      pose proof (wf_slot_out _ _ _ Hwf Hsl) as Hout.
      unfold worker_share. rewrite Hmode.
      destruct (async_worker_cases _ _ _ _ _ _ HWi Hout)
        as [[Ht ->]|[Ht (action & env & reward & dt & info & ir & et &
                         ? & ? & ? & ? & ->)]]; rewrite Ht; [done|].
      by exists action, env, reward, dt, info, ir, et.
    - eexists. split; [by apply sync_step_post|].
      destruct (np_all (terminated r)) eqn:Hall; intros i sl eff Hsl HWi;
        pose proof (wf_slot_out _ _ _ Hwf Hsl) as Hout;
        unfold worker_share; rewrite Hmode, Hall.
      + rewrite reset_worker_eq in HWi by done. injection HWi as <-.
        apply slot_Some in Hsl as (_ & Ht & _).
        by rewrite (np_all_true_at _ _ _ Hall Ht).
      + destruct (sync_worker_cases _ _ _ _ _ _ HWi Hout)
          as [[Ht ->]|[Ht (action & env & reward & dt & info & ir & et &
                           ? & ? & ? & Het & ->)]]; rewrite Ht; [done|].
        rewrite env_terminated_of_popped in Het.
        by exists action, env, reward, dt, info, ir, et. }
  destruct Hpost as (_ & _ & Hsd & effs & Hlen & Hall & Hinfo & Htot).
  split; [done|]. exists effs. split_and!; try done.
  intros i sl Hsl. destruct (Hall i sl Hsl) as (eff & HWi & He & Hs & Hen).
  exists eff. split_and!; try done. by eapply HW.
Qed.

Lemma matrix_ok_replicate n m (x : Z) : matrix_ok n m (replicate n (replicate m x)).
Proof.
  split; [by rewrite length_replicate|].
  apply Forall_replicate. by rewrite length_replicate.
Qed.

Lemma zero_rewards_shaped (a : Args) :
  ∃ m, entry_zero_rewards a = A2 m ∧ matrix_ok (n_agents a) 1 m.
Proof.
  unfold entry_zero_rewards, np_zeros2. eexists. split; [done|].
  apply matrix_ok_replicate.
Qed.

Lemma placeholder_shaped (a : Args) : shaped a (placeholder a).
Proof.
  unfold shaped, placeholder, np_zeros1, np_ones2, np_zeros2; simpl.
  split_and!.
  - apply length_replicate.
  - apply matrix_ok_replicate.
  - apply matrix_ok_replicate.
  - apply zero_rewards_shaped.
Qed.

Lemma reset_entry_shaped (a : Args) (env : Env) :
  env_shaped a env → shaped a (reset_entry a (reset_reply env)).
Proof.
  intros (? & ? & ?). split_and!; simpl; try done. apply zero_rewards_shaped.
Qed.

Lemma expand_dims_shaped (v : list Z) :
  matrix_ok (length v) 1 (map (λ x, [x]) v).
Proof.
  split; [by rewrite length_map|].
  apply Forall_forall. intros row Hrow.
  apply list_elem_of_In, in_map_iff in Hrow as (x & <- & _). done.
Qed.

Lemma worker_share_shaped actions r i sl eff e :
  shapes_ok actions r → slot r i = Some sl →
  worker_share r actions i sl eff → ef_entry eff = Some e →
  shaped (args r) e.
Proof.
  intros Hshapes Hsl Hshare He.
  apply slot_Some in Hsl as (Hc & Ht & _).
  specialize (Hshapes i _ _ Hc Ht). unfold worker_share in Hshare.
  destruct (sl_terminated sl).
  - subst eff.
    destruct (a_asynchronous_env (args r)); [|destruct (np_all (terminated r))];
      simpl in He; injection He as <-;
      first [by apply reset_entry_shaped | apply placeholder_shaped].
  - destruct Hshare as (action & env & reward & dt & info & ir & et &
                        Hact & Hstep & Hir & _ & ->).
    simpl in He. injection He as <-.
    destruct (Hshapes action Hact) as [(? & ? & ?) Hirs].
    rewrite Hstep in *. simpl in *.
    destruct (Hirs ir Hir) as (v & -> & Hv).
    split_and!; simpl; try done.
    eexists. split; [done|]. rewrite <- Hv. apply expand_dims_shaped.
Qed.

End Shares.

(** * The claims *)

Section Claims.
Context {Env Action : Type} `{!Environment Env Action}.
Implicit Types (r : Runner Env Action) (f : Frame Env Action).
Implicit Types (sl : Slot Env Action) (eff : Effect Env Action).
Implicit Types (actions : list Action) (w : Worker Env Action).

(** C1.  Synchronous mode, a live worker [i] whose reply to
    [Step(actions[i])] is [(reward, dt, info)].  When [dt] is false the
    worker stays live and its counters advance.  When [dt] is true the
    worker's flag becomes the negation of the truth value of
    [info.get("episode_limit", False)]: it stays false under an episode
    limit and becomes true only when the limit is absent or false; either
    way the terminal record built from the advanced counters is emitted and
    both counters are zero afterwards.  Under an episode limit the next
    synchronous call sends the worker another [Step]. *)
Theorem sync_episode_limit actions r f i w action env reward dt info :
  wf r → sync_step actions r = Some f →
  terminated r !! i = Some false → parent_conns r !! i = Some w →
  actions !! i = Some action →
  env_step (w_env w) action = (env, (reward, dt, info)) →
  ∃ len ret,
    episode_lengths r !! i = Some len ∧ episode_returns r !! i = Some ret ∧
    (dt = false →
       terminated (self f) !! i = Some false ∧
       sd_terminated (step_data f) !! i = Some [false] ∧
       episode_lengths (self f) !! i = Some (len + 1) ∧
       episode_returns (self f) !! i = Some (ret + reward)) ∧
    (dt = true →
       ∃ limit,
         truthy (dict_get info "episode_limit" (VNum 0)) = Some limit ∧
         terminated (self f) !! i = Some (negb limit) ∧
         sd_terminated (step_data f) !! i = Some [negb limit] ∧
         terminal_record (evaluate r) (len + 1) (ret + reward)
           (delete "individual_rewards" info) ∈ terminated_env_info f ∧
         episode_lengths (self f) !! i = Some 0 ∧
         episode_returns (self f) !! i = Some 0 ∧
         (limit = true →
          ∀ actions' f' action',
            sync_step actions' (self f) = Some f' →
            actions' !! i = Some action' →
            ∃ w', parent_conns (self f') !! i = Some w' ∧
                  w_cmds w' = w_cmds w ++ [CStep action; CStep action'])).
Proof.
  intros Hwf Hrun Ht Hw Hact Hstep.
  destruct (sync_live_view _ _ _ _ _ _ _ _ _ _ Hwf Hrun Ht Hw Hact Hstep)
    as (sl & ir & et & Hsl & <- & Hts & Hir & Het & Hs & He & Hrec).
  apply slot_Some in Hsl as Hsl0. destruct Hsl0 as (_ & _ & _ & Hret & Hlen).
  apply slot_Some in Hs as Hs0. simpl in Hs0.
  destruct Hs0 as (Hc' & Ht' & _ & Hret' & Hlen').
  apply entry_fields in He as (_ & _ & _ & _ & _ & Htm). simpl in Htm.
  exists (sl_length sl), (sl_return sl). split_and!; try done.
  - intros ->. simpl in *. by simplify_eq.
  - intros ->. simpl in *.
    apply env_terminated_of_true in Het as (limit & Hlim & ->).
    rewrite dict_get_popped in Hlim.
    exists limit. split_and!; try done.
    { apply Hrec. by left. }
    intros -> actions' f' action' Hrun' Hact'. simpl in *.
    pose proof (wf_sync_step _ _ _ Hwf Hrun) as Hwf'.
    destruct (env_step env action') as [env' [[reward' dt'] info']] eqn:Hstep'.
    destruct (sync_live_view _ _ _ _ _ _ _ _ _ _ Hwf' Hrun' Ht' Hc' Hact' Hstep')
      as (sl' & ir' & et' & _ & Hcn & _ & _ & _ & Hs' & _).
    apply slot_Some in Hs' as (Hc'' & _). simpl in Hc''.
    eexists; split; [done|]. rewrite Hcn. simpl. by rewrite <- app_assoc.
Qed.

(** C2 (amended).  Asynchronous mode applies the same episode-limit rule as
    synchronous mode to a worker that was stepping: a reply with
    [terminated=true] sets the worker's flag to the negation of the truth
    value of [info.get("episode_limit", False)], so the flag becomes true
    only when the limit is absent or false and stays false under an episode
    limit; a reply with [terminated=false] leaves it false.  On the same
    runner and actions the two modes leave the same flag on the worker. *)
Theorem async_episode_limit actions r f i w action env reward dt info :
  wf r → async_step actions r = Some f →
  terminated r !! i = Some false → parent_conns r !! i = Some w →
  actions !! i = Some action →
  env_step (w_env w) action = (env, (reward, dt, info)) →
  (dt = false →
     terminated (self f) !! i = Some false ∧
     sd_terminated (step_data f) !! i = Some [false]) ∧
  (dt = true →
     ∃ limit,
       truthy (dict_get info "episode_limit" (VNum 0)) = Some limit ∧
       terminated (self f) !! i = Some (negb limit) ∧
       sd_terminated (step_data f) !! i = Some [negb limit]) ∧
  (∀ f_sync, sync_step actions r = Some f_sync →
     terminated (self f_sync) !! i = terminated (self f) !! i).
Proof.
  intros Hwf Hrun Ht Hw Hact Hstep.
  destruct (async_live_view _ _ _ _ _ _ _ _ _ _ Hwf Hrun Ht Hw Hact Hstep)
    as (sl & ir & et & Hsl & <- & Hts & Hir & Het & Hs & He & Hrec).
  apply slot_Some in Hs as (_ & Ht' & _). simpl in Ht'.
  apply entry_fields in He as (_ & _ & _ & _ & _ & Htm). simpl in Htm.
  split_and!.
  - intros ->. simpl in Het. by simplify_eq.
  - intros ->. apply env_terminated_of_true in Het as (limit & Hlim & ->).
    by exists limit.
  - intros f_sync Hsync.
    destruct (sync_live_view _ _ _ _ _ _ _ _ _ _ Hwf Hsync Ht Hw Hact Hstep)
      as (sl' & ir' & et' & _ & _ & _ & _ & Het' & Hs' & _).
    apply slot_Some in Hs' as (_ & Ht'' & _). simpl in Ht''.
    rewrite Ht', Ht''. f_equal.
    unfold env_terminated_of in Het, Het'. rewrite dict_get_popped in Het'.
    congruence.
Qed.

(** C3 (amended).  The record [get_terminated_env_info] returns holds, under
    every key of the counters or of the environment's [info], the sum of the
    two values found there, a missing one counting as zero: a key of one side
    only keeps that side's value, and a key present on both sides holds the
    counter plus the environment's value.  In evaluation mode the keys are
    these keys prefixed with ["test_"] and no other.  Both counters of the
    worker are zero afterwards. *)
Theorem terminal_record_sums env_idx (env_info : gmap string pyval) r record r' :
  get_terminated_env_info env_idx env_info r = Some (record, r') →
  ∃ len ret,
    episode_lengths r !! env_idx = Some len ∧
    episode_returns r !! env_idx = Some ret ∧
    (∀ k, record !! (if evaluate r then test_prefix k else k)
          = merged_value (tracker_get len ret k) (env_info !! k)) ∧
    (evaluate r = true →
     ∀ k', (∀ k, k' ≠ test_prefix k) → record !! k' = None) ∧
    episode_lengths r' !! env_idx = Some 0 ∧
    episode_returns r' !! env_idx = Some 0.
Proof.
  unfold get_terminated_env_info. intros Hrun.
  destruct (episode_lengths r !! env_idx) as [len|] eqn:Hlen;
    simpl in Hrun; [|done].
  destruct (episode_returns r !! env_idx) as [ret|] eqn:Hret;
    simpl in Hrun; [|done].
  simplify_eq. exists len, ret. simpl. split_and!; try done.
  - intros k. destruct (evaluate r).
    + apply terminal_record_lookup_eval.
    + apply terminal_record_lookup.
  - intros ->. apply terminal_record_eval_keys.
  - apply list_lookup_insert_eq. by eapply lookup_lt_Some.
  - apply list_lookup_insert_eq. by eapply lookup_lt_Some.
Qed.

(** C4.  In both modes and whatever the workers' flags, every list of the
    batch a step call returns has exactly N entries, and entry [i] is the
    one of worker [i], settled by that worker's flag, action and
    environment alone.  The entry of a marked worker shows its environment
    after the reset, with reward 0 and [terminated] false, when the call
    resets it (asynchronous mode, or synchronous mode with every worker
    marked), and is the fake entry otherwise.  The entry of a live worker
    shows its environment after the step with its own action, the reward
    and individual rewards of that step, and the worker's new flag.  The
    call does return when every live worker has an action and a well-formed
    reply; when moreover the environments report the shapes of [args],
    every entry has these shapes, so that each list closes into an array
    of N equal-shaped entries. *)
Theorem batch_one_entry_per_worker actions r :
  wf r →
  (inputs_ok actions r → shapes_ok actions r →
   ∃ f, step actions r = Some f ∧
        ∀ i e, entry (step_data f) i = Some e → shaped (args r) e) ∧
  ∀ f, step actions r = Some f →
    length (sd_state (step_data f)) = env_batch_size r ∧
    length (sd_obs (step_data f)) = env_batch_size r ∧
    length (sd_avail_actions (step_data f)) = env_batch_size r ∧
    length (sd_reward (step_data f)) = env_batch_size r ∧
    length (sd_individual_rewards (step_data f)) = env_batch_size r ∧
    length (sd_terminated (step_data f)) = env_batch_size r ∧
    ∀ i, (i < env_batch_size r)%nat →
      ∃ w (t : bool) e,
        parent_conns r !! i = Some w ∧ terminated r !! i = Some t ∧
        entry (step_data f) i = Some e ∧
        if t then
          e = (if a_asynchronous_env (args r) || np_all (terminated r)
               then reset_entry (args r) (reset_reply (env_reset (w_env w)))
               else placeholder (args r))
        else
          ∃ action env reward dt info ir et,
            actions !! i = Some action ∧
            env_step (w_env w) action = (env, (reward, dt, info)) ∧
            info !! "individual_rewards" = Some ir ∧
            env_terminated_of dt info = Some et ∧
            e = {| en_state := get_state env;
                   en_avail_actions := get_avail_actions env;
                   en_obs := get_obs env; en_reward := reward;
                   en_individual_rewards := expand_dims_last ir;
                   en_terminated := et |}.
Proof.
  intros Hwf. pose proof Hwf as [Hsz _]. split.
  - intros Hok Hshapes. destruct (step_total _ _ Hwf Hok) as [f Hrun].
    exists f. split; [done|]. intros i e He.
    destruct (step_exact _ _ _ Hwf Hrun) as ((Hst & _) & effs & _ & _ & _ & Hall).
    assert (i < env_batch_size r)%nat as Hi.
    { rewrite <- Hst. unfold entry in He.
      destruct (sd_state (step_data f) !! i) eqn:Hlook; [|done].
      by eapply lookup_lt_Some. }
    destruct (slot_is_Some _ _ _ Hsz Hi) as [sl Hsl].
    destruct (Hall i sl Hsl) as (eff & _ & _ & Hen & Hshare).
    eapply worker_share_shaped; [done..|congruence].
  - intros f Hrun.
    destruct (step_exact _ _ _ Hwf Hrun)
      as ((?&?&?&?&?&?) & effs & _ & _ & _ & Hall).
    split_and!; try done.
    intros i Hi. destruct (slot_is_Some _ _ _ Hsz Hi) as [sl Hsl].
    destruct (Hall i sl Hsl) as (eff & _ & _ & Hen & Hshare).
    apply slot_Some in Hsl as (Hc & Ht & _).
    exists (sl_conn sl), (sl_terminated sl).
    unfold worker_share in Hshare. destruct (sl_terminated sl).
    + subst eff.
      destruct (a_asynchronous_env (args r)), (np_all (terminated r));
        simpl in Hen; eexists; (split_and!; [done|done|exact Hen|done]).
    + destruct Hshare as (action & env & reward & dt & info & ir & et &
                          ? & ? & ? & ? & ->).
      eexists. split_and!; [done|done|exact Hen|].
      by exists action, env, reward, dt, info, ir, et.
Qed.

(** C5.  A freshly built runner and a runner after [reset_all_env] are
    well formed and have every worker marked terminated.  A synchronous call on such a runner
    returns; it sends every worker exactly one command, [Reset], reads its
    reply, gives every worker reward 0 and terminated false in the batch,
    and leaves every flag false.  A synchronous call on any other runner
    sends no [Reset] at all: each worker gets nothing or one [Step]. *)
Theorem sync_full_reset (a : Args) (eval : bool) actions r :
  wf r →
  (wf (init (Env:=Env) (Action:=Action) a eval) ∧
   np_all (terminated (init (Env:=Env) (Action:=Action) a eval)) = true) ∧
  (wf (reset_all_env r) ∧ np_all (terminated (reset_all_env r)) = true) ∧
  (np_all (terminated r) = true →
   ∃ f, sync_step actions r = Some f ∧
     length (sd_reward (step_data f)) = env_batch_size r ∧
     length (sd_terminated (step_data f)) = env_batch_size r ∧
     ∀ i w, parent_conns r !! i = Some w →
       parent_conns (self f) !! i
         = Some (served w (env_reset (w_env w)) CReset) ∧
       sd_reward (step_data f) !! i = Some [0] ∧
       sd_terminated (step_data f) !! i = Some [false] ∧
       terminated (self f) !! i = Some false) ∧
  (np_all (terminated r) = false →
   ∀ f i w w', sync_step actions r = Some f →
     parent_conns r !! i = Some w → parent_conns (self f) !! i = Some w' →
     w_cmds w' = w_cmds w ∨ ∃ action, w_cmds w' = w_cmds w ++ [CStep action]).
Proof.
  intros Hwf. split_and!.
  - apply wf_init.
  - apply np_all_replicate.
  - by apply wf_reset_all_env.
  - apply np_all_replicate.
  - intros Hall.
    destruct (sync_step_reset_post actions r Hwf Hall) as (f & Hrun & Hpost).
    exists f. pose proof Hpost as (_ & _ & (_&_&_&?&_&?) & _).
    split_and!; try done.
    intros i w Hw. pose proof Hwf as [Hsz _].
    assert (is_Some (terminated r !! i)) as [t Ht].
    { apply lookup_lt_is_Some_2. apply lookup_lt_Some in Hw.
      destruct Hsz as (?&?&_). lia. }
    destruct (sync_reset_view _ _ _ _ _ _ Hwf Hall Hrun Hw Ht)
      as (sl & Hsl & <- & Hs & He).
    apply slot_Some in Hs as (Hc & Ht' & _).
    apply entry_fields in He as (_ & _ & _ & Hrw & _ & Htm).
    by split_and!.
  - intros Hall f i w w' Hrun Hw Hw'. pose proof Hwf as [Hsz _].
    assert (is_Some (terminated r !! i)) as [t Ht].
    { apply lookup_lt_is_Some_2. apply lookup_lt_Some in Hw.
      destruct Hsz as (?&?&_). lia. }
    destruct (slot_of_lookups _ _ _ _ Hwf Hw Ht) as (sl & Hsl & <- & _ & Hout).
    pose proof (sync_step_live_post _ _ _ Hwf Hall Hrun) as Hpost.
    destruct (batch_post_at _ _ _ _ _ _ Hpost Hsl) as (eff & HW & Hs & _).
    apply slot_Some in Hs as (Hc & _). rewrite Hw' in Hc. simplify_eq.
    destruct (sync_worker_cases _ _ _ _ _ _ HW Hout)
      as [[_ ->]|[_ (action&?&?&?&?&?&?&_&_&_&_&->)]]; simpl.
    + by left.
    + right. by exists action.
Qed.

(** C6.  In a synchronous call that finds some worker live, a worker marked
    terminated is sent nothing (the worker, its trace of commands included,
    is unchanged) and its slot of the batch is the fake entry: state and
    observations of zeros, available actions of ones, in the shapes of
    [args], reward 0 and terminated false.  Its flag stays true, so the
    same holds on every later call that still finds a live worker. *)
Theorem sync_skips_terminated actions r f i w :
  wf r → np_all (terminated r) = false → sync_step actions r = Some f →
  terminated r !! i = Some true → parent_conns r !! i = Some w →
  parent_conns (self f) !! i = Some w ∧
  sd_state (step_data f) !! i = Some (replicate (state_shape (args r)) 0) ∧
  sd_obs (step_data f) !! i
    = Some (replicate (n_agents (args r)) (replicate (obs_shape (args r)) 0)) ∧
  sd_avail_actions (step_data f) !! i
    = Some (replicate (n_agents (args r)) (replicate (n_actions (args r)) 1)) ∧
  sd_reward (step_data f) !! i = Some [0] ∧
  sd_terminated (step_data f) !! i = Some [false] ∧
  terminated (self f) !! i = Some true ∧
  ∀ actions' f',
    np_all (terminated (self f)) = false →
    sync_step actions' (self f) = Some f' →
    parent_conns (self f') !! i = Some w ∧
    entry (step_data f') i = Some (placeholder (args r)).
Proof.
  intros Hwf Hall Hrun Ht Hw.
  destruct (sync_skip_view _ _ _ _ _ Hwf Hall Hrun Ht Hw)
    as (sl & Hsl & <- & Hs & He).
  apply slot_Some in Hsl as Hsl0. destruct Hsl0 as (_ & Hts & _).
  apply slot_Some in Hs as (Hc & Ht' & _). simpl in Hc, Ht'.
  apply entry_fields in He as (Hst & Hav & Hob & Hrw & _ & Htm).
  assert (sl_terminated sl = true) as Htrue by congruence.
  rewrite Htrue in Ht'.
  split_and!; try done.
  intros actions' f' Hall' Hrun'.
  pose proof (wf_sync_step _ _ _ Hwf Hrun) as Hwf'.
  destruct (sync_skip_view _ _ _ _ _ Hwf' Hall' Hrun' Ht' Hc)
    as (sl' & _ & Hcn & Hs' & He').
  apply slot_Some in Hs' as (Hc' & _). simpl in Hc'.
  destruct (sync_step_live_post _ _ _ Hwf Hall Hrun) as (_ & (Ha & _) & _).
  rewrite Ha in He'. split; [congruence|done].
Qed.



(** C9 (amended).  After [reset_all_env] every worker is marked terminated
    (so the next synchronous call is a full reset and [alive_env] reports no
    live worker), every per-worker step counter is zero, and the stored
    live-worker counter [live_env] equals the batch size N. *)
Theorem reset_all_marks_everyone r :
  terminated (reset_all_env r) = replicate (env_batch_size r) true ∧
  envs_step (reset_all_env r) = replicate (env_batch_size r) 0 ∧
  live_env (reset_all_env r) = Some (env_batch_size r) ∧
  alive_env (reset_all_env r) = 0%nat ∧
  np_all (terminated (reset_all_env r)) = true.
Proof.
  split_and!; try done.
  - unfold alive_env, reset_all_env; simpl.
    induction (env_batch_size r) as [|n IH]; simpl; [done|].
    rewrite filter_cons. by case_decide.
  - apply np_all_replicate.
Qed.

(** C10.  A synchronous call adds to [env_total_step] the number of workers
    whose flag was false when it started, and nothing when it is a full
    reset; an asynchronous call adds N, one per reply, whether the reply
    answers a [Step] or a [Reset]. *)
Theorem total_step_counting actions r f :
  wf r →
  (sync_step actions r = Some f →
   env_total_step (self f)
   = env_total_step r
     + (if np_all (terminated r) then 0 else Z.of_nat (alive_env r))) ∧
  (async_step actions r = Some f →
   env_total_step (self f) = env_total_step r + Z.of_nat (env_batch_size r)).
Proof.
  intros Hwf. split; intros Hrun.
  - pose proof (sync_step_post _ _ _ Hwf Hrun) as Hpost.
    destruct (np_all (terminated r)).
    + rewrite (batch_post_total _ _ _ (λ _, 0) Hwf Hpost), count_none; [done|].
      intros i sl eff Hsl HW.
      rewrite reset_worker_eq in HW by (by eapply wf_slot_out).
      by simplify_eq.
    + rewrite (batch_post_total _ _ _ (λ t : bool, if t then 0 else 1) Hwf Hpost),
        count_live; [done|].
      intros i sl eff Hsl HW.
      destruct (sync_worker_cases _ _ _ _ _ _ HW (wf_slot_out _ _ _ Hwf Hsl))
        as [[-> ->]|[-> (?&?&?&?&?&?&?&_&_&_&_&->)]]; done.
  - pose proof (async_step_post _ _ _ Hwf Hrun) as Hpost.
    rewrite (batch_post_total _ _ _ (λ _, 1) Hwf Hpost), count_all.
    + destruct Hwf as [(_&->&_) _]. done.
    + intros i sl eff Hsl HW.
      destruct (async_worker_cases _ _ _ _ _ _ HW (wf_slot_out _ _ _ Hwf Hsl))
        as [[_ ->]|[_ (?&?&?&?&?&?&?&_&_&_&_&->)]]; done.
Qed.

End Claims.

(** * The claims on concrete batches *)

Lemma sync_episode_limit_witness :
  match sync_step [9; 9] demo_sync with
  | Some f =>
      limit_info 5 !! "episode_limit" = Some (VNum 1) ∧
      terminated (self f) !! 0%nat = Some false ∧
      sd_terminated (step_data f) !! 0%nat = Some [false] ∧
      episode_lengths (self f) !! 0%nat = Some 0 ∧
      episode_returns (self f) !! 0%nat = Some 0
  | None => False
  end.
Proof.
  destruct (sync_step [9; 9] demo_sync)
    as [f|] eqn:Hrun; [|vm_compute in Hrun; discriminate Hrun].
  destruct (sync_episode_limit [9; 9] demo_sync
              f 0 (idle [limit_reply]) 9 [] 5 true (limit_info 5))
    as (len & ret & _ & _ & _ & Hdone);
    [solve_wf|exact Hrun|reflexivity..|].
  destruct (Hdone eq_refl) as (limit & Hlim & Hflag & Htm & _ & Hl & Hr & _).
  vm_compute in Hlim. injection Hlim as <-.
  split; [reflexivity|]. split; [exact Hflag|]. split; [exact Htm|].
  split; [exact Hl|exact Hr].
Defined.

Lemma async_episode_limit_witness :
  match async_step [9; 9] demo_async with
  | Some f => ∃ limit,
      truthy (dict_get (limit_info 5) "episode_limit" (VNum 0)) = Some limit ∧
      terminated (self f) !! 0%nat = Some (negb limit) ∧
      sd_terminated (step_data f) !! 0%nat = Some [negb limit]
  | None => False
  end.
Proof.
  destruct (async_step [9; 9] demo_async)
    as [f|] eqn:Hrun; [|vm_compute in Hrun; discriminate Hrun].
  destruct (async_episode_limit [9; 9] demo_async
              f 0 (idle [limit_reply]) 9 [] 5 true (limit_info 5))
    as (_ & Hdone & _); [solve_wf|exact Hrun|reflexivity..|].
  exact (Hdone eq_refl).
Defined.

(** The asynchronous call keeps a worker live under an episode limit. *)
Lemma async_episode_limit_counterexample : ¬ async_ignores_episode_limit.
Proof.
  intros Hclaim.
  destruct (async_step [9; 9] demo_async)
    as [f|] eqn:Hrun; [|vm_compute in Hrun; discriminate Hrun].
  assert (terminated (self f) !! 0%nat = Some true) as Hflag.
  { apply (Hclaim [9; 9] demo_async f 0%nat
             (idle [limit_reply]) 9 [] 5 (limit_info 5));
      [solve_wf|exact Hrun|reflexivity..]. }
  vm_compute in Hrun. injection Hrun as <-.
  vm_compute in Hflag. discriminate Hflag.
Qed.

Lemma terminal_record_sums_witness :
  match get_terminated_env_info 0 demo_env_info demo_sync with
  | Some (record, r') =>
      record !! "episode_length" = Some (VNum 8) ∧
      record !! "episode_return" = Some (VNum 10) ∧
      episode_lengths r' !! 0%nat = Some 0
  | None => False
  end.
Proof.
  destruct (get_terminated_env_info 0 demo_env_info demo_sync)
    as [[record r']|] eqn:Hrun; [|discriminate Hrun].
  destruct (terminal_record_sums 0 demo_env_info demo_sync record r' Hrun)
    as (len & ret & Hlen & Hret & Hkeys & _ & Hzero & _).
  simpl in Hlen, Hret, Hkeys.
  injection Hlen as <-. injection Hret as <-.
  split; [|split; [|exact Hzero]].
  - rewrite (Hkeys "episode_length"). vm_compute. reflexivity.
  - rewrite (Hkeys "episode_return"). vm_compute. reflexivity.
Defined.

(** The environment supplies 5 under ["episode_length"], the counter holds
    3, and the record holds 8. *)
Lemma env_info_wins_counterexample : ¬ env_info_wins.
Proof.
  intros Hclaim.
  assert (terminal_record false 3 10 demo_env_info !! "episode_length"
          = Some (VNum 5)) as Hwins.
  { eapply (Hclaim 0%nat demo_env_info demo_sync _ _ "episode_length" (VNum 5));
      [reflexivity|reflexivity|left; reflexivity|vm_compute; reflexivity]. }
  rewrite terminal_record_lookup in Hwins.
  vm_compute in Hwins. discriminate Hwins.
Qed.

Lemma demo_inputs_ok async last :
  reply_ok last → inputs_ok [9; 9] (demo_runner async last).
Proof.
  intros Hok [|[|i]] w Hw Ht; simpl in Hw, Ht; try discriminate.
  injection Hw as <-. exists 9. split; [reflexivity|]. exact Hok.
Qed.

Lemma demo_shaped_inputs_ok : inputs_ok [9; 9] demo_shaped.
Proof.
  intros [|[|i]] w Hw Ht; simpl in Hw, Ht; try discriminate.
  injection Hw as <-. exists 9. split; [reflexivity|].
  split; [eexists; reflexivity|]. intros Hdt. discriminate Hdt.
Qed.

Lemma demo_shaped_shapes_ok : shapes_ok [9; 9] demo_shaped.
Proof.
  intros [|[|i]] w t Hw Ht; simpl in Hw, Ht; try discriminate;
    injection Hw as <-; injection Ht as <-.
  - intros action Hact. simpl in Hact. injection Hact as <-. split.
    + repeat split; repeat constructor.
    + intros ir Hir. vm_compute in Hir. injection Hir as <-.
      exists [5]. split; reflexivity.
  - repeat split; repeat constructor.
Qed.

Lemma batch_one_entry_per_worker_witness :
  ∃ f, step [9; 9] demo_shaped = Some f ∧
    length (sd_state (step_data f)) = 2%nat ∧
    length (sd_reward (step_data f)) = 2%nat ∧
    entry (step_data f) 0
      = Some {| en_state := [0]; en_avail_actions := [[1]]; en_obs := [[0]];
                en_reward := 5; en_individual_rewards := A2 [[5]];
                en_terminated := false |} ∧
    entry (step_data f) 1 = Some (placeholder demo_shaped_args) ∧
    ∀ i e, entry (step_data f) i = Some e → shaped demo_shaped_args e.
Proof.
  destruct (batch_one_entry_per_worker [9; 9] demo_shaped)
    as [Htotal Hbatch]; [solve_wf|].
  destruct (Htotal demo_shaped_inputs_ok demo_shaped_shapes_ok)
    as (f & Hrun & Hshape).
  destruct (Hbatch f Hrun) as (Hst & _ & _ & Hrw & _ & _ & Hentries).
  exists f. split; [exact Hrun|]. split; [exact Hst|]. split; [exact Hrw|].
  split; [|split; [|exact Hshape]].
  - destruct (Hentries 0%nat) as (w & t & e & Hw & Ht & He & Hcase);
      [simpl; lia|].
    simpl in Hw, Ht. injection Hw as <-. injection Ht as <-.
    destruct Hcase as (action & env & reward & dt & info & ir & et &
                       Hact & Hstep & Hir & Het & ->).
    simpl in Hact. injection Hact as <-.
    simpl in Hstep. injection Hstep as <- <- <- <-.
    vm_compute in Hir. injection Hir as <-.
    simpl in Het. injection Het as <-. exact He.
  - destruct (Hentries 1%nat) as (w & t & e & Hw & Ht & He & Hcase);
      [simpl; lia|].
    simpl in Hw, Ht. injection Hw as <-. injection Ht as <-.
    simpl in Hcase. subst e. exact He.
Defined.

Lemma sync_full_reset_witness :
  ∃ f, sync_step [] (init (demo_args false) false) = Some f ∧
       length (sd_reward (step_data f)) = 2%nat ∧
       sd_reward (step_data f) !! 1%nat = Some [0] ∧
       sd_terminated (step_data f) !! 1%nat = Some [false] ∧
       terminated (self f) !! 1%nat = Some false.
Proof.
  destruct (sync_full_reset (demo_args false) false []
              (init (demo_args false) false))
    as (_ & _ & Hreset & _); [apply wf_init|].
  destruct (Hreset eq_refl) as (f & Hrun & Hlen & _ & Hall).
  exists f. split; [exact Hrun|]. split; [exact Hlen|].
  destruct (Hall 1%nat (idle (env_fn (7 + 1))) eq_refl) as (_ & Hrw & Htm & Ht).
  split; [exact Hrw|]. split; [exact Htm|exact Ht].
Defined.

Lemma sync_skips_terminated_witness :
  match sync_step [9; 9] demo_sync with
  | Some f =>
      parent_conns (self f) !! 1%nat = Some (idle []) ∧
      sd_state (step_data f) !! 1%nat = Some [0; 0; 0; 0] ∧
      sd_avail_actions (step_data f) !! 1%nat = Some [[1; 1; 1]; [1; 1; 1]] ∧
      sd_reward (step_data f) !! 1%nat = Some [0] ∧
      terminated (self f) !! 1%nat = Some true
  | None => False
  end.
Proof.
  destruct (sync_step [9; 9] demo_sync)
    as [f|] eqn:Hrun; [|vm_compute in Hrun; discriminate Hrun].
  destruct (sync_skips_terminated [9; 9]
              demo_sync f 1 (idle []))
    as (Hc & Hst & _ & Hav & Hrw & _ & Ht & _);
    [solve_wf|reflexivity|exact Hrun|reflexivity..|].
  split; [exact Hc|]. split; [exact Hst|]. split; [exact Hav|].
  split; [exact Hrw|exact Ht].
Defined.




(** The stored counter is the batch size, here 2. *)
Lemma reset_all_zeroes_live_counter_counterexample :
  ¬ reset_all_zeroes_live_counter.
Proof.
  intros Hclaim.
  destruct (Hclaim demo_sync) as [_ Hlive];
    [solve_wf|].
  vm_compute in Hlive. discriminate Hlive.
Qed.

Lemma total_step_counting_witness :
  match sync_step [9; 9] demo_sync with
  | Some f => env_total_step (self f) = 41
  | None => False
  end ∧
  match async_step [9; 9] demo_async with
  | Some f => env_total_step (self f) = 42
  | None => False
  end.
Proof.
  split.
  - destruct (sync_step [9; 9] demo_sync)
      as [f|] eqn:Hrun; [|vm_compute in Hrun; discriminate Hrun].
    destruct (total_step_counting [9; 9]
                demo_sync f) as [Hsync _];
      [solve_wf|].
    exact (Hsync Hrun).
  - destruct (async_step [9; 9] demo_async)
      as [f|] eqn:Hrun; [|vm_compute in Hrun; discriminate Hrun].
    destruct (total_step_counting [9; 9]
                demo_async f) as [_ Hasync];
      [solve_wf|].
    exact (Hasync Hrun).
Defined.

(** * Further properties of the runner *)

Section RunnerProperties.
Context {Env Action : Type} `{!Environment Env Action}.
Implicit Types (r : Runner Env Action) (f : Frame Env Action).
Implicit Types (sl : Slot Env Action) (eff : Effect Env Action).
Implicit Types (actions : list Action) (w : Worker Env Action).

Lemma step_keeps_wf actions r f :
  wf r → step actions r = Some f → wf (self f) ∧ same_config r (self f).
Proof.
  intros Hwf Hrun. split.
  - unfold step in Hrun. destruct (a_asynchronous_env (args r)).
    + by eapply wf_async_step.
    + by eapply wf_sync_step.
  - destruct (step_post _ _ _ Hwf Hrun) as (W & (_ & Hcfg & _)). done.
Qed.

(** X1.  Whatever sequence of [step] calls a caller makes, as long as none
    raises: the five per-worker arrays keep one position per worker, no
    reply is left unread on any pipe, and [args], [evaluate],
    [env_batch_size] and [live_env] are never assigned. *)
Theorem run_keeps_runner_well_formed (batches : list (list Action)) r r' :
  wf r → run batches r = Some r' →
  wf r' ∧ args r' = args r ∧ evaluate r' = evaluate r ∧
  env_batch_size r' = env_batch_size r ∧ live_env r' = live_env r.
Proof.
  revert r. induction batches as [|actions rest IH]; intros r Hwf Hrun;
    simpl in Hrun.
  - by simplify_eq.
  - destruct (step actions r) as [f|] eqn:Hstep; simpl in Hrun; [|done].
    destruct (step_keeps_wf _ _ _ Hwf Hstep) as (Hwf' & Ha & He & Hn & Hl).
    destruct (IH _ Hwf' Hrun) as (? & ? & ? & ? & ?).
    split_and!; [done|congruence..].
Qed.

Lemma alive_le (l l' : list bool) :
  length l = length l' →
  (∀ i, l !! i = Some true → l' !! i = Some true) →
  (length (filter (λ t, t = false) l') ≤ length (filter (λ t, t = false) l))%nat.
Proof.
  revert l'. induction l as [|t l IH]; intros [|t' l'] Hlen Hpt;
    simpl in *; try done.
  rewrite !filter_cons.
  assert (length (filter (λ t, t = false) l')
          ≤ length (filter (λ t, t = false) l))%nat as Hrest.
  { apply IH; [lia|]. intros i. apply (Hpt (S i)). }
  destruct t.
  - specialize (Hpt 0%nat eq_refl). simpl in Hpt. simplify_eq.
    repeat case_decide; try done.
  - repeat case_decide; simpl; try done; lia.
Qed.

Lemma alive_all_false (l : list bool) :
  (∀ i t, l !! i = Some t → t = false) →
  length (filter (λ t, t = false) l) = length l.
Proof.
  induction l as [|t l IH]; intros Hpt; [done|].
  rewrite filter_cons. rewrite (Hpt 0%nat t eq_refl).
  rewrite decide_True by done. simpl. f_equal. apply IH.
  intros i. apply (Hpt (S i)).
Qed.

Lemma alive_complement (l l' : list bool) :
  length l = length l' →
  (∀ i, l !! i = Some true → l' !! i = Some false) →
  (length l ≤ length (filter (λ t, t = false) l')
              + length (filter (λ t, t = false) l))%nat.
Proof.
  revert l'. induction l as [|t l IH]; intros [|t' l'] Hlen Hpt;
    simpl in *; try done.
  rewrite !filter_cons.
  assert (length l ≤ length (filter (λ t, t = false) l')
                     + length (filter (λ t, t = false) l))%nat as Hrest.
  { apply IH; [lia|]. intros i. apply (Hpt (S i)). }
  destruct t.
  - specialize (Hpt 0%nat eq_refl). simpl in Hpt. simplify_eq.
    repeat case_decide; simpl; try done; lia.
  - repeat case_decide; simpl; try done; lia.
Qed.

(** One synchronous call that steps leaves every marked worker as it is. *)
Lemma sync_call_keeps_marked actions r f i :
  wf r → np_all (terminated r) = false → sync_step actions r = Some f →
  terminated r !! i = Some true →
  terminated (self f) !! i = Some true ∧
  parent_conns (self f) !! i = parent_conns r !! i.
Proof.
  intros Hwf Hall Hrun Ht. pose proof Hwf as [Hsz _].
  assert (is_Some (parent_conns r !! i)) as [w Hw].
  { apply lookup_lt_is_Some_2. apply lookup_lt_Some in Ht.
    destruct Hsz as (?&?&_). lia. }
  destruct (sync_skip_view _ _ _ _ _ Hwf Hall Hrun Ht Hw)
    as (sl & Hsl & <- & Hs & _).
  apply slot_Some in Hsl as (_ & Hts & _).
  apply slot_Some in Hs as (Hc & Ht' & _). simpl in Hc, Ht'.
  split; congruence.
Qed.

Lemma sync_stepping_inv r r' :
  wf r → sync_stepping r r' →
  wf r' ∧ env_batch_size r' = env_batch_size r ∧
  ∀ i, terminated r !! i = Some true →
    terminated r' !! i = Some true ∧
    parent_conns r' !! i = parent_conns r !! i.
Proof.
  intros Hwf Hsteps. induction Hsteps as [r|r actions f r' Hall Hrun _ IH].
  - split_and!; [done|done|by intros].
  - pose proof (wf_sync_step _ _ _ Hwf Hrun) as Hwf'.
    destruct (IH Hwf') as (Hwf'' & Hn & Hkeep).
    destruct (sync_step_live_post _ _ _ Hwf Hall Hrun)
      as (_ & (_ & _ & Hn' & _) & _).
    split_and!; [done|congruence|].
    intros i Ht.
    destruct (sync_call_keeps_marked _ _ _ _ Hwf Hall Hrun Ht) as [Ht' Hc].
    destruct (Hkeep i Ht') as [? ?]. split; congruence.
Qed.

(** X2.  Over any number of synchronous calls that step (none being a full
    reset), a worker that is marked terminated stays marked and is never
    sent anything: its pipe end, trace of commands included, is what it was.
    So the number of live workers [alive_env] never grows between two full
    resets. *)
Theorem sync_stepping_never_revives r r' :
  wf r → sync_stepping r r' →
  (∀ i, terminated r !! i = Some true →
     terminated r' !! i = Some true ∧
     parent_conns r' !! i = parent_conns r !! i) ∧
  (alive_env r' ≤ alive_env r)%nat.
Proof.
  intros Hwf Hsteps.
  destruct (sync_stepping_inv _ _ Hwf Hsteps) as (Hwf' & Hn & Hkeep).
  split; [done|].
  unfold alive_env. apply alive_le.
  - destruct Hwf as [(_&->&_) _], Hwf' as [(_&->&_) _]. done.
  - intros i Ht. by apply Hkeep.
Qed.

(** X3.  A synchronous call that finds every worker marked leaves all N
    workers live; an asynchronous call leaves live every worker it found
    marked, so no worker is marked after two calls in a row and the live
    workers before and after a call together number at least N. *)
Theorem calls_revive_marked_workers actions r f :
  wf r →
  (np_all (terminated r) = true → sync_step actions r = Some f →
   alive_env (self f) = env_batch_size r) ∧
  (async_step actions r = Some f →
   (∀ i, terminated r !! i = Some true → terminated (self f) !! i = Some false) ∧
   (env_batch_size r ≤ alive_env (self f) + alive_env r)%nat).
Proof.
  intros Hwf. pose proof Hwf as [Hsz _]. split.
  - intros Hall Hrun.
    destruct (sync_step_reset_post actions r Hwf Hall) as (f' & Hrun' & Hpost).
    simplify_eq. pose proof Hpost as ((_ & Hlen & _) & _).
    unfold alive_env. rewrite alive_all_false; [done|].
    intros i t Ht.
    assert (i < env_batch_size r)%nat as Hi.
    { apply lookup_lt_Some in Ht. lia. }
    destruct (slot_is_Some _ _ _ Hsz Hi) as [sl Hsl].
    destruct (batch_post_at _ _ _ _ _ _ Hpost Hsl) as (eff & HW & Hs & _).
    rewrite reset_worker_eq in HW by (by eapply wf_slot_out).
    simplify_eq. apply slot_Some in Hs as (_ & Ht' & _). simpl in Ht'.
    congruence.
  - intros Hrun.
    assert (∀ i, terminated r !! i = Some true →
              terminated (self f) !! i = Some false) as Hpt.
    { intros i Ht.
      assert (is_Some (parent_conns r !! i)) as [w Hw].
      { apply lookup_lt_is_Some_2. apply lookup_lt_Some in Ht.
        destruct Hsz as (?&?&_). lia. }
      destruct (async_reset_view _ _ _ _ _ Hwf Hrun Ht Hw)
        as (sl & _ & _ & Hs & _).
      by apply slot_Some in Hs as (_ & Ht' & _). }
    split; [done|].
    pose proof (async_step_post _ _ _ Hwf Hrun) as ((_ & Hlen & _) & _).
    destruct Hsz as (_ & Hlen0 & _).
    unfold alive_env. rewrite <- Hlen0.
    apply alive_complement; [lia|done].
Qed.

(** X4.  The terminal record of a worker that answers [terminated] differs
    between the modes in one key: synchronous mode pops
    ["individual_rewards"] from [info] before building the record, so the
    record has no such key; asynchronous mode only reads it, so the record
    carries the environment's individual rewards under that key (prefixed
    in evaluation mode like every other key). *)
Theorem record_individual_rewards_by_mode actions r i w action env reward info
    len ret :
  wf r → terminated r !! i = Some false → parent_conns r !! i = Some w →
  actions !! i = Some action →
  env_step (w_env w) action = (env, (reward, true, info)) →
  episode_lengths r !! i = Some len → episode_returns r !! i = Some ret →
  (∀ f, sync_step actions r = Some f →
     ∃ record, record ∈ terminated_env_info f ∧
       record = terminal_record (evaluate r) (len + 1) (ret + reward)
                  (delete "individual_rewards" info) ∧
       record !! (if evaluate r then test_prefix "individual_rewards"
                  else "individual_rewards") = None) ∧
  (∀ f, async_step actions r = Some f →
     ∃ record ir, record ∈ terminated_env_info f ∧
       record = terminal_record (evaluate r) (len + 1) (ret + reward) info ∧
       info !! "individual_rewards" = Some ir ∧
       record !! (if evaluate r then test_prefix "individual_rewards"
                  else "individual_rewards") = Some ir).
Proof.
  intros Hwf Ht Hw Hact Hstep Hlen Hret. split; intros f Hrun.
  - destruct (sync_live_view _ _ _ _ _ _ _ _ _ _ Hwf Hrun Ht Hw Hact Hstep)
      as (sl & ir & et & Hsl & <- & _ & _ & _ & _ & _ & Hrec).
    apply slot_Some in Hsl as (_ & _ & _ & Hr0 & Hl0).
    assert (sl_length sl = len) as Hl by congruence.
    assert (sl_return sl = ret) as Hr by congruence.
    eexists. split; [apply Hrec; left|]. rewrite Hl, Hr. split; [done|].
    destruct (evaluate r).
    + rewrite terminal_record_lookup_eval, lookup_delete_eq. done.
    + rewrite terminal_record_lookup, lookup_delete_eq. done.
  - destruct (async_live_view _ _ _ _ _ _ _ _ _ _ Hwf Hrun Ht Hw Hact Hstep)
      as (sl & ir & et & Hsl & <- & _ & Hir & _ & _ & _ & Hrec).
    apply slot_Some in Hsl as (_ & _ & _ & Hr0 & Hl0).
    assert (sl_length sl = len) as Hl by congruence.
    assert (sl_return sl = ret) as Hr by congruence.
    eexists _, ir. split; [apply Hrec; left|]. rewrite Hl, Hr.
    split; [done|]. split; [done|].
    destruct (evaluate r).
    + rewrite terminal_record_lookup_eval, Hir. done.
    + rewrite terminal_record_lookup, Hir. done.
Qed.

(** X5.  The first [step] call on a freshly built runner, in either mode
    and whatever the actions.  It returns; it sends every worker one
    [reset] and nothing else; entry [i] of the batch shows the environment
    built with seed [seed + i] as its reset leaves it, with reward 0 and
    [terminated] false; every worker is live afterwards, no record is
    emitted and both counters of every worker are still zero.
    [env_total_step] is then N in asynchronous mode and 0 in synchronous
    mode. *)
Theorem first_call_resets_seeded_workers (a : Args) (eval : bool) actions :
  let r := init (Env:=Env) (Action:=Action) a eval in
  (0 < env_batch_size r)%nat →
  ∃ f, step actions r = Some f ∧
    terminated_env_info f = [] ∧
    env_total_step (self f)
      = (if a_asynchronous_env a then Z.of_nat (env_batch_size r) else 0) ∧
    alive_env (self f) = env_batch_size r ∧
    ∀ i, (i < env_batch_size r)%nat →
      let env := env_reset (env_fn (a_seed a + Z.of_nat i)) in
      entry (step_data f) i = Some (reset_entry a (reset_reply env)) ∧
      parent_conns (self f) !! i
        = Some {| w_env := env; w_out := []; w_cmds := [CReset] |} ∧
      terminated (self f) !! i = Some false ∧
      episode_lengths (self f) !! i = Some 0 ∧
      episode_returns (self f) !! i = Some 0.
Proof.
  intros r _.
  set (n := env_batch_size r).
  set (steps := if a_asynchronous_env a then 1 else 0).
  pose proof (wf_init (Env:=Env) (Action:=Action) a eval) as Hwf.
  fold r in Hwf. pose proof Hwf as [Hsz _].
  assert (np_all (terminated r) = true) as Hall by apply np_all_replicate.
  assert (inputs_ok actions r) as Hok.
  { intros i w _ Ht. by pose proof (np_all_true_at _ _ _ Hall Ht). }
  destruct (step_total _ _ Hwf Hok) as [f Hrun]. exists f. split; [done|].
  destruct (step_keeps_wf _ _ _ Hwf Hrun) as [[Hszf _] (_ & _ & Hn & _)].
  rewrite Hn in Hszf.
  destruct (step_exact _ _ _ Hwf Hrun)
    as (_ & effs & Hlen & Hinfo & Htot & Hslots).
  assert (∀ i, (i < n)%nat →
            ∃ sl, slot r i = Some sl ∧
              sl_conn sl = fresh_worker (a_seed a + Z.of_nat i) ∧
              sl_return sl = 0 ∧ sl_length sl = 0 ∧
              effs !! i = Some (reset_effect a sl steps) ∧
              slot (self f) i = Some (ef_slot (reset_effect a sl steps)) ∧
              entry (step_data f) i = ef_entry (reset_effect a sl steps))
    as Hshare.
  { intros i Hi. destruct (slot_is_Some _ _ _ Hsz Hi) as [sl Hsl].
    destruct (Hslots i sl Hsl) as (eff & He & Hs & Hen & Hw).
    pose proof Hsl as (Hc & Ht & _ & Hr & Hl)%slot_Some.
    unfold worker_share in Hw.
    rewrite (np_all_true_at _ _ _ Hall Ht), Hall in Hw.
    assert (eff = reset_effect a sl steps) as ->.
    { subst eff steps. simpl. by destruct (a_asynchronous_env a). }
    exists sl. split_and!; try done.
    - simpl in Hc. rewrite list_lookup_fmap, lookup_seq_lt in Hc by done.
      simpl in Hc. by injection Hc as <-.
    - simpl in Hr. apply lookup_replicate in Hr as [? _]. done.
    - simpl in Hl. apply lookup_replicate in Hl as [? _]. done. }
  assert (∀ i eff, effs !! i = Some eff →
            ef_records eff = [] ∧ ef_steps eff = steps) as Heffs.
  { intros i eff He.
    assert (i < n)%nat as Hi by (apply lookup_lt_Some in He; unfold n; lia).
    destruct (Hshare i Hi) as (sl & _ & _ & _ & _ & He' & _).
    rewrite He in He'. by injection He' as ->. }
  split_and!.
  - rewrite Hinfo. apply concat_all_nil.
    intros eff [i Hi]%list_elem_of_lookup. by destruct (Heffs i eff Hi).
  - rewrite Htot.
    rewrite (total_steps_pointwise effs (terminated r) (λ _, steps)).
    + simpl env_total_step. unfold steps.
      destruct (a_asynchronous_env a).
      * rewrite count_all. destruct Hsz as (_ & -> & _). lia.
      * rewrite count_none. lia.
    + destruct Hsz as (_ & -> & _). done.
    + intros i eff t He _. by destruct (Heffs i eff He).
  - unfold alive_env. rewrite alive_all_false.
    + by destruct Hszf as (_ & ? & _).
    + intros i t Ht.
      assert (i < n)%nat as Hi.
      { apply lookup_lt_Some in Ht. destruct Hszf as (_ & Hlt & _).
        unfold n. simpl in *. lia. }
      destruct (Hshare i Hi) as (sl & _ & _ & _ & _ & _ & Hs & _).
      apply slot_Some in Hs as (_ & Ht' & _). simpl in Ht'. congruence.
  - intros i Hi env.
    destruct (Hshare i Hi) as (sl & _ & Hc & Hr & Hl & _ & Hs & Hen).
    apply slot_Some in Hs as (Hc' & Ht' & _ & Hr' & Hl'). simpl in *.
    rewrite Hc in *. split_and!; try done; congruence.
Qed.


(** A live worker whose answer does not say terminated, in either mode. *)
Lemma step_live_goes_on actions r f i w action len ret :
  wf r → step actions r = Some f →
  terminated r !! i = Some false → parent_conns r !! i = Some w →
  actions !! i = Some action →
  (env_step (w_env w) action).2.1.2 = false →
  episode_lengths r !! i = Some len → episode_returns r !! i = Some ret →
  terminated (self f) !! i = Some false ∧
  parent_conns (self f) !! i
    = Some (served w (env_step (w_env w) action).1 (CStep action)) ∧
  episode_lengths (self f) !! i = Some (len + 1) ∧
  episode_returns (self f) !! i
    = Some (ret + (env_step (w_env w) action).2.1.1).
Proof.
  intros Hwf Hrun Ht Hw Hact Hdt Hlen Hret.
  destruct (env_step (w_env w) action) as [env [[reward dt] info]] eqn:Hstep.
  simpl in *. subst dt.
  assert (∃ sl info' ir et,
            slot r i = Some sl ∧ sl_conn sl = w ∧
            env_terminated_of false info = Some et ∧
            slot (self f) i
            = Some (ef_slot (step_effect (evaluate r) sl action env reward
                               false info' ir et))) as Hview.
  { unfold step in Hrun. destruct (a_asynchronous_env (args r)).
    - destruct (async_live_view _ _ _ _ _ _ _ _ _ _ Hwf Hrun Ht Hw Hact Hstep)
        as (sl & ir & et & ? & ? & _ & _ & ? & ? & _).
      by exists sl, info, ir, et.
    - destruct (sync_live_view _ _ _ _ _ _ _ _ _ _ Hwf Hrun Ht Hw Hact Hstep)
        as (sl & ir & et & ? & ? & _ & _ & Het & ? & _).
      rewrite env_terminated_of_popped in Het.
      by exists sl, (delete "individual_rewards" info), ir, et. }
  destruct Hview as (sl & info' & ir & et & Hsl & <- & Het & Hs).
  simpl in Het. simplify_eq.
  apply slot_Some in Hsl as (_ & _ & _ & Hr0 & Hl0).
  apply slot_Some in Hs as (Hc & Ht' & _ & Hr1 & Hl1). simpl in *.
  split_and!; congruence.
Qed.

(** X6.  A live worker whose environment never answers [terminated] over a
    run of [step] calls, in either mode: it is sent exactly its own action
    of each call, in order, and nothing else; it stays live; its episode
    length grows by the number of calls, and its episode return is the
    old one with the rewards its environment paid added one by one, in the
    order they were paid. *)
Theorem live_worker_accumulates (batches : list (list Action)) r r' i w
    (acts : list Action) len ret :
  wf r → run batches r = Some r' →
  terminated r !! i = Some false → parent_conns r !! i = Some w →
  episode_lengths r !! i = Some len → episode_returns r !! i = Some ret →
  Forall2 (λ actions a, actions !! i = Some a) batches acts →
  env_goes_on (w_env w) acts = true →
  terminated r' !! i = Some false ∧
  parent_conns r' !! i
    = Some {| w_env := env_after (w_env w) acts; w_out := [];
              w_cmds := w_cmds w ++ (CStep <$> acts) |} ∧
  episode_lengths r' !! i = Some (len + Z.of_nat (length batches)) ∧
  episode_returns r' !! i
    = Some (accumulate ret (env_rewards (w_env w) acts)).
Proof.
  intros Hwf Hrun Ht Hw Hlen Hret Hacts. revert r w len ret Hwf Hrun Ht Hw Hlen Hret.
  induction Hacts as [|actions a rest acts Ha _ IH];
    intros r w len ret Hwf Hrun Ht Hw Hlen Hret Hon; simpl in *.
  - injection Hrun as <-. rewrite app_nil_r, Z.add_0_r.
    destruct (slot_of_lookups _ _ _ _ Hwf Hw Ht) as (sl & _ & _ & _ & Ho).
    split_and!; try done. rewrite Hw. f_equal. destruct w; simpl in *.
    by subst.
  - destruct (step actions r) as [f|] eqn:Hstep; simpl in Hrun; [|done].
    apply andb_true_iff in Hon as [Hdt Hon].
    apply negb_true_iff in Hdt.
    destruct (step_live_goes_on _ _ _ _ _ _ _ _ Hwf Hstep Ht Hw Ha Hdt Hlen Hret)
      as (Ht' & Hw' & Hlen' & Hret').
    destruct (step_keeps_wf _ _ _ Hwf Hstep) as [Hwf' _].
    destruct (IH _ _ _ _ Hwf' Hrun Ht' Hw' Hlen' Hret' Hon)
      as (Ht'' & Hw'' & Hlen'' & Hret'').
    split_and!; [done| | |].
    + rewrite Hw''. simpl. by rewrite <- app_assoc.
    + rewrite Hlen''. f_equal. lia.
    + exact Hret''.
Qed.

Lemma lists_same_by_slot {A} (n : nat) (l l' : list A) :
  length l = n → length l' = n →
  (∀ i, (i < n)%nat → l !! i = l' !! i) → l = l'.
Proof.
  intros Hl Hl' Hpt. apply list_eq. intros i.
  destruct (decide (i < n)%nat) as [Hi|Hi]; [by apply Hpt|].
  rewrite !lookup_ge_None_2 by lia. done.
Qed.

(** Two frames over the same runner whose per-worker effects agree on slot,
    entry and records hold the same arrays, batch and records. *)
Lemma batch_post_same n W W' r f f' :
  sized n r → batch_post n W r f → batch_post n W' r f' →
  (∀ i sl eff eff', slot r i = Some sl → W i sl = Some eff →
     W' i sl = Some eff' →
     ef_slot eff = ef_slot eff' ∧ ef_entry eff = ef_entry eff' ∧
     is_Some (ef_entry eff) ∧ ef_records eff = ef_records eff') →
  parent_conns (self f) = parent_conns (self f') ∧
  terminated (self f) = terminated (self f') ∧
  envs_step (self f) = envs_step (self f') ∧
  episode_returns (self f) = episode_returns (self f') ∧
  episode_lengths (self f) = episode_lengths (self f') ∧
  step_data f = step_data f' ∧
  terminated_env_info f = terminated_env_info f'.
Proof.
  intros Hsz (Hs1 & _ & Hd1 & effs & Hl1 & Hall1 & Hi1 & _)
             (Hs2 & _ & Hd2 & effs' & Hl2 & Hall2 & Hi2 & _) Hsame.
  assert (∀ i, (i < n)%nat →
            slot (self f) i = slot (self f') i ∧
            entry (step_data f) i = entry (step_data f') i ∧
            is_Some (entry (step_data f) i) ∧
            ef_records <$> effs !! i = ef_records <$> effs' !! i) as Hpt.
  { intros i Hi. destruct (slot_is_Some _ _ _ Hsz Hi) as [sl Hsl].
    destruct (Hall1 i sl Hsl) as (eff & HW & He & Hs & Hen).
    destruct (Hall2 i sl Hsl) as (eff' & HW' & He' & Hs' & Hen').
    destruct (Hsame i sl eff eff' Hsl HW HW') as (E1 & E2 & E3 & E4).
    rewrite Hs, Hs', Hen, Hen', He, He', E1, E2, <- E2. simpl.
    by rewrite E4. }
  destruct Hs1 as (?&?&?&?&?), Hs2 as (?&?&?&?&?).
  assert (∀ i sl sl', (i < n)%nat → slot (self f) i = Some sl →
            slot (self f') i = Some sl' → sl = sl') as Hinj.
  { intros i sl sl' Hi Ha Hb. destruct (Hpt i Hi) as (E & _). congruence. }
  assert (∀ i, (i < n)%nat → ∃ sl, slot (self f) i = Some sl ∧
                                   slot (self f') i = Some sl) as Hsl.
  { intros i Hi.
    destruct (slot_is_Some n (self f) i) as [sl Hs]; [by repeat split|done|].
    exists sl. split; [done|]. destruct (Hpt i Hi) as (<- & _). done. }
  split_and!.
  - apply (lists_same_by_slot n); [done..|]. intros i Hi.
    destruct (Hsl i Hi) as (sl & (?&_)%slot_Some & (?&_)%slot_Some). congruence.
  - apply (lists_same_by_slot n); [done..|]. intros i Hi.
    destruct (Hsl i Hi) as (sl & (_&?&_)%slot_Some & (_&?&_)%slot_Some).
    congruence.
  - apply (lists_same_by_slot n); [done..|]. intros i Hi.
    destruct (Hsl i Hi) as (sl & (_&_&?&_)%slot_Some & (_&_&?&_)%slot_Some).
    congruence.
  - apply (lists_same_by_slot n); [done..|]. intros i Hi.
    destruct (Hsl i Hi) as (sl & (_&_&_&?&_)%slot_Some & (_&_&_&?&_)%slot_Some).
    congruence.
  - apply (lists_same_by_slot n); [done..|]. intros i Hi.
    destruct (Hsl i Hi) as (sl & (_&_&_&_&?)%slot_Some & (_&_&_&_&?)%slot_Some).
    congruence.
  - assert (∀ i, (i < n)%nat → ∃ e, entry (step_data f) i = Some e ∧
                                    entry (step_data f') i = Some e) as Hen.
    { intros i Hi. destruct (Hpt i Hi) as (_ & E & [e He] & _).
      exists e. split; [done|congruence]. }
    destruct Hd1 as (?&?&?&?&?&?), Hd2 as (?&?&?&?&?&?).
    destruct (step_data f) as [a1 a2 a3 a4 a5 a6],
             (step_data f') as [b1 b2 b3 b4 b5 b6]; simpl in *.
    f_equal; apply (lists_same_by_slot n); try done; intros i Hi;
      destruct (Hen i Hi)
        as (e & (?&?&?&?&?&?)%entry_fields & (?&?&?&?&?&?)%entry_fields);
      simpl in *; congruence.
  - rewrite Hi1, Hi2. f_equal.
    apply (lists_same_by_slot n); [by rewrite length_fmap..|].
    intros i Hi. rewrite !list_lookup_fmap. by destruct (Hpt i Hi) as (_&_&_&?).
Qed.


(** X7.  On a runner whose workers are all marked terminated (a fresh one,
    or one after [reset_all_env]) both algorithms return whatever the
    actions, and they return the same batch, no record, and the same
    per-worker state; they differ only in [env_total_step], which the
    synchronous call leaves alone and the asynchronous call raises by N. *)
Theorem all_marked_same_in_both_modes actions r :
  wf r → np_all (terminated r) = true →
  ∃ fs fa,
    sync_step actions r = Some fs ∧ async_step actions r = Some fa ∧
    step_data fa = step_data fs ∧
    terminated_env_info fs = [] ∧ terminated_env_info fa = [] ∧
    parent_conns (self fa) = parent_conns (self fs) ∧
    terminated (self fa) = terminated (self fs) ∧
    envs_step (self fa) = envs_step (self fs) ∧
    episode_returns (self fa) = episode_returns (self fs) ∧
    episode_lengths (self fa) = episode_lengths (self fs) ∧
    env_total_step (self fs) = env_total_step r ∧
    env_total_step (self fa) = env_total_step r + Z.of_nat (env_batch_size r).
Proof.
  intros Hwf Hall. pose proof Hwf as [Hsz _].
  assert (∀ i sl, slot r i = Some sl →
            sl_terminated sl = true ∧ w_out (sl_conn sl) = []) as Hmarked.
  { intros i sl Hsl. split; [|by eapply wf_slot_out].
    apply slot_Some in Hsl as (_ & Ht & _). by eapply np_all_true_at. }
  destruct (sync_step_reset_post actions r Hwf Hall) as (fs & Hs & Hps).
  destruct (async_step_total actions r Hwf) as [fa Ha].
  { intros i sl Hsl. destruct (Hmarked i sl Hsl) as [? ?].
    rewrite async_worker_reset by done. by eexists. }
  pose proof (async_step_post _ _ _ Hwf Ha) as Hpa.
  exists fs, fa.
  destruct (batch_post_same _ _ _ _ _ _ Hsz Hpa Hps)
    as (? & ? & ? & ? & ? & ? & Hinfo).
  { intros i sl eff eff' Hsl HW HW'. destruct (Hmarked i sl Hsl) as [? ?].
    rewrite async_worker_reset in HW by done.
    rewrite reset_worker_eq in HW' by done. simplify_eq.
    split_and!; try done; by eexists. }
  assert (terminated_env_info fs = []) as Hnone.
  { pose proof Hps as (_ & _ & _ & effs & Hlen & Halls & -> & _).
    apply concat_all_nil. intros eff [i Hi]%list_elem_of_lookup.
    assert (i < env_batch_size r)%nat as Hlt.
    { apply lookup_lt_Some in Hi. lia. }
    destruct (slot_is_Some _ _ _ Hsz Hlt) as [sl Hsl].
    destruct (Halls i sl Hsl) as (eff' & HW & He & _).
    destruct (Hmarked i sl Hsl) as [? ?].
    rewrite reset_worker_eq in HW by done. by simplify_eq. }
  assert (env_total_step (self fs) = env_total_step r) as Hts.
  { rewrite (batch_post_total _ _ _ (λ _, 0) Hwf Hps), count_none; [lia|].
    intros i sl eff Hsl HW. destruct (Hmarked i sl Hsl) as [? ?].
    rewrite reset_worker_eq in HW by done. by simplify_eq. }
  assert (env_total_step (self fa)
          = env_total_step r + Z.of_nat (env_batch_size r)) as Hta.
  { rewrite (batch_post_total _ _ _ (λ _, 1) Hwf Hpa), count_all.
    - destruct Hsz as (_&->&_). done.
    - intros i sl eff Hsl HW. destruct (Hmarked i sl Hsl) as [? ?].
      rewrite async_worker_reset in HW by done. by simplify_eq. }
  split_and!; try done. congruence.
Qed.

End RunnerProperties.

(** * The runner properties on concrete batches *)

Lemma run_keeps_runner_well_formed_witness :
  match run [[9; 9]; [9; 9]] demo_sync with
  | Some r' =>
      wf r' ∧ env_batch_size r' = 2%nat ∧ live_env r' = Some 2%nat
  | None => False
  end.
Proof.
  destruct (run [[9; 9]; [9; 9]] demo_sync)
    as [r'|] eqn:Hrun; [|vm_compute in Hrun; discriminate Hrun].
  destruct (run_keeps_runner_well_formed [[9; 9]; [9; 9]] demo_sync r')
    as (Hwf & _ & _ & Hn & Hl); [solve_wf|exact Hrun|].
  split; [exact Hwf|]. split; [exact Hn|exact Hl].
Defined.

Lemma sync_stepping_never_revives_witness :
  match sync_step [9; 9] demo_sync with
  | Some f =>
      terminated (self f) !! 1%nat = Some true ∧
      parent_conns (self f) !! 1%nat = Some (idle []) ∧
      (alive_env (self f) ≤ alive_env demo_sync)%nat
  | None => False
  end.
Proof.
  destruct (sync_step [9; 9] demo_sync)
    as [f|] eqn:Hrun; [|vm_compute in Hrun; discriminate Hrun].
  destruct (sync_stepping_never_revives demo_sync (self f)) as [Hkeep Hle];
    [solve_wf| |].
  { eapply sync_stepping_call;
      [reflexivity|exact Hrun|apply sync_stepping_refl]. }
  destruct (Hkeep 1%nat eq_refl) as [Ht Hc].
  split; [exact Ht|]. split; [exact Hc|exact Hle].
Defined.

Lemma calls_revive_marked_workers_witness :
  match sync_step [] (init (demo_args false) false) with
  | Some f => alive_env (self f) = 2%nat
  | None => False
  end ∧
  match async_step [9; 9] demo_async with
  | Some f =>
      terminated (self f) !! 1%nat = Some false ∧
      (2 ≤ alive_env (self f) + alive_env demo_async)%nat
  | None => False
  end.
Proof.
  split.
  - destruct (sync_step [] (init (demo_args false) false))
      as [f|] eqn:Hrun; [|vm_compute in Hrun; discriminate Hrun].
    destruct (calls_revive_marked_workers [] (init (demo_args false) false) f)
      as [Hsync _]; [apply wf_init|].
    exact (Hsync eq_refl Hrun).
  - destruct (async_step [9; 9] demo_async)
      as [f|] eqn:Hrun; [|vm_compute in Hrun; discriminate Hrun].
    destruct (calls_revive_marked_workers [9; 9] demo_async f)
      as [_ Hasync]; [solve_wf|].
    destruct (Hasync Hrun) as [Hrev Hcount].
    split; [exact (Hrev 1%nat eq_refl)|exact Hcount].
Defined.

Lemma record_individual_rewards_by_mode_witness :
  match sync_step [9; 9] demo_sync with
  | Some f =>
      ∃ record, record ∈ terminated_env_info f ∧
                record !! "individual_rewards" = None
  | None => False
  end ∧
  match async_step [9; 9] demo_sync with
  | Some f =>
      ∃ record, record ∈ terminated_env_info f ∧
                record !! "individual_rewards" = Some (VArr [5; 5])
  | None => False
  end.
Proof.
  destruct (record_individual_rewards_by_mode [9; 9] demo_sync 0
              (idle [limit_reply]) 9 [] 5 (limit_info 5) 3 10)
    as [Hs Ha]; [solve_wf|reflexivity..|].
  split.
  - destruct (sync_step [9; 9] demo_sync)
      as [f|] eqn:Hrun; [|vm_compute in Hrun; discriminate Hrun].
    destruct (Hs f eq_refl) as (record & Hin & _ & Hnone).
    exists record. split; [exact Hin|exact Hnone].
  - destruct (async_step [9; 9] demo_sync)
      as [f|] eqn:Hrun; [|vm_compute in Hrun; discriminate Hrun].
    destruct (Ha f eq_refl) as (record & ir & Hin & _ & Hir & Hsome).
    vm_compute in Hir. injection Hir as <-.
    exists record. split; [exact Hin|exact Hsome].
Defined.

Lemma first_call_resets_seeded_workers_witness :
  ∃ f, step [] (init (demo_args false) false) = Some f ∧
    env_total_step (self f) = 0 ∧
    alive_env (self f) = 2%nat ∧
    entry (step_data f) 1
      = Some (reset_entry (demo_args false) (reset_reply (env_reset (env_fn 8)))) ∧
    parent_conns (self f) !! 1%nat
      = Some {| w_env := []; w_out := []; w_cmds := [CReset] |}.
Proof.
  destruct (first_call_resets_seeded_workers (Env:=Script) (Action:=Z)
              (demo_args false) false [])
    as (f & Hrun & _ & Htot & Halive & Hall); [simpl; lia|].
  exists f. split; [exact Hrun|]. split; [exact Htot|].
  split; [exact Halive|].
  destruct (Hall 1%nat) as (He & Hc & _); [simpl; lia|].
  split; [exact He|exact Hc].
Defined.

Lemma live_worker_accumulates_witness :
  match run [[9; 9]; [6; 6]] demo_going with
  | Some r' =>
      terminated r' !! 0%nat = Some false ∧
      parent_conns r' !! 0%nat
        = Some {| w_env := []; w_out := []; w_cmds := [CStep 9; CStep 6] |} ∧
      episode_lengths r' !! 0%nat = Some 5 ∧
      episode_returns r' !! 0%nat = Some 20
  | None => False
  end.
Proof.
  destruct (run [[9; 9]; [6; 6]] demo_going)
    as [r'|] eqn:Hrun; [|vm_compute in Hrun; discriminate Hrun].
  exact (live_worker_accumulates [[9; 9]; [6; 6]] demo_going r' 0
           (idle [(4, false, plain_info 4)]) [9; 6] 3 10
           ltac:(solve_wf) Hrun eq_refl eq_refl eq_refl eq_refl
           ltac:(repeat constructor) eq_refl).
Defined.

Lemma all_marked_same_in_both_modes_witness :
  ∃ fs fa,
    sync_step [] (init (demo_args false) false) = Some fs ∧
    async_step [] (init (demo_args false) false) = Some fa ∧
    step_data fa = step_data fs ∧
    terminated (self fa) = terminated (self fs) ∧
    env_total_step (self fs) = 0 ∧
    env_total_step (self fa) = 2.
Proof.
  destruct (all_marked_same_in_both_modes [] (init (demo_args false) false))
    as (fs & fa & Hs & Ha & Hd & _ & _ & _ & Ht & _ & _ & _ & Hns & Hna);
    [apply wf_init|reflexivity|].
  exists fs, fa.
  split; [exact Hs|]. split; [exact Ha|]. split; [exact Hd|].
  split; [exact Ht|]. split; [exact Hns|exact Hna].
Defined.

(** * Proofs about the configuration *)

Section Items.
Context {A : Type}.
Implicit Types (l : list (string * A)) (k : string) (v : A).

Lemma items_get_set_eq l k v : items_get (items_set l k v) k = Some v.
Proof.
  induction l as [|[k' v'] l IH]; simpl.
  - by rewrite decide_True.
  - case_decide; simpl; [by rewrite decide_True|by rewrite decide_False].
Qed.

Lemma items_get_set_ne l k k' v :
  k ≠ k' → items_get (items_set l k v) k' = items_get l k'.
Proof.
  intros Hne. induction l as [|[k0 v0] l IH]; simpl.
  - by rewrite decide_False.
  - case_decide; simpl; [subst; by rewrite !decide_False|].
    case_decide; [done|apply IH].
Qed.

Lemma items_get_None l k : items_get l k = None ↔ k ∉ l.*1.
Proof.
  induction l as [|[k' v'] l IH]; simpl.
  - split; [intros _; apply not_elem_of_nil|done].
  - rewrite not_elem_of_cons. destruct (decide (k' = k)) as [->|Hne].
    + split; [done|]. by intros [? _].
    + rewrite IH. split; [intros ?; split; [congruence|done]|by intros [_ ?]].
Qed.

Lemma items_get_Some l k v : items_get l k = Some v → (k, v) ∈ l.
Proof.
  induction l as [|[k' v'] l IH]; simpl; [done|].
  case_decide; [intros; simplify_eq; left|right; auto].
Qed.

Lemma items_get_elem l k v : NoDup l.*1 → (k, v) ∈ l → items_get l k = Some v.
Proof.
  induction l as [|[k' v'] l IH]; simpl; intros Hnd Hin.
  - by apply elem_of_nil in Hin.
  - apply NoDup_cons in Hnd as [Hk Hnd].
    apply elem_of_cons in Hin as [Heq|Hin]; [simplify_eq; by rewrite decide_True|].
    rewrite decide_False; [by apply IH|].
    intros ->. apply Hk. apply list_elem_of_fmap. by exists (k, v).
Qed.

Lemma items_set_keys l k v :
  (items_set l k v).*1 = if decide (k ∈ l.*1) then l.*1 else l.*1 ++ [k].
Proof.
  induction l as [|[k' v'] l IH].
  - destruct (decide (k ∈ ([] : list (string * A)).*1)) as [Hin|_]; [|done].
    by apply elem_of_nil in Hin.
  - change (((k', v') :: l).*1) with (k' :: l.*1). simpl.
    destruct (decide (k' = k)) as [->|Hne].
    + rewrite decide_True; [done|left].
    + change (((k', v') :: items_set l k v).*1)
        with (k' :: (items_set l k v).*1).
      rewrite IH. destruct (decide (k ∈ l.*1)) as [Hin|Hnin].
      * rewrite decide_True; [done|by right].
      * rewrite decide_False; [done|].
        intros [?|?]%elem_of_cons; congruence.
Qed.

Lemma items_set_id l k v : items_get l k = Some v → items_set l k v = l.
Proof.
  induction l as [|[k' v'] l IH]; simpl; [done|].
  case_decide; [intros; by simplify_eq|]. intros. f_equal. auto.
Qed.

End Items.

Lemma cfg_dict_ind (P : cfg → Prop) :
  (∀ a, P (CVal a)) → (∀ l, P (CList l)) →
  (∀ items, Forall (λ kv, P kv.2) items → P (CDict items)) →
  ∀ c, P c.
Proof.
  intros Hv Hl Hd. fix IH 1. intros [a|l|items]; [apply Hv|apply Hl|].
  apply Hd. induction items as [|[k v] items IHitems]; constructor;
    [apply IH|apply IHitems].
Qed.

Lemma cfg_nested_ind (P : cfg → Prop) :
  (∀ a, P (CVal a)) →
  (∀ l, Forall P l → P (CList l)) →
  (∀ items, Forall (λ kv, P kv.2) items → P (CDict items)) →
  ∀ c, P c.
Proof.
  intros Hv Hl Hd. fix IH 1. intros [a|l|items]; [apply Hv| |].
  - apply Hl. induction l as [|c l IHl]; constructor; [apply IH|apply IHl].
  - apply Hd. induction items as [|[k v] items IHitems]; constructor;
      [apply IH|apply IHitems].
Qed.

Lemma rdu_nil d : recursive_dict_update d (CDict []) = Some d.
Proof. done. Qed.

Lemma rdu_cons ds k v rest :
  recursive_dict_update (CDict ds) (CDict ((k, v) :: rest))
  = new ← merge_value (items_get ds k) v;
    recursive_dict_update (CDict (items_set ds k new)) (CDict rest).
Proof. by destruct v. Qed.

Lemma rdu_cons_not_dict d kv rest :
  is_dict d = false → recursive_dict_update d (CDict (kv :: rest)) = None.
Proof. destruct d, kv; simpl; done. Qed.

Lemma filter_not_in_snoc (ks rest : list string) (k0 : string) :
  k0 ∉ rest →
  filter (λ k, k ∉ ks ++ [k0]) rest = filter (λ k, k ∉ ks) rest.
Proof.
  induction rest as [|k rest IH]; intros Hk0; [done|].
  apply not_elem_of_cons in Hk0 as [Hne Hk0].
  rewrite !filter_cons, IH by done.
  destruct (decide (k ∉ ks ++ [k0])) as [H1|H1], (decide (k ∉ ks)) as [H2|H2];
    try done.
  - exfalso. apply H1. apply elem_of_app. left.
    by destruct (decide (k ∈ ks)).
  - exfalso. apply H1. intros [?|Hin%list_elem_of_singleton]%elem_of_app;
      [done|congruence].
Qed.

(** The loop of [recursive_dict_update] over a dict: what every key holds
    afterwards, that no merge raised, and the order of the keys. *)
Lemma rdu_items_spec ds us r :
  NoDup us.*1 →
  recursive_dict_update (CDict ds) (CDict us) = Some r →
  ∃ rs, r = CDict rs ∧
    (∀ k, items_get rs k
          = match items_get us k with
            | Some v => merge_value (items_get ds k) v
            | None => items_get ds k
            end) ∧
    (∀ k v, items_get us k = Some v →
       is_Some (merge_value (items_get ds k) v)) ∧
    rs.*1 = ds.*1 ++ filter (λ k, k ∉ ds.*1) us.*1.
Proof.
  revert ds. induction us as [|[k0 v0] rest IH]; intros ds Hnd Hrun.
  - rewrite rdu_nil in Hrun. simplify_eq. exists ds.
    split_and!; try done. by rewrite app_nil_r.
  - rewrite rdu_cons in Hrun.
    destruct (merge_value (items_get ds k0) v0) as [new|] eqn:Hnew;
      simpl in Hrun; [|done].
    change (((k0, v0) :: rest).*1) with (k0 :: rest.*1) in *.
    apply NoDup_cons in Hnd as [Hk0 Hnd].
    destruct (IH _ Hnd Hrun) as (rs & -> & Hget & Hok & Hkeys).
    exists rs. split_and!; [done| | |].
    + intros k. rewrite Hget. simpl.
      destruct (decide (k0 = k)) as [<-|Hne].
      * assert (items_get rest k0 = None) as -> by by apply items_get_None.
        by rewrite items_get_set_eq.
      * by rewrite items_get_set_ne.
    + intros k v. simpl. destruct (decide (k0 = k)) as [<-|Hne].
      * intros; simplify_eq. by eexists.
      * intros Hk. specialize (Hok k v Hk).
        by rewrite items_get_set_ne in Hok.
    + rewrite Hkeys, items_set_keys, filter_cons.
      destruct (decide (k0 ∈ ds.*1)) as [Hin|Hnin].
      * rewrite decide_False; [done|]. by intros ?.
      * rewrite decide_True by done.
        rewrite filter_not_in_snoc by done. by rewrite <- app_assoc.
Qed.

Lemma unique_keys_dict us :
  unique_keys (CDict us) = true ↔
  NoDup us.*1 ∧ ∀ k v, (k, v) ∈ us → unique_keys v = true.
Proof.
  simpl. rewrite andb_true_iff, bool_decide_eq_true, forallb_forall.
  split; intros [Hnd Hall]; (split; [done|]).
  - intros k v Hin. apply (Hall (k, v)). by apply list_elem_of_In.
  - intros [k v] Hin. apply (Hall k v). by apply list_elem_of_In.
Qed.

(** A dict that already holds what an update would write is left as it is. *)
Lemma rdu_fixed rs rest :
  (∀ k v, (k, v) ∈ rest →
     ∃ new, items_get rs k = Some new ∧ merge_value (Some new) v = Some new) →
  recursive_dict_update (CDict rs) (CDict rest) = Some (CDict rs).
Proof.
  induction rest as [|[k v] rest IH]; intros Hall; [done|].
  rewrite rdu_cons.
  destruct (Hall k v) as (new & Hget & Hmv); [left|].
  rewrite Hget, Hmv. simpl. rewrite (items_set_id _ _ _ Hget).
  apply IH. intros k' v' Hin. apply Hall. by right.
Qed.

Lemma merge_value_leaf old v : is_dict v = false → merge_value old v = Some v.
Proof. by destruct v. Qed.

Lemma merge_value_dict old us :
  merge_value old (CDict us)
  = recursive_dict_update (default (CDict []) old) (CDict us).
Proof. done. Qed.

Lemma rdu_nonempty_dict d kv rest r :
  recursive_dict_update d (CDict (kv :: rest)) = Some r → ∃ ds, d = CDict ds.
Proof.
  destruct d as [a|l|ds]; [by rewrite rdu_cons_not_dict..|]. by exists ds.
Qed.

Lemma rdu_items_total ds us :
  NoDup us.*1 →
  is_Some (recursive_dict_update (CDict ds) (CDict us)) ↔
  Forall (λ kv, is_Some (merge_value (items_get ds kv.1) kv.2)) us.
Proof.
  revert ds. induction us as [|[k0 v0] rest IH]; intros ds Hnd.
  - rewrite rdu_nil. split; [constructor|by eexists].
  - rewrite rdu_cons.
    change (((k0, v0) :: rest).*1) with (k0 :: rest.*1) in *.
    apply NoDup_cons in Hnd as [Hk0 Hnd].
    assert (∀ new, Forall (λ kv, is_Some (merge_value
                     (items_get (items_set ds k0 new) kv.1) kv.2)) rest
                   ↔ Forall (λ kv, is_Some (merge_value
                     (items_get ds kv.1) kv.2)) rest) as Hsame.
    { intros new. rewrite !Forall_forall.
      split; intros Hall [k v] Hin; specialize (Hall (k, v) Hin); simpl in *.
      - rewrite items_get_set_ne in Hall; [done|]. intros ->. apply Hk0.
        apply list_elem_of_fmap. by exists (k, v).
      - rewrite items_get_set_ne; [done|]. intros ->. apply Hk0.
        apply list_elem_of_fmap. by exists (k, v). }
    rewrite Forall_cons. cbn [fst snd].
    destruct (merge_value (items_get ds k0) v0) as [new|].
    + change (is_Some (recursive_dict_update (CDict (items_set ds k0 new))
                         (CDict rest))
              ↔ is_Some (Some new)
                ∧ Forall (λ kv, is_Some (merge_value (items_get ds kv.1) kv.2))
                    rest).
      rewrite IH, Hsame by done. split; [by split|by intros [_ ?]].
    + split; [by intros [? ?]|by intros [[? ?] _]].
Qed.

Lemma rdu_mergeable_aux u :
  ∀ d, unique_keys u = true →
    (is_Some (recursive_dict_update d u) ↔ mergeable d u = true).
Proof.
  induction u as [a|l|us IH] using cfg_dict_ind; intros d Huk.
  - simpl. split; [by intros [? ?]|done].
  - simpl. split; [by intros [? ?]|done].
  - destruct us as [|kv rest]; [simpl; split; [done|by eexists]|].
    destruct d as [a|l|ds];
      [rewrite rdu_cons_not_dict by done; simpl;
       split; [by intros [? ?]|done]..|].
    apply unique_keys_dict in Huk as [Hnd Hsub].
    rewrite rdu_items_total by done.
    change (mergeable (CDict ds) (CDict (kv :: rest)))
      with (forallb (λ kv, match kv.2 with
                           | CDict _ =>
                               mergeable (default (CDict []) (items_get ds kv.1))
                                 kv.2
                           | _ => true
                           end) (kv :: rest)).
    rewrite forallb_forall, Forall_forall.
    rewrite Forall_forall in IH.
    split.
    + intros Hall [k v] Hin%list_elem_of_In.
      specialize (Hall (k, v) Hin); simpl in *.
      destruct v as [| |uv]; try done. rewrite merge_value_dict in Hall.
      apply (IH (k, CDict uv)); [done|by eapply Hsub|done].
    + intros Hall [k v] Hin. pose proof Hin as Hin'%list_elem_of_In.
      specialize (Hall (k, v) Hin'); simpl in *.
      destruct v as [| |uv]; [by eexists..|]. rewrite merge_value_dict.
      apply (IH (k, CDict uv)); [done|by eapply Hsub|done].
Qed.

Lemma rdu_leaves_aux u :
  ∀ d r path v, unique_keys u = true →
    recursive_dict_update d u = Some r →
    path ≠ [] → path_get u path = Some v → is_dict v = false →
    path_get r path = Some v.
Proof.
  induction u as [a|l|us IH] using cfg_dict_ind;
    intros d r path v Huk Hrun Hpath Hget Hleaf; [done..|].
  destruct path as [|k path]; [done|]. simpl in Hget.
  destruct (items_get us k) as [vk|] eqn:Hk; simpl in Hget; [|done].
  destruct us as [|kv rest]; [done|].
  destruct (rdu_nonempty_dict _ _ _ _ Hrun) as [ds ->].
  apply unique_keys_dict in Huk as [Hnd Hsub].
  destruct (rdu_items_spec _ _ _ Hnd Hrun) as (rs & -> & Hrs & Hok & _).
  simpl. rewrite Hrs, Hk.
  destruct (Hok k vk Hk) as [new Hnew]. rewrite Hnew. simpl.
  destruct (is_dict vk) eqn:Hvk.
  - destruct vk as [| |uv]; try done.
    destruct path as [|k' path]; [simpl in Hget; by simplify_eq|].
    rewrite merge_value_dict in Hnew. rewrite Forall_forall in IH.
    apply (IH (k, CDict uv)) with (d := default (CDict []) (items_get ds k));
      try done.
    + by apply items_get_Some.
    + eapply Hsub. by apply items_get_Some.
  - rewrite merge_value_leaf in Hnew by done. by simplify_eq.
Qed.

Lemma get_input_args_spec configs args r :
  get_input_args configs args = Some r →
  ∃ ds rs, configs = CDict ds ∧ r = CDict rs ∧
    ∀ k, items_get rs k
         = match cli_value args k with
           | Some v => Some v
           | None => items_get ds k
           end.
Proof.
  unfold get_input_args. destruct configs as [a|l|ds]; [done..|].
  simpl. intros Hr. simplify_eq. eexists _, _. split_and!; [done..|].
  intros k. unfold cli_value.
  repeat match goal with
  | |- context [items_get (items_set _ ?k' _) k] =>
      destruct (decide (k' = k)) as [<-|?];
      [rewrite items_get_set_eq; by vm_compute|
       rewrite (items_get_set_ne _ k' k) by done]
  end.
  simpl. repeat (rewrite decide_False by done). done.
Qed.

Lemma items_set_twice {A} (l : list (string * A)) k v v' :
  items_set (items_set l k v) k v' = items_set l k v'.
Proof.
  induction l as [|[k0 v0] l IH]; simpl.
  - by rewrite decide_True.
  - destruct (decide (k0 = k)) as [->|Hne]; simpl.
    + by rewrite decide_True.
    + rewrite decide_False by done. by rewrite IH.
Qed.

Lemma patch_env_args_spec env_config k v c :
  patch_env_args env_config k v = Some c →
  ∃ items ea, env_config = CDict items ∧
    items_get items "env_args" = Some (CDict ea) ∧
    c = CDict (items_set items "env_args" (CDict (items_set ea k v))).
Proof.
  unfold patch_env_args. destruct env_config as [a|l|items]; [done..|].
  simpl. destruct (items_get items "env_args") as [[a|l|ea]|] eqn:Hea;
    simpl; try done.
  intros; simplify_eq. by exists items, ea.
Qed.

Lemma patch_env_args_dict items ea k v :
  patch_env_args (CDict (items_set items "env_args" (CDict ea))) k v
  = Some (CDict (items_set items "env_args" (CDict (items_set ea k v)))).
Proof.
  unfold patch_env_args. simpl. rewrite items_get_set_eq. simpl.
  by rewrite items_set_twice.
Qed.

Lemma rdu_dict_update d u r :
  recursive_dict_update d u = Some r → ∃ us, u = CDict us.
Proof. destruct u as [a|l|us]; [done..|]. by exists us. Qed.

Lemma merged_configs_inv yaml_default alg_yaml env_yaml args r :
  (∀ x c, alg_yaml x = Some c → unique_keys c = true) →
  (∀ x c, env_yaml x = Some c → unique_keys c = true) →
  merged_configs yaml_default alg_yaml env_yaml args = Some r →
  ∃ dflt algs rs2 env_type envs ea map_name seed,
    yaml_default = Some (CDict dflt) ∧
    alg_yaml (cfg_str (cli_alg args)) = Some (CDict algs) ∧
    unique_keys (CDict algs) = true ∧
    (∀ k, items_get rs2 k
          = layered (cli_or_default args dflt k) (items_get algs k)) ∧
    items_get rs2 "env_type" = Some env_type ∧
    items_get rs2 "map_name" = Some map_name ∧
    items_get rs2 "seed" = Some seed ∧
    env_yaml env_type = Some (CDict envs) ∧
    unique_keys (CDict envs) = true ∧
    items_get envs "env_args" = Some (CDict ea) ∧
    recursive_dict_update (CDict rs2)
      (CDict (items_set envs "env_args"
                (CDict (patched_env_args ea env_type map_name seed))))
    = Some r.
Proof.
  intros Halg_wf Henv_wf. unfold merged_configs. intros Hrun.
  destruct yaml_default as [c0|]; simpl in Hrun; [|done].
  destruct (get_input_args c0 args) as [c1|] eqn:H1; simpl in Hrun; [|done].
  destruct (get_input_args_spec _ _ _ H1) as (dflt & rs1 & -> & -> & Hget1).
  assert (get_item (CDict rs1) "algorithm" = Some (cfg_str (cli_alg args)))
    as Halg.
  { simpl. rewrite Hget1. by vm_compute. }
  rewrite Halg in Hrun. simpl in Hrun.
  destruct (alg_yaml (cfg_str (cli_alg args))) as [alg_config|] eqn:Hay;
    simpl in Hrun; [|done].
  destruct (recursive_dict_update (CDict rs1) alg_config) as [c2|] eqn:H2;
    simpl in Hrun; [|done].
  destruct (rdu_dict_update _ _ _ H2) as [algs ->].
  pose proof (Halg_wf _ _ Hay) as Hualg.
  pose proof Hualg as [Hndalg _]%unique_keys_dict.
  destruct (rdu_items_spec _ _ _ Hndalg H2) as (rs2 & -> & Hget2 & _ & _).
  destruct (get_item (CDict rs2) "env_type") as [env_type|] eqn:Het;
    simpl in Hrun; [|done].
  destruct (env_yaml env_type) as [env_config|] eqn:Hey; simpl in Hrun; [|done].
  pose proof (Henv_wf _ _ Hey) as Huenv.
  assert (∃ envs ea map_name seed,
            env_config = CDict envs ∧
            items_get envs "env_args" = Some (CDict ea) ∧
            items_get rs2 "map_name" = Some map_name ∧
            items_get rs2 "seed" = Some seed ∧
            recursive_dict_update (CDict rs2)
              (CDict (items_set envs "env_args"
                        (CDict (patched_env_args ea env_type map_name seed))))
            = Some r) as (envs & ea & map_name & seed & -> & ? & ? & ? & ?).
  { unfold patched_env_args.
    destruct (eq_str env_type "replenishment").
    - destruct (items_get rs2 "map_name") as [map_name|] eqn:Hmn;
        simpl in Hrun; [|done].
      destruct (patch_env_args env_config "task_type" map_name) as [e1|] eqn:Hp1;
        simpl in Hrun; [|done].
      destruct (patch_env_args_spec _ _ _ _ Hp1) as (envs & ea & -> & Hea & ->).
      rewrite patch_env_args_dict in Hrun. simpl in Hrun.
      destruct (items_get rs2 "seed") as [seed|] eqn:Hsd; simpl in Hrun; [|done].
      rewrite patch_env_args_dict in Hrun. simpl in Hrun.
      by exists envs, ea, map_name, seed.
    - simpl in Hrun.
      destruct (items_get rs2 "map_name") as [map_name|] eqn:Hmn;
        simpl in Hrun; [|done].
      destruct (patch_env_args env_config "map_name" map_name) as [e1|] eqn:Hp1;
        simpl in Hrun; [|done].
      destruct (patch_env_args_spec _ _ _ _ Hp1) as (envs & ea & -> & Hea & ->).
      destruct (items_get rs2 "seed") as [seed|] eqn:Hsd; simpl in Hrun; [|done].
      rewrite patch_env_args_dict in Hrun. simpl in Hrun.
      by exists envs, ea, map_name, seed. }
  exists dflt, algs, rs2, env_type, envs, ea, map_name, seed.
  split_and!; try done.
  intros k. rewrite Hget2. unfold layered, cli_or_default.
  by rewrite Hget1.
Qed.

Lemma items_set_elem {A} (l : list (string * A)) k v k' v' :
  (k', v') ∈ items_set l k v → (k', v') ∈ l ∨ v' = v.
Proof.
  induction l as [|[k0 v0] l IH]; simpl.
  - intros ?%list_elem_of_singleton. simplify_eq. by right.
  - destruct (decide (k0 = k)) as [->|Hne].
    + intros [?|?]%elem_of_cons; [simplify_eq; by right|left; by right].
    + intros [?|Hin]%elem_of_cons; [simplify_eq; left; by left|].
      destruct (IH Hin) as [?|?]; [left; by right|by right].
Qed.

Lemma items_set_NoDup {A} (l : list (string * A)) k v :
  NoDup l.*1 → NoDup (items_set l k v).*1.
Proof.
  intros Hnd. rewrite items_set_keys. destruct (decide (k ∈ l.*1)); [done|].
  apply NoDup_app. split_and!; [done| |apply NoDup_singleton].
  intros k' Hin ?%list_elem_of_singleton. by subst.
Qed.

Lemma unique_keys_set items k v :
  unique_keys (CDict items) = true → unique_keys v = true →
  unique_keys (CDict (items_set items k v)) = true.
Proof.
  rewrite !unique_keys_dict. intros [Hnd Hsub] Hv.
  split; [by apply items_set_NoDup|].
  intros k' v' [Hin| ->]%items_set_elem; [by eapply Hsub|done].
Qed.

Lemma unique_keys_leaf v : is_dict v = false → unique_keys v = true.
Proof. by destruct v. Qed.

(** ** Properties of [recursive_dict_update] *)

(** X8.  One level of [recursive_dict_update] on two dicts: the keys of [d]
    keep their places, the keys only [u] has follow in [u]'s order, and no
    key is repeated; a key of [u] holds [u]'s value, merged into what [d]
    held there when [u]'s value is a dict; every other key holds what it
    held in [d]. *)
Theorem recursive_dict_update_one_level ds us r :
  NoDup us.*1 →
  recursive_dict_update (CDict ds) (CDict us) = Some r →
  ∃ rs, r = CDict rs ∧
    rs.*1 = ds.*1 ++ filter (λ k, k ∉ ds.*1) us.*1 ∧
    (NoDup ds.*1 → NoDup rs.*1) ∧
    ∀ k, items_get rs k
         = match items_get us k with
           | Some v => if is_dict v
                       then recursive_dict_update
                              (default (CDict []) (items_get ds k)) v
                       else Some v
           | None => items_get ds k
           end.
Proof.
  intros Hnd Hrun.
  destruct (rdu_items_spec _ _ _ Hnd Hrun) as (rs & -> & Hget & _ & Hkeys).
  exists rs. split_and!; [done|done| |].
  - intros Hds. rewrite Hkeys. apply NoDup_app. split_and!; [done| |].
    + intros k Hin [Hnin _]%list_elem_of_filter. done.
    + by apply NoDup_filter.
  - intros k. rewrite Hget. destruct (items_get us k) as [[a|l|uv]|]; done.
Qed.

(** X9.  Every value of the update that is not itself a dict ends up in the
    result at the path it has in the update, however deep. *)
Theorem recursive_dict_update_leaves d u r path v :
  unique_keys u = true →
  recursive_dict_update d u = Some r →
  path ≠ [] → path_get u path = Some v → is_dict v = false →
  path_get r path = Some v.
Proof. intros. by eapply rdu_leaves_aux. Qed.

(** X10.  Applying the same update a second time changes nothing. *)
Theorem recursive_dict_update_idempotent d u r :
  unique_keys u = true →
  recursive_dict_update d u = Some r →
  recursive_dict_update r u = Some r.
Proof.
  revert d r. induction u as [a|l|us IH] using cfg_dict_ind;
    intros d r Huk Hrun; [done..|].
  destruct us as [|kv rest]; [rewrite rdu_nil in Hrun; by simplify_eq|].
  destruct (rdu_nonempty_dict _ _ _ _ Hrun) as [ds ->].
  apply unique_keys_dict in Huk as [Hnd Hsub].
  destruct (rdu_items_spec _ _ _ Hnd Hrun) as (rs & -> & Hget & Hok & _).
  apply rdu_fixed. intros k v Hin.
  pose proof (items_get_elem _ _ _ Hnd Hin) as Hk.
  destruct (Hok k v Hk) as [new Hnew]. exists new.
  split; [by rewrite Hget, Hk|].
  destruct (is_dict v) eqn:Hv.
  - destruct v as [| |uv]; try done. rewrite merge_value_dict in *. simpl.
    rewrite Forall_forall in IH.
    apply (IH (k, CDict uv)) with (d := default (CDict []) (items_get ds k));
      [done|by eapply Hsub|done].
  - rewrite merge_value_leaf in * by done. by simplify_eq.
Qed.

(** X11.  [recursive_dict_update d u] raises exactly when [u] is not a dict,
    or [u] is a non-empty dict and [d] is not a dict, or some dict-valued
    entry of [u] cannot, in the same sense, be merged into what [d] holds
    under that key (an empty dict when [d] lacks the key).  So an empty
    update never raises, whatever [d] is. *)
Theorem recursive_dict_update_raises d u :
  unique_keys u = true →
  (recursive_dict_update d u = None ↔ mergeable d u = false) ∧
  recursive_dict_update d (CDict []) = Some d.
Proof.
  intros Huk. split; [|done].
  pose proof (rdu_mergeable_aux u d Huk) as Hiff.
  destruct (recursive_dict_update d u) as [r|], (mergeable d u); split;
    try done.
  - intros _. assert (is_Some (Some r)) as Hs by by eexists.
    by apply Hiff in Hs.
  - intros _. assert (is_Some (@None cfg)) as [? ?] by by apply Hiff. done.
Qed.

(** X19.  [config_copy] returns a value equal to the one it is given: the
    same keys in the same order at every depth, the same entries in every
    list, the same scalars. *)
Theorem config_copy_equal (config : cfg) : config_copy config = config.
Proof.
  induction config as [a|l IH|items IH] using cfg_nested_ind; [done| |].
  - simpl. f_equal. induction IH as [|c l Hc _ IHl]; [done|].
    simpl. by rewrite Hc, IHl.
  - simpl. f_equal. induction IH as [|[k v] items Hv _ IHitems]; [done|].
    simpl in *. by rewrite Hv, IHitems.
Qed.

(** ** Properties of the merged configuration *)

(** X12.  The merged configuration exists only if [default.yaml] holds a
    dict, the algorithm file named by the command line's [--alg] holds a
    dict, and the environment file holds a dict whose ["env_args"] is a
    dict: a missing or unparsable file, an empty file, or an environment
    file without ["env_args"] makes [get_all_config] raise.  The
    environment file meant is the one named by what the configuration holds
    under ["env_type"] once the algorithm file is merged over the command
    line: the command line's [--env_type], unless the algorithm file has
    its own. *)
Theorem merged_configs_needs_dicts yaml_default alg_yaml env_yaml args :
  is_Some (merged_configs yaml_default alg_yaml env_yaml args) →
  ∃ dflt algs configs env_type envs ea,
    yaml_default = Some (CDict dflt) ∧
    alg_yaml (cfg_str (cli_alg args)) = Some (CDict algs) ∧
    (c ← get_input_args (CDict dflt) args;
     recursive_dict_update c (CDict algs)) = Some configs ∧
    get_item configs "env_type" = Some env_type ∧
    (NoDup algs.*1 →
     layered (Some (cfg_str (cli_env_type args))) (items_get algs "env_type")
     = Some env_type) ∧
    env_yaml env_type = Some (CDict envs) ∧
    items_get envs "env_args" = Some (CDict ea).
Proof.
  intros [r Hrun]. unfold merged_configs in Hrun.
  destruct yaml_default as [c0|]; simpl in Hrun; [|done].
  destruct (get_input_args c0 args) as [c1|] eqn:H1; simpl in Hrun; [|done].
  destruct (get_input_args_spec _ _ _ H1) as (dflt & rs1 & -> & -> & Hget1).
  assert (get_item (CDict rs1) "algorithm" = Some (cfg_str (cli_alg args)))
    as Halg.
  { simpl. rewrite Hget1. by vm_compute. }
  rewrite Halg in Hrun. simpl in Hrun.
  destruct (alg_yaml (cfg_str (cli_alg args))) as [alg_config|] eqn:Hay;
    simpl in Hrun; [|done].
  destruct (recursive_dict_update (CDict rs1) alg_config) as [c2|] eqn:H2;
    simpl in Hrun; [|done].
  destruct (rdu_dict_update _ _ _ H2) as [algs ->].
  destruct (get_item c2 "env_type") as [env_type|] eqn:Het;
    simpl in Hrun; [|done].
  destruct (env_yaml env_type) as [env_config|] eqn:Hey; simpl in Hrun; [|done].
  assert (NoDup algs.*1 →
          layered (Some (cfg_str (cli_env_type args)))
            (items_get algs "env_type") = Some env_type) as Hlay.
  { intros Hnd.
    destruct (rdu_items_spec _ _ _ Hnd H2) as (rs2 & -> & Hget2 & _ & _).
    simpl in Het. rewrite Hget2, Hget1 in Het. exact Het. }
  assert (∃ envs ea, env_config = CDict envs ∧
            items_get envs "env_args" = Some (CDict ea))
    as (envs & ea & -> & Hea).
  { destruct (eq_str env_type "replenishment").
    - destruct (get_item c2 "map_name") as [map_name|]; simpl in Hrun; [|done].
      destruct (patch_env_args env_config "task_type" map_name)
        as [e1|] eqn:Hp1; simpl in Hrun; [|done].
      destruct (patch_env_args_spec _ _ _ _ Hp1) as (envs & ea & -> & Hea & ->).
      by exists envs, ea.
    - simpl in Hrun.
      destruct (get_item c2 "map_name") as [map_name|]; simpl in Hrun; [|done].
      destruct (patch_env_args env_config "map_name" map_name)
        as [e1|] eqn:Hp1; simpl in Hrun; [|done].
      destruct (patch_env_args_spec _ _ _ _ Hp1) as (envs & ea & -> & Hea & ->).
      by exists envs, ea. }
  exists dflt, algs, c2, env_type, envs, ea. split_and!; try done.
  by rewrite H1.
Qed.

(** X13.  Precedence of the configuration sources, for every top-level key
    but ["env_args"]: the environment file is laid over the algorithm file,
    which is laid over the command line, which is laid over [default.yaml];
    a value that is not a dict replaces what lies under it, a dict is merged
    into it.  The environment file read is the one named by ["env_type"]
    after the algorithm file had its say. *)
Theorem merged_configs_precedence yaml_default alg_yaml env_yaml args r :
  (∀ x c, alg_yaml x = Some c → unique_keys c = true) →
  (∀ x c, env_yaml x = Some c → unique_keys c = true) →
  merged_configs yaml_default alg_yaml env_yaml args = Some r →
  ∃ dflt algs env_type envs rs,
    yaml_default = Some (CDict dflt) ∧
    alg_yaml (cfg_str (cli_alg args)) = Some (CDict algs) ∧
    layered (Some (cfg_str (cli_env_type args))) (items_get algs "env_type")
      = Some env_type ∧
    env_yaml env_type = Some (CDict envs) ∧
    r = CDict rs ∧
    ∀ k, k ≠ "env_args" →
      items_get rs k
      = layered (layered (cli_or_default args dflt k) (items_get algs k))
          (items_get envs k).
Proof.
  intros Halg_wf Henv_wf Hrun.
  destruct (merged_configs_inv _ _ _ _ _ Halg_wf Henv_wf Hrun)
    as (dflt & algs & rs2 & env_type & envs & ea & map_name & seed &
        Hd & Ha & Hua & Hget2 & Het & _ & _ & He & Hue & Hea & Hfin).
  apply unique_keys_dict in Hue as [Hnd _].
  destruct (rdu_items_spec _ _ _ (items_set_NoDup _ "env_args" _ Hnd) Hfin)
    as (rs & -> & Hget & _ & _).
  exists dflt, algs, env_type, envs, rs. split_and!; try done.
  - rewrite <- Het, Hget2. done.
  - intros k Hk. rewrite Hget, items_get_set_ne by done.
    unfold layered at 1. by rewrite Hget2.
Qed.

Lemma layered_over_leaf lower upper v :
  is_dict lower = false → layered (Some lower) upper = Some v →
  is_dict v = false.
Proof.
  intros Hl Hv. destruct upper as [u|]; [|by injection Hv as <-].
  unfold layered in Hv. destruct u as [a|l|us].
  - rewrite merge_value_leaf in Hv by done. by injection Hv as <-.
  - rewrite merge_value_leaf in Hv by done. by injection Hv as <-.
  - rewrite merge_value_dict in Hv.
    change (default (CDict []) (Some lower)) with lower in Hv.
    destruct us as [|kv rest].
    + rewrite rdu_nil in Hv. by injection Hv as <-.
    + by rewrite rdu_cons_not_dict in Hv.
Qed.

Lemma merged_env_args_aux yaml_default alg_yaml env_yaml args r :
  (∀ x c, alg_yaml x = Some c → unique_keys c = true) →
  (∀ x c, env_yaml x = Some c → unique_keys c = true) →
  merged_configs yaml_default alg_yaml env_yaml args = Some r →
  ∃ algs env_type map_name seed,
    alg_yaml (cfg_str (cli_alg args)) = Some (CDict algs) ∧
    layered (Some (cfg_int (cli_seed args))) (items_get algs "seed")
      = Some seed ∧
    layered (Some (cfg_str (cli_map_name args))) (items_get algs "map_name")
      = Some map_name ∧
    layered (Some (cfg_str (cli_env_type args))) (items_get algs "env_type")
      = Some env_type ∧
    is_dict seed = false ∧ is_dict map_name = false ∧
    path_get r ["env_args"; "seed"] = Some seed ∧
    path_get r ["env_args"; "map_name"] = Some map_name ∧
    (eq_str env_type "replenishment" = true →
     path_get r ["env_args"; "task_type"] = Some map_name).
Proof.
  intros Halg_wf Henv_wf Hrun.
  destruct (merged_configs_inv _ _ _ _ _ Halg_wf Henv_wf Hrun)
    as (dflt & algs & rs2 & env_type & envs & ea & map_name & seed &
        Hd & Ha & Hua & Hget2 & Het & Hmn & Hsd & He & Hue & Hea & Hfin).
  rewrite Hget2 in Het, Hmn, Hsd.
  change (cli_or_default args dflt "env_type")
    with (Some (cfg_str (cli_env_type args))) in Het.
  change (cli_or_default args dflt "map_name")
    with (Some (cfg_str (cli_map_name args))) in Hmn.
  change (cli_or_default args dflt "seed")
    with (Some (cfg_int (cli_seed args))) in Hsd.
  assert (is_dict seed = false) as Hseed
    by by eapply layered_over_leaf; [|exact Hsd].
  assert (is_dict map_name = false) as Hmap
    by by eapply layered_over_leaf; [|exact Hmn].
  exists algs, env_type, map_name, seed. split_and!; try done.
  all: assert (unique_keys (CDict ea) = true) as Huea
    by (apply unique_keys_dict in Hue as [_ Hsub];
        eapply Hsub; by apply items_get_Some).
  all: assert (unique_keys
              (CDict (items_set envs "env_args"
                        (CDict (patched_env_args ea env_type map_name seed))))
            = true) as Hu
    by (apply unique_keys_set; [done|]; unfold patched_env_args;
        repeat apply unique_keys_set; try (by apply unique_keys_leaf);
        destruct (eq_str env_type "replenishment"); [|done];
        apply unique_keys_set; [done|by apply unique_keys_leaf]).
  - eapply rdu_leaves_aux; [exact Hu|exact Hfin|done| |exact Hseed].
    simpl. rewrite items_get_set_eq. simpl. unfold patched_env_args.
    by rewrite items_get_set_eq.
  - eapply rdu_leaves_aux; [exact Hu|exact Hfin|done| |exact Hmap].
    simpl. rewrite items_get_set_eq. simpl. unfold patched_env_args.
    rewrite items_get_set_ne by done. by rewrite items_get_set_eq.
  - intros Hrep.
    eapply rdu_leaves_aux; [exact Hu|exact Hfin|done| |exact Hmap].
    simpl. rewrite items_get_set_eq. simpl. unfold patched_env_args.
    rewrite Hrep. rewrite !items_get_set_ne by done.
    by rewrite items_get_set_eq.
Qed.

(** X14.  The seed and the map name the environment is built with are the
    ones of the command line unless the algorithm file overrides them: the
    merged ["env_args"] holds under ["seed"] and ["map_name"] (and, for a
    replenishment environment, under ["task_type"]) what the configuration
    held under ["seed"] and ["map_name"] once the algorithm file was laid
    over the command line, whatever the environment file says there.
    Neither value is a dict: merging a dict of the algorithm file into the
    command line's scalar raises unless the dict is empty. *)
Theorem merged_configs_env_args yaml_default alg_yaml env_yaml args r :
  (∀ x c, alg_yaml x = Some c → unique_keys c = true) →
  (∀ x c, env_yaml x = Some c → unique_keys c = true) →
  merged_configs yaml_default alg_yaml env_yaml args = Some r →
  ∃ algs env_type map_name seed,
    alg_yaml (cfg_str (cli_alg args)) = Some (CDict algs) ∧
    layered (Some (cfg_int (cli_seed args))) (items_get algs "seed")
      = Some seed ∧
    layered (Some (cfg_str (cli_map_name args))) (items_get algs "map_name")
      = Some map_name ∧
    layered (Some (cfg_str (cli_env_type args))) (items_get algs "env_type")
      = Some env_type ∧
    is_dict seed = false ∧ is_dict map_name = false ∧
    path_get r ["env_args"; "seed"] = Some seed ∧
    path_get r ["env_args"; "map_name"] = Some map_name ∧
    (eq_str env_type "replenishment" = true →
     path_get r ["env_args"; "task_type"] = Some map_name).
Proof. apply merged_env_args_aux. Qed.

(** ** The configuration properties on concrete files *)

Lemma recursive_dict_update_one_level_witness :
  ∃ rs,
    recursive_dict_update (CDict demo_default_items) (CDict demo_alg_items)
      = Some (CDict rs) ∧
    rs.*1 = ["seed"; "lr"; "gamma"; "model"; "map_name"; "clip"] ∧
    NoDup rs.*1 ∧
    items_get rs "lr" = Some (cfg_int 3) ∧
    items_get rs "gamma" = Some (cfg_int 99) ∧
    items_get rs "model"
      = Some (CDict [("hidden", cfg_int 64); ("layers", cfg_int 2)]).
Proof.
  destruct (recursive_dict_update (CDict demo_default_items)
              (CDict demo_alg_items)) as [r|] eqn:Hrun;
    [|vm_compute in Hrun; discriminate Hrun].
  destruct (recursive_dict_update_one_level demo_default_items demo_alg_items r)
    as (rs & -> & Hkeys & Hnd & Hget); [|exact Hrun|].
  { apply (bool_decide_unpack _). vm_compute. exact I. }
  exists rs. split; [reflexivity|]. split; [exact Hkeys|]. split.
  { apply Hnd. apply (bool_decide_unpack _). vm_compute. exact I. }
  rewrite !Hget. repeat split.
Defined.

Lemma recursive_dict_update_leaves_witness :
  match recursive_dict_update (CDict demo_default_items) (CDict demo_alg_items)
  with
  | Some r => path_get r ["model"; "hidden"] = Some (cfg_int 64)
  | None => False
  end.
Proof.
  destruct (recursive_dict_update (CDict demo_default_items)
              (CDict demo_alg_items)) as [r|] eqn:Hrun;
    [|vm_compute in Hrun; discriminate Hrun].
  apply (recursive_dict_update_leaves (CDict demo_default_items)
           (CDict demo_alg_items) r ["model"; "hidden"] (cfg_int 64));
    [reflexivity|exact Hrun|discriminate|reflexivity|reflexivity].
Defined.

Lemma recursive_dict_update_idempotent_witness :
  match recursive_dict_update (CDict demo_default_items) (CDict demo_alg_items)
  with
  | Some r => recursive_dict_update r (CDict demo_alg_items) = Some r
  | None => False
  end.
Proof.
  destruct (recursive_dict_update (CDict demo_default_items)
              (CDict demo_alg_items)) as [r|] eqn:Hrun;
    [|vm_compute in Hrun; discriminate Hrun].
  apply (recursive_dict_update_idempotent (CDict demo_default_items));
    [reflexivity|exact Hrun].
Defined.

(** Merging [{"model": {"hidden": 64}}] into a configuration whose
    ["model"] is a number raises. *)
Lemma recursive_dict_update_raises_witness :
  recursive_dict_update (CDict [("model", cfg_int 7)])
    (CDict [("model", CDict [("hidden", cfg_int 64)])]) = None.
Proof.
  apply (recursive_dict_update_raises (CDict [("model", cfg_int 7)])
           (CDict [("model", CDict [("hidden", cfg_int 64)])]) eq_refl).
  reflexivity.
Defined.

Lemma demo_alg_yaml_unique x c :
  demo_alg_yaml x = Some c → unique_keys c = true.
Proof.
  unfold demo_alg_yaml. destruct (eq_str x "ippo"); [|discriminate].
  intros [= <-]. reflexivity.
Qed.

Lemma demo_env_yaml_unique x c :
  demo_env_yaml x = Some c → unique_keys c = true.
Proof.
  unfold demo_env_yaml. destruct (eq_str x "replenishment"); [|discriminate].
  intros [= <-]. reflexivity.
Qed.

Lemma merged_configs_needs_dicts_witness :
  ∃ envs ea,
    demo_env_yaml (cfg_str "replenishment") = Some (CDict envs) ∧
    items_get envs "env_args" = Some (CDict ea).
Proof.
  destruct (merged_configs_needs_dicts (Some (CDict demo_default_items))
              demo_alg_yaml demo_env_yaml demo_cli)
    as (dflt & algs & configs & env_type & envs & ea & Hd & Ha & _ & _ &
        Hlay & He & Hea); [eexists; vm_compute; reflexivity|].
  vm_compute in Ha. injection Ha as <-.
  assert (NoDup ["lr"; "map_name"; "model"; "clip"]) as Hnd.
  { apply (bool_decide_unpack _). vm_compute. exact I. }
  specialize (Hlay Hnd). vm_compute in Hlay. injection Hlay as <-.
  exists envs, ea. split; [exact He|exact Hea].
Defined.

Lemma merged_configs_precedence_witness :
  match demo_merged with
  | Some r =>
      get_item r "gamma" = Some (cfg_int 95) ∧
      get_item r "lr" = Some (cfg_int 3) ∧
      get_item r "map_name" = Some (cfg_str "sku200") ∧
      get_item r "seed" = Some (cfg_int 1) ∧
      get_item r "train_device" = Some (cfg_str "cuda:6")
  | None => False
  end.
Proof.
  destruct demo_merged as [r|] eqn:Hrun;
    [|vm_compute in Hrun; discriminate Hrun].
  destruct (merged_configs_precedence (Some (CDict demo_default_items))
              demo_alg_yaml demo_env_yaml demo_cli r)
    as (dflt & algs & env_type & envs & rs & Hd & Ha & Het & He & -> & Hget);
    [exact demo_alg_yaml_unique|exact demo_env_yaml_unique|exact Hrun|].
  injection Hd as <-. injection Ha as <-.
  injection Het as <-. injection He as <-.
  simpl. rewrite !Hget by discriminate. repeat split.
Defined.

Lemma merged_configs_env_args_witness :
  match demo_merged with
  | Some r =>
      path_get r ["env_args"; "seed"] = Some (cfg_int 1) ∧
      path_get r ["env_args"; "map_name"] = Some (cfg_str "sku200") ∧
      path_get r ["env_args"; "task_type"] = Some (cfg_str "sku200")
  | None => False
  end.
Proof.
  destruct demo_merged as [r|] eqn:Hrun;
    [|vm_compute in Hrun; discriminate Hrun].
  destruct (merged_configs_env_args (Some (CDict demo_default_items))
              demo_alg_yaml demo_env_yaml demo_cli r)
    as (algs & env_type & map_name & seed & Ha & Hsd & Hmn & Het & _ & _ &
        Hs & Hm & Ht);
    [exact demo_alg_yaml_unique|exact demo_env_yaml_unique|exact Hrun|].
  injection Ha as <-.
  injection Hsd as <-. injection Hmn as <-. injection Het as <-.
  split; [exact Hs|]. split; [exact Hm|exact (Ht eq_refl)].
Defined.

(** * Proofs about [update_args] *)

Lemma set_all_get ns assignments k :
  items_get (set_all ns assignments) k
  = match items_get (reverse assignments) k with
    | Some v => Some v
    | None => items_get ns k
    end.
Proof.
  revert ns. induction assignments as [|[k' v] rest IH]; intros ns; [done|].
  unfold set_all in *. simpl foldl. rewrite IH.
  rewrite reverse_cons.
  destruct (items_get (reverse rest) k) as [v'|] eqn:Hrest.
  - assert (items_get (reverse rest ++ [(k', v)]) k = Some v') as ->; [|done].
    clear IH. induction (reverse rest) as [|[k0 v0] l IHl]; [done|].
    simpl in *. destruct (decide (k0 = k)); [done|auto].
  - assert (items_get (reverse rest ++ [(k', v)]) k
            = items_get [(k', v)] k) as ->.
    { clear IH. induction (reverse rest) as [|[k0 v0] l IHl]; [done|].
      simpl in *. destruct (decide (k0 = k)); [done|auto]. }
    simpl. destruct (decide (k' = k)) as [->|Hne].
    + by rewrite items_get_set_eq.
    + by rewrite items_get_set_ne.
Qed.

Section UpdateArgsLemmas.
Variable env_REGISTRY : cfg → cfg → option EnvObject.
Variable now : string.
Variable format : cfg → string.

(** The address assignments, from [local] and [role]. *)
Lemma update_args_spec args r :
  update_args env_REGISTRY now format args = Some r →
  ∃ env_name env_args env env_info v1 v2 v3 v4 v5 len sg local seed addr,
    items_get args "env" = Some env_name ∧
    items_get args "env_args" = Some env_args ∧
    env_REGISTRY env_name env_args = Some env ∧
    eo_env_info env = Some env_info ∧
    get_item env_info "n_agents" = Some v1 ∧
    get_item env_info "n_actions" = Some v2 ∧
    get_item env_info "state_shape" = Some v3 ∧
    get_item env_info "obs_shape" = Some v4 ∧
    get_item env_info "episode_limit" = Some v5 ∧
    cfg_succ v5 = Some len ∧
    eo_scheme env = Some sg ∧
    items_get args "local" = Some local ∧
    items_get args "seed" = Some seed ∧
    (if cfg_truthy local then addr = [("address", localhost)]
     else ∃ role, items_get args "role" = Some role ∧
          addr = if eq_str role "train" || eq_str role "sample"
                 then [("address", localhost)] else []) ∧
    r = set_all args
          ([("n_agents", v1); ("n_actions", v2); ("state_shape", v3);
            ("obs_shape", v4); ("episode_limit", v5); ("episode_length", len);
            ("scheme", sg.1); ("groups", sg.2)] ++ addr ++
           [("unique_token",
             cfg_str ("seed" +:+ format seed +:+ "_" +:+ now))]).
Proof.
  unfold update_args. intros Hrun.
  destruct (items_get args "env") as [env_name|] eqn:Hname;
    simpl in Hrun; [|done].
  destruct (items_get args "env_args") as [env_args|] eqn:Hargs;
    simpl in Hrun; [|done].
  destruct (env_REGISTRY env_name env_args) as [env|] eqn:Henv;
    simpl in Hrun; [|done].
  destruct (eo_env_info env) as [env_info|] eqn:Hinfo; simpl in Hrun; [|done].
  destruct (get_item env_info "n_agents") as [v1|] eqn:H1;
    simpl in Hrun; [|done].
  destruct (get_item env_info "n_actions") as [v2|] eqn:H2;
    simpl in Hrun; [|done].
  destruct (get_item env_info "state_shape") as [v3|] eqn:H3;
    simpl in Hrun; [|done].
  destruct (get_item env_info "obs_shape") as [v4|] eqn:H4;
    simpl in Hrun; [|done].
  destruct (get_item env_info "episode_limit") as [v5|] eqn:H5;
    simpl in Hrun; [|done].
  rewrite ?H5 in Hrun. simpl in Hrun.
  destruct (cfg_succ v5) as [len|] eqn:Hlen; simpl in Hrun; [|done].
  destruct (eo_scheme env) as [sg|] eqn:Hsg; simpl in Hrun; [|done].
  set (base := [("n_agents", v1); ("n_actions", v2); ("state_shape", v3);
                ("obs_shape", v4); ("episode_limit", v5);
                ("episode_length", len); ("scheme", sg.1); ("groups", sg.2)]).
  change (items_set (items_set (items_set (items_set (items_set (items_set
            (items_set (items_set args "n_agents" v1) "n_actions" v2)
            "state_shape" v3) "obs_shape" v4) "episode_limit" v5)
            "episode_length" len) "scheme" sg.1) "groups" sg.2)
    with (set_all args base) in Hrun.
  assert (∀ k, k ∉ base.*1 →
            items_get (set_all args base) k = items_get args k) as Hframe.
  { intros k Hk. rewrite set_all_get.
    destruct (items_get (reverse base) k) as [v|] eqn:Hget; [|done].
    apply items_get_Some in Hget. exfalso. apply Hk.
    apply list_elem_of_fmap. exists (k, v). split; [done|].
    by apply elem_of_reverse. }
  assert (∀ addr,
    (seed ← items_get (set_all (set_all args base) addr) "seed";
     Some (items_set (set_all (set_all args base) addr) "unique_token"
             (cfg_str ("seed" +:+ format seed +:+ "_" +:+ now)))) = Some r →
    addr.*1 ⊆ ["address"] →
    ∃ seed, items_get args "seed" = Some seed ∧
      r = set_all args (base ++ addr ++
            [("unique_token",
              cfg_str ("seed" +:+ format seed +:+ "_" +:+ now))])) as Htail.
  { intros addr Hr Haddr.
    assert (items_get (set_all (set_all args base) addr) "seed"
            = items_get args "seed") as Hseed.
    { rewrite set_all_get.
      destruct (items_get (reverse addr) "seed") as [v|] eqn:Hget.
      - exfalso. apply items_get_Some in Hget.
        rewrite elem_of_reverse in Hget.
        assert ("seed" ∈ addr.*1) as Hk.
        { apply list_elem_of_fmap. by exists ("seed", v). }
        specialize (Haddr _ Hk). apply list_elem_of_singleton in Haddr.
        discriminate Haddr.
      - apply Hframe. not_a_key. }
    rewrite Hseed in Hr.
    destruct (items_get args "seed") as [seed|] eqn:Hsd; simpl in Hr; [|done].
    exists seed. split; [done|]. injection Hr as <-.
    unfold set_all. by rewrite !foldl_app. }
  pose proof (Hframe "local" ltac:(not_a_key)) as Hloc1.
  pose proof (Hframe "role" ltac:(not_a_key)) as Hrole1.
  remember (set_all args base) as ns1 eqn:Hns1.
  clear Hframe Hns1.
  rewrite Hloc1 in Hrun.
  destruct (items_get args "local") as [local|] eqn:Hloc;
    simpl in Hrun; [|done].
  destruct (cfg_truthy local) eqn:Hlocal; simpl in Hrun.
  - destruct (Htail [("address", localhost)]) as (seed & Hseed & ->);
      [exact Hrun|addr_keys|].
    exists env_name, env_args, env, env_info, v1, v2, v3, v4, v5, len, sg,
      local, seed, [("address", localhost)].
    rewrite Hlocal. by split_and!.
  - rewrite Hrole1 in Hrun.
    destruct (items_get args "role") as [role|] eqn:Hrole;
      simpl in Hrun; [|done].
    assert (items_get
              (if eq_str role "train"
               then items_set ns1 "address" localhost
               else ns1) "role" = Some role) as Hrole2.
    { destruct (eq_str role "train"); [|done].
      by rewrite items_get_set_ne. }
    rewrite Hrole2 in Hrun. simpl in Hrun.
    destruct (eq_str role "train") eqn:Htrain,
             (eq_str role "sample") eqn:Hsample.
    + exfalso. destruct role as [[| | |s]| |]; try done. simpl in *.
      apply bool_decide_eq_true in Htrain, Hsample. congruence.
    + destruct (Htail [("address", localhost)]) as (seed & Hseed & ->);
        [exact Hrun|addr_keys|].
      exists env_name, env_args, env, env_info, v1, v2, v3, v4, v5, len, sg,
        local, seed, [("address", localhost)].
      rewrite Hlocal. split_and!; try done. exists role.
      by rewrite Htrain.
    + destruct (Htail [("address", localhost)]) as (seed & Hseed & ->);
        [exact Hrun|addr_keys|].
      exists env_name, env_args, env, env_info, v1, v2, v3, v4, v5, len, sg,
        local, seed, [("address", localhost)].
      rewrite Hlocal. split_and!; try done. exists role.
      by rewrite Htrain, Hsample.
    + destruct (Htail []) as (seed & Hseed & ->);
        [exact Hrun|addr_keys|].
      exists env_name, env_args, env, env_info, v1, v2, v3, v4, v5, len, sg,
        local, seed, [].
      rewrite Hlocal. split_and!; try done. exists role.
      by rewrite Htrain, Hsample.
Qed.

End UpdateArgsLemmas.

Lemma items_get_app {A} (l1 l2 : list (string * A)) k :
  items_get (l1 ++ l2) k
  = match items_get l1 k with
    | Some v => Some v
    | None => items_get l2 k
    end.
Proof.
  induction l1 as [|[k' v'] l1 IH]; [done|]. simpl.
  by destruct (decide (k' = k)).
Qed.

Lemma addr_writes (local : cfg) (args : list (string * cfg)) addr tok :
  (if cfg_truthy local then addr = [("address", localhost)]
   else ∃ role, items_get args "role" = Some role ∧
        addr = if eq_str role "train" || eq_str role "sample"
               then [("address", localhost)] else []) →
  ∀ k, k ≠ "address" → k ≠ "unique_token" →
    items_get (reverse (addr ++ [("unique_token", tok)])) k = None.
Proof.
  intros Haddr k Hk1 Hk2. apply items_get_None.
  rewrite fmap_reverse, elem_of_reverse, fmap_app, elem_of_app.
  intros [Hin|Hin].
  - apply Hk1. apply list_elem_of_fmap in Hin as ([k' v] & -> & Hin). simpl.
    destruct (cfg_truthy local).
    + subst addr. apply list_elem_of_singleton in Hin. congruence.
    + destruct Haddr as (role & _ & ->).
      destruct (eq_str role "train" || eq_str role "sample").
      * apply list_elem_of_singleton in Hin. congruence.
      * by apply elem_of_nil in Hin.
  - apply list_elem_of_singleton in Hin. done.
Qed.

Lemma update_result_get (local : cfg) (args : list (string * cfg)) base addr
    tok k :
  (if cfg_truthy local then addr = [("address", localhost)]
   else ∃ role, items_get args "role" = Some role ∧
        addr = if eq_str role "train" || eq_str role "sample"
               then [("address", localhost)] else []) →
  k ≠ "address" → k ≠ "unique_token" →
  items_get (set_all args (base ++ addr ++ [("unique_token", tok)])) k
  = match items_get (reverse base) k with
    | Some v => Some v
    | None => items_get args k
    end.
Proof.
  intros Haddr Hk1 Hk2.
  rewrite set_all_get, reverse_app, items_get_app.
  by rewrite (addr_writes _ _ _ tok Haddr k Hk1 Hk2).
Qed.

Lemma addr_not_copied (local : cfg) (args : list (string * cfg)) addr tok :
  (if cfg_truthy local then addr = [("address", localhost)]
   else ∃ role, items_get args "role" = Some role ∧
        addr = if eq_str role "train" || eq_str role "sample"
               then [("address", localhost)] else []) →
  ∀ k, k ∈ copied_from_env_info →
    items_get (reverse (addr ++ [("unique_token", tok)])) k = None.
Proof.
  intros Haddr k Hk.
  unfold copied_from_env_info in Hk. rewrite !elem_of_cons in Hk.
  destruct Hk as [->|[->|[->|[->|[->|Hk]]]]];
    [..|by apply elem_of_nil in Hk]; by eapply addr_writes.
Qed.

Section UpdateArgsProperties.
Variable env_REGISTRY : cfg → cfg → option EnvObject.
Variable now : string.
Variable format : cfg → string.

Lemma update_args_frame args r k :
  update_args env_REGISTRY now format args = Some r →
  k ∉ assigned_by_update_args → items_get r k = items_get args k.
Proof.
  intros Hrun Hk.
  destruct (update_args_spec _ _ _ _ _ Hrun)
    as (env_name & env_args & env & env_info & v1 & v2 & v3 & v4 & v5 & len &
        sg & local & seed & addr & _ & _ & _ & _ & _ & _ & _ & _ & _ &
        _ & _ & _ & _ & Haddr & ->).
  rewrite set_all_get.
  match goal with
  | |- match items_get ?l k with _ => _ end = _ =>
      destruct (items_get l k) as [v|] eqn:Hget; [|done]
  end.
  exfalso. apply Hk. apply items_get_Some in Hget.
  rewrite elem_of_reverse in Hget.
  assert (addr.*1 ⊆ ["address"]) as Hsub.
  { destruct (cfg_truthy local); [subst addr; addr_keys|].
    destruct Haddr as (role & _ & ->).
    destruct (eq_str role "train" || eq_str role "sample"); addr_keys. }
  rewrite !elem_of_app in Hget. destruct Hget as [Hin|[Hin|Hin]].
  - assert (k ∈ ["n_agents"; "n_actions"; "state_shape"; "obs_shape";
                 "episode_limit"; "episode_length"; "scheme"; "groups"])
      as Hk'.
    { apply (list_elem_of_fmap_2 fst) in Hin. exact Hin. }
    unfold assigned_by_update_args.
    rewrite !elem_of_cons in Hk'. rewrite !elem_of_cons. tauto.
  - apply (list_elem_of_fmap_2 fst), Hsub, list_elem_of_singleton in Hin.
    simpl in Hin. subst k. unfold assigned_by_update_args.
    rewrite !elem_of_cons. tauto.
  - apply list_elem_of_singleton in Hin. injection Hin as -> _.
    unfold assigned_by_update_args. rewrite !elem_of_cons. tauto.
Qed.

Lemma update_args_copied args r :
  update_args env_REGISTRY now format args = Some r →
  ∃ env_name env_args env env_info,
    items_get args "env" = Some env_name ∧
    items_get args "env_args" = Some env_args ∧
    env_REGISTRY env_name env_args = Some env ∧
    eo_env_info env = Some env_info ∧
    ∀ k, k ∈ copied_from_env_info →
      is_Some (items_get r k) ∧ items_get r k = get_item env_info k.
Proof.
  intros Hrun.
  destruct (update_args_spec _ _ _ _ _ Hrun)
    as (env_name & env_args & env & env_info & v1 & v2 & v3 & v4 & v5 & len &
        sg & local & seed & addr & Hname & Hargs & Henv & Hinfo & H1 & H2 &
        H3 & H4 & H5 & _ & _ & _ & _ & Haddr & ->).
  exists env_name, env_args, env, env_info. split_and!; try done.
  intros k Hk. rewrite set_all_get, reverse_app, items_get_app.
  rewrite (addr_not_copied _ _ _ _ Haddr k Hk).
  unfold copied_from_env_info in Hk. rewrite !elem_of_cons in Hk.
  destruct Hk as [->|[->|[->|[->|[->|Hk]]]]];
    [..|by apply elem_of_nil in Hk].
  - rewrite H1. split; [by eexists|reflexivity].
  - rewrite H2. split; [by eexists|reflexivity].
  - rewrite H3. split; [by eexists|reflexivity].
  - rewrite H4. split; [by eexists|reflexivity].
  - rewrite H5. split; [by eexists|reflexivity].
Qed.

(** X15.  [update_args] assigns at most ten attributes and leaves every
    other one as it found it, the seed, [env_args] and the batch sizes among
    them.  The four shapes and the episode limit are the ones of the
    environment it built from [args.env] and [args.env_args]: what a
    configuration file or the command line said under those names is
    overwritten. *)
Theorem update_args_assigns args r :
  update_args env_REGISTRY now format args = Some r →
  (∀ k, k ∉ assigned_by_update_args → items_get r k = items_get args k) ∧
  ∃ env_name env_args env env_info,
    items_get args "env" = Some env_name ∧
    items_get args "env_args" = Some env_args ∧
    env_REGISTRY env_name env_args = Some env ∧
    eo_env_info env = Some env_info ∧
    ∀ k, k ∈ copied_from_env_info →
      is_Some (items_get r k) ∧ items_get r k = get_item env_info k.
Proof.
  intros Hrun. split; [intros k; by apply update_args_frame|].
  by apply update_args_copied.
Qed.

(** X16.  The address: [update_args] sets it to ["127.0.0.1"] when
    [args.local] is true, and otherwise when [args.role] is ["train"] or
    ["sample"]; for any other role of a run that is not local it assigns no
    address at all, so the attribute is what the configuration held under
    that name, or is missing. *)
Theorem update_args_address args r :
  update_args env_REGISTRY now format args = Some r →
  ∃ local, items_get args "local" = Some local ∧
    (cfg_truthy local = true → items_get r "address" = Some localhost) ∧
    (cfg_truthy local = false →
     ∃ role, items_get args "role" = Some role ∧
       items_get r "address"
       = if eq_str role "train" || eq_str role "sample"
         then Some localhost else items_get args "address").
Proof.
  intros Hrun.
  destruct (update_args_spec _ _ _ _ _ Hrun)
    as (env_name & env_args & env & env_info & v1 & v2 & v3 & v4 & v5 & len &
        sg & local & seed & addr & _ & _ & _ & _ & _ & _ & _ & _ & _ &
        _ & _ & Hloc & _ & Haddr & ->).
  exists local. split; [done|].
  assert (∀ base tok,
    "address" ∉ base.*1 → tok.1 ≠ "address" →
    items_get (set_all args (base ++ addr ++ [tok])) "address"
    = match items_get addr "address" with
      | Some v => Some v
      | None => items_get args "address"
      end) as Hget.
  { intros base [kt vt] Hbase Htok. simpl in Htok.
    rewrite set_all_get, !reverse_app, !items_get_app.
    change (reverse [(kt, vt)]) with [(kt, vt)]. simpl.
    rewrite decide_False by done.
    assert (items_get (reverse base) "address" = None) as ->.
    { apply items_get_None. by rewrite fmap_reverse, elem_of_reverse. }
    destruct (cfg_truthy local); [by subst addr|].
    destruct Haddr as (role & _ & ->).
    by destruct (eq_str role "train" || eq_str role "sample"). }
  rewrite Hget by (first [not_a_key|discriminate]).
  destruct (cfg_truthy local).
  - subst addr. split; [done|discriminate].
  - destruct Haddr as (role & Hrole & ->). split; [discriminate|].
    intros _. exists role. split; [done|].
    by destruct (eq_str role "train" || eq_str role "sample").
Qed.

(** X17.  With an [SMAC] environment the scheme and the groups
    [update_args] stores agree with the shapes it stores beside them: the
    state and observation shapes of the scheme are [args.state_shape] and
    [args.obs_shape], the available actions are a vector of
    [args.n_actions] entries, and the group of agents has [args.n_agents]
    members. *)
Theorem update_args_smac_scheme args r env_name env_args env_info :
  items_get args "env" = Some env_name →
  items_get args "env_args" = Some env_args →
  env_REGISTRY env_name env_args = Some (SMAC env_info) →
  update_args env_REGISTRY now format args = Some r →
  ∃ n_agents n_actions state_shape obs_shape,
    items_get r "n_agents" = Some n_agents ∧
    items_get r "n_actions" = Some n_actions ∧
    items_get r "state_shape" = Some state_shape ∧
    items_get r "obs_shape" = Some obs_shape ∧
    path_get (CDict r) ["scheme"; "state"; "vshape"] = Some state_shape ∧
    path_get (CDict r) ["scheme"; "obs"; "vshape"] = Some obs_shape ∧
    path_get (CDict r) ["scheme"; "avail_actions"; "vshape"]
      = Some (CList [n_actions]) ∧
    path_get (CDict r) ["groups"; "agents"] = Some n_agents.
Proof.
  intros Hname Hargs Henv Hrun.
  destruct (update_args_spec _ _ _ _ _ Hrun)
    as (env_name' & env_args' & env & env_info' & v1 & v2 & v3 & v4 & v5 &
        len & sg & local & seed & addr & Hname' & Hargs' & Henv' & Hinfo &
        H1 & H2 & H3 & H4 & H5 & _ & Hsg & _ & _ & Haddr & Hr).
  rewrite Hname in Hname'. injection Hname' as <-.
  rewrite Hargs in Hargs'. injection Hargs' as <-.
  rewrite Henv in Henv'. injection Henv' as <-.
  simpl in Hinfo. injection Hinfo as <-.
  simpl in Hsg. unfold get_scheme in Hsg.
  rewrite H1, H2, H3, H4 in Hsg. simpl in Hsg. injection Hsg as <-.
  assert (items_get r "n_agents" = Some v1) as Ha.
  { rewrite Hr, (update_result_get _ _ _ _ _ _ Haddr) by discriminate.
    reflexivity. }
  assert (items_get r "n_actions" = Some v2) as Hb.
  { rewrite Hr, (update_result_get _ _ _ _ _ _ Haddr) by discriminate.
    reflexivity. }
  assert (items_get r "state_shape" = Some v3) as Hc.
  { rewrite Hr, (update_result_get _ _ _ _ _ _ Haddr) by discriminate.
    reflexivity. }
  assert (items_get r "obs_shape" = Some v4) as Hd.
  { rewrite Hr, (update_result_get _ _ _ _ _ _ Haddr) by discriminate.
    reflexivity. }
  assert (∃ scheme, items_get r "scheme" = Some scheme ∧
            path_get scheme ["state"; "vshape"] = Some v3 ∧
            path_get scheme ["obs"; "vshape"] = Some v4 ∧
            path_get scheme ["avail_actions"; "vshape"] = Some (CList [v2]))
    as (scheme & He & Hs1 & Hs2 & Hs3).
  { eexists. split; [|split_and!].
    - rewrite Hr, (update_result_get _ _ _ _ _ _ Haddr) by discriminate.
      reflexivity.
    - reflexivity.
    - reflexivity.
    - reflexivity. }
  assert (items_get r "groups" = Some (CDict [("agents", v1)])) as Hf.
  { rewrite Hr, (update_result_get _ _ _ _ _ _ Haddr) by discriminate.
    reflexivity. }
  clear Hr Hrun.
  exists v1, v2, v3, v4.
  split_and!; try done.
  - change (path_get (CDict r) ["scheme"; "state"; "vshape"])
      with (items_get r "scheme" ≫= λ v, path_get v ["state"; "vshape"]).
    by rewrite He.
  - change (path_get (CDict r) ["scheme"; "obs"; "vshape"])
      with (items_get r "scheme" ≫= λ v, path_get v ["obs"; "vshape"]).
    by rewrite He.
  - change (path_get (CDict r) ["scheme"; "avail_actions"; "vshape"])
      with (items_get r "scheme"
              ≫= λ v, path_get v ["avail_actions"; "vshape"]).
    by rewrite He.
  - change (path_get (CDict r) ["groups"; "agents"])
      with (items_get r "groups" ≫= λ v, path_get v ["agents"]).
    by rewrite Hf.
Qed.

End UpdateArgsProperties.

(** * From the command line to the workers *)

Lemma cfg_num_inv c z : cfg_num c = Some z → c = cfg_int z.
Proof. destruct c as [[| | |]| |]; simpl; intros [= <-]; done. Qed.

Lemma runner_args_spec ns a :
  runner_args ns = Some a →
  items_get ns "env_batch_size" ≫= cfg_count = Some (a_env_batch_size a) ∧
  items_get ns "evaluate_batch_size" ≫= cfg_count
    = Some (a_evaluate_batch_size a) ∧
  (∃ env_args, items_get ns "env_args" = Some env_args ∧
     get_item env_args "seed" = Some (cfg_int (a_seed a))) ∧
  items_get ns "n_agents" ≫= cfg_count = Some (n_agents a) ∧
  items_get ns "n_actions" ≫= cfg_count = Some (n_actions a) ∧
  items_get ns "state_shape" ≫= cfg_count = Some (state_shape a) ∧
  items_get ns "obs_shape" ≫= cfg_count = Some (obs_shape a).
Proof.
  unfold runner_args. intros Hrun.
  destruct (items_get ns "env_batch_size" ≫= cfg_count) as [n1|];
    simpl in Hrun; [|done].
  destruct (items_get ns "evaluate_batch_size" ≫= cfg_count) as [n2|];
    simpl in Hrun; [|done].
  destruct (items_get ns "asynchronous_env") as [b|]; simpl in Hrun; [|done].
  destruct (items_get ns "env_args") as [env_args|]; simpl in Hrun; [|done].
  destruct (get_item env_args "seed") as [seed|] eqn:Hseed;
    simpl in Hrun; [|done].
  destruct (cfg_num seed) as [z|] eqn:Hz; simpl in Hrun; [|done].
  apply cfg_num_inv in Hz as ->.
  destruct (items_get ns "n_agents" ≫= cfg_count) as [n3|];
    simpl in Hrun; [|done].
  destruct (items_get ns "n_actions" ≫= cfg_count) as [n4|];
    simpl in Hrun; [|done].
  destruct (items_get ns "state_shape" ≫= cfg_count) as [n5|];
    simpl in Hrun; [|done].
  destruct (items_get ns "obs_shape" ≫= cfg_count) as [n6|];
    simpl in Hrun; [|done].
  injection Hrun as <-. simpl. split_and!; try done. by exists env_args.
Qed.

Section Configured.
Context {Env Action : Type} `{!Environment Env Action}.
Variable env_REGISTRY : cfg → cfg → option EnvObject.
Variable now : string.
Variable format : cfg → string.

(** X18.  From the command line to the workers.  For the namespace
    [get_all_config] returns and a runner built on it: the seed the runner
    offsets per worker is the one of the command line unless the algorithm
    file has its own, so with no ["seed"] in the algorithm file worker [i]
    runs the environment seeded [--seed + i], whatever [default.yaml] and
    the environment file say; and the four shapes the runner sizes its
    placeholder entries with are those reported by the environment
    [update_args] built, not those of any configuration source. *)
Theorem configured_runner yaml_default alg_yaml env_yaml cli ns a :
  (∀ x c, alg_yaml x = Some c → unique_keys c = true) →
  (∀ x c, env_yaml x = Some c → unique_keys c = true) →
  get_all_config env_REGISTRY now format yaml_default alg_yaml env_yaml cli
    = Some ns →
  runner_args ns = Some a →
  ∃ algs env_name env_args env env_info,
    alg_yaml (cfg_str (cli_alg cli)) = Some (CDict algs) ∧
    layered (Some (cfg_int (cli_seed cli))) (items_get algs "seed")
      = Some (cfg_int (a_seed a)) ∧
    (items_get algs "seed" = None →
     ∀ eval i, (i < env_batch_size (init (Env:=Env) (Action:=Action) a eval))%nat →
       parent_conns (init (Env:=Env) (Action:=Action) a eval) !! i
       = Some (fresh_worker (cli_seed cli + Z.of_nat i))) ∧
    items_get ns "env" = Some env_name ∧
    items_get ns "env_args" = Some env_args ∧
    env_REGISTRY env_name env_args = Some env ∧
    eo_env_info env = Some env_info ∧
    get_item env_info "n_agents" ≫= cfg_count = Some (n_agents a) ∧
    get_item env_info "n_actions" ≫= cfg_count = Some (n_actions a) ∧
    get_item env_info "state_shape" ≫= cfg_count = Some (state_shape a) ∧
    get_item env_info "obs_shape" ≫= cfg_count = Some (obs_shape a).
Proof.
  intros Halg_wf Henv_wf Hrun Hargs. unfold get_all_config in Hrun.
  destruct (merged_configs yaml_default alg_yaml env_yaml cli)
    as [m|] eqn:Hm; simpl in Hrun; [|done].
  destruct m as [?|?|m]; simpl in Hrun; try done.
  destruct (merged_env_args_aux _ _ _ _ _ Halg_wf Henv_wf Hm)
    as (algs & env_type & map_name & seed & Ha & Hsd & _ & _ & _ & _ &
        Hpath & _).
  destruct (update_args_copied _ _ _ _ _ Hrun)
    as (env_name & env_args & env & env_info & Hname & Hea & Henv & Hinfo &
        Hcopied).
  pose proof (update_args_frame _ _ _ _ _ "env" Hrun ltac:(not_a_key))
    as Hname'.
  pose proof (update_args_frame _ _ _ _ _ "env_args" Hrun ltac:(not_a_key))
    as Hea'.
  destruct (runner_args_spec _ _ Hargs)
    as (_ & _ & (ea & Hns_ea & Hns_seed) & Hn1 & Hn2 & Hn3 & Hn4).
  assert (seed = cfg_int (a_seed a)) as ->.
  { change (path_get (CDict m) ["env_args"; "seed"])
      with (items_get m "env_args" ≫= λ v, path_get v ["seed"]) in Hpath.
    rewrite <- Hea', Hns_ea in Hpath. simpl in Hpath.
    destruct ea as [?|?|ea]; simpl in Hpath, Hns_seed; try done.
    rewrite Hns_seed in Hpath. simpl in Hpath. by injection Hpath as <-. }
  exists algs, env_name, env_args, env, env_info.
  split_and!; try done; try congruence.
  - intros Hnone eval i Hi. rewrite Hnone in Hsd. simpl in Hsd.
    injection Hsd as Hsd. rewrite Hsd.
    simpl in *. rewrite list_lookup_fmap, lookup_seq_lt by done. done.
  - destruct (Hcopied "n_agents") as [_ <-]; [|done].
    unfold copied_from_env_info. rewrite !elem_of_cons. tauto.
  - destruct (Hcopied "n_actions") as [_ <-]; [|done].
    unfold copied_from_env_info. rewrite !elem_of_cons. tauto.
  - destruct (Hcopied "state_shape") as [_ <-]; [|done].
    unfold copied_from_env_info. rewrite !elem_of_cons. tauto.
  - destruct (Hcopied "obs_shape") as [_ <-]; [|done].
    unfold copied_from_env_info. rewrite !elem_of_cons. tauto.
Qed.

End Configured.

(** * The namespace properties on concrete files *)

Lemma update_args_assigns_witness :
  match update_args demo_registry "2024-01-01" demo_format demo_merged_items
  with
  | Some r =>
      items_get r "seed" = Some (cfg_int 1) ∧
      items_get r "env_batch_size" = Some (cfg_int 8) ∧
      items_get r "n_agents" = Some (cfg_int 2)
  | None => False
  end.
Proof.
  destruct (update_args demo_registry "2024-01-01" demo_format
              demo_merged_items) as [r|] eqn:Hrun;
    [|vm_compute in Hrun; discriminate Hrun].
  destruct (update_args_assigns demo_registry "2024-01-01" demo_format
              demo_merged_items r Hrun)
    as [Hframe (en & ea & env & info & Hn & Ha & Hreg & Hinfo & Hcopy)].
  split; [|split].
  - rewrite Hframe by not_a_key. reflexivity.
  - rewrite Hframe by not_a_key. reflexivity.
  - vm_compute in Hn. injection Hn as <-.
    vm_compute in Ha. injection Ha as <-.
    vm_compute in Hreg. injection Hreg as <-.
    vm_compute in Hinfo. injection Hinfo as <-.
    destruct (Hcopy "n_agents") as [_ ->]; [|reflexivity].
    apply (bool_decide_unpack _). vm_compute. exact I.
Defined.

(** A local run gets the loopback address; a remote run whose role is
    neither ["train"] nor ["sample"] gets none. *)
Lemma update_args_address_witness :
  match update_args demo_registry "2024-01-01" demo_format demo_merged_items
  with
  | Some r => items_get r "address" = Some localhost
  | None => False
  end ∧
  match update_args demo_registry "2024-01-01" demo_format demo_remote_items
  with
  | Some r => items_get r "address" = None
  | None => False
  end.
Proof.
  split.
  - destruct (update_args demo_registry "2024-01-01" demo_format
                demo_merged_items) as [r|] eqn:Hrun;
      [|vm_compute in Hrun; discriminate Hrun].
    destruct (update_args_address demo_registry "2024-01-01" demo_format
                demo_merged_items r Hrun) as (local & Hloc & Htrue & _).
    vm_compute in Hloc. injection Hloc as <-.
    exact (Htrue eq_refl).
  - destruct (update_args demo_registry "2024-01-01" demo_format
                demo_remote_items) as [r|] eqn:Hrun;
      [|vm_compute in Hrun; discriminate Hrun].
    destruct (update_args_address demo_registry "2024-01-01" demo_format
                demo_remote_items r Hrun) as (local & Hloc & _ & Hfalse).
    vm_compute in Hloc. injection Hloc as <-.
    destruct (Hfalse eq_refl) as (role & Hrole & Haddr).
    vm_compute in Hrole. injection Hrole as <-.
    rewrite Haddr. reflexivity.
Defined.

Lemma update_args_smac_scheme_witness :
  match update_args demo_registry "2024-01-01" demo_format demo_merged_items
  with
  | Some r =>
      path_get (CDict r) ["groups"; "agents"] = Some (cfg_int 2) ∧
      path_get (CDict r) ["scheme"; "avail_actions"; "vshape"]
        = Some (CList [cfg_int 3])
  | None => False
  end.
Proof.
  destruct (update_args demo_registry "2024-01-01" demo_format
              demo_merged_items) as [r|] eqn:Hrun;
    [|vm_compute in Hrun; discriminate Hrun].
  edestruct (update_args_smac_scheme demo_registry "2024-01-01" demo_format
               demo_merged_items r)
    as (agents & actions & state & obs & Ha & Hb & _ & _ & _ & _ & Hav & Hg);
    [reflexivity|reflexivity|reflexivity|exact Hrun|].
  vm_compute in Hrun. injection Hrun as <-.
  vm_compute in Ha. injection Ha as <-.
  vm_compute in Hb. injection Hb as <-.
  split; [exact Hg|exact Hav].
Defined.

Lemma configured_runner_witness :
  match demo_namespace with
  | Some ns =>
      match runner_args ns with
      | Some a =>
          a_seed a = 1 ∧
          parent_conns (init (Env:=Script) (Action:=Z) a false) !! 1%nat
            = Some (fresh_worker 2) ∧
          n_agents a = 2%nat
      | None => False
      end
  | None => False
  end.
Proof.
  destruct demo_namespace as [ns|] eqn:Hns;
    [|vm_compute in Hns; discriminate Hns].
  destruct (runner_args ns) as [a|] eqn:Ha.
  - destruct (configured_runner (Env:=Script) (Action:=Z) demo_registry
                "2024-01-01" demo_format (Some (CDict demo_runner_default))
                demo_alg_yaml demo_env_yaml demo_cli ns a
                demo_alg_yaml_unique demo_env_yaml_unique Hns Ha)
      as (algs & en & ea & env & info & Halg & Hseed & Hworkers & _).
    vm_compute in Halg. injection Halg as <-.
    vm_compute in Hns. injection Hns as <-.
    vm_compute in Ha. injection Ha as <-.
    split; [reflexivity|]. split; [|reflexivity].
    exact (Hworkers eq_refl false 1%nat ltac:(vm_compute; lia)).
  - vm_compute in Hns. injection Hns as <-.
    vm_compute in Ha. discriminate Ha.
Defined.
